(** * BCM avatar frontend bridge (src/script.js): a shallow embedding

    The bridge is a handful of [fetch] wrappers with a timeout composer,
    three response formatters, a keyword router and two configuration
    setters.  The embedding keeps the JavaScript shapes:

    - values are the JSON values a response can carry, plus [undefined];
      a number is an integer-valued double ([NaN] and fractions are left
      out; the two zeros, which print and test alike, are one), a string
      has code units below 256, an object has own data properties only, in
      the order JavaScript enumerates them (no function is a value);
    - thrown conditions are [Error] instances or arbitrary thrown values;
    - [AbortController]s, their listeners and the pending timers live in an
      explicit [world], together with the two configuration variables and a
      log of the platform calls the program makes;
    - [async] functions are computations in a state-and-exception monad
      whose third outcome is "never settles". *)

From Stdlib Require Import ZArith String Ascii List Bool Lia.
From stdpp Require Import base option list gmap strings pretty.

Set Warnings "-register-all".

Local Open Scope string_scope.
Local Open Scope Z_scope.

(** ** Strings

    A JavaScript string is a sequence of code units; the embedding keeps the
    code units below 256, one [ascii] each. *)

Module Str.

Definition nl : string := String "010"%char EmptyString.
Definition dquote : string := String "034"%char EmptyString.
Definition backslash : string := String "092"%char EmptyString.

(** [hay.includes(needle)] *)
Fixpoint includes (needle hay : string) : bool :=
  String.prefix needle hay ||
  match hay with
  | EmptyString => false
  | String _ rest => includes needle rest
  end.

(** Lower-casing of one code unit below 256: A-Z, and the Latin-1 capitals
    U+00C0..U+00DE except the multiplication sign U+00D7. *)
Definition lower_char (c : ascii) : ascii :=
  let n := nat_of_ascii c in
  if ((65 <=? n) && (n <=? 90))%nat then ascii_of_nat (n + 32)
  else if ((192 <=? n) && (n <=? 222) && negb (n =? 215))%nat
       then ascii_of_nat (n + 32)
  else c.

(** [s.toLowerCase()] *)
Fixpoint toLowerCase (s : string) : string :=
  match s with
  | EmptyString => EmptyString
  | String c rest => String (lower_char c) (toLowerCase rest)
  end.

Definition is_empty (s : string) : bool :=
  match s with EmptyString => true | _ => false end.

(** [parts.join(sep)] on strings *)
Fixpoint join (sep : string) (parts : list string) : string :=
  match parts with
  | [] => EmptyString
  | [p] => p
  | p :: rest => p +:+ sep +:+ join sep rest
  end.

Definition hex_digit (upper : bool) (n : nat) : ascii :=
  if (n <? 10)%nat then ascii_of_nat (48 + n)
  else ascii_of_nat ((if upper then 55 else 87) + n).

End Str.

(** ** Numbers

    [JNum n] is the Number a literal [n] denotes: the double nearest to the
    integer [n], ties going to the even mantissa, and an infinity from
    2^1024 - 2^970 on. *)

Module Num.

(** The magnitude of the double nearest to [m], for [0 <= m]. *)
Definition round_mag (m : Z) : Z :=
  let bits := Z.log2 m + 1 in
  if bits <=? 53 then m
  else
    let sh := bits - 53 in
    let q := Z.shiftr m sh in
    let r := m - Z.shiftl q sh in
    let half := Z.shiftl 1 (sh - 1) in
    Z.shiftl (if (half <? r) || ((r =? half) && Z.odd q) then q + 1 else q) sh.

Definition is_finite (n : Z) : bool := round_mag (Z.abs n) <? 2 ^ 1024.

(** [Number::toString] looks for the fewest significant digits that still
    denote the double [x]: with [k] digits the two candidates are the
    multiples of [10^(d-k)] around [x], [d] being the number of digits of
    [x]; of two that do, the nearer one is taken (the even one on a
    tie). *)
Fixpoint shortest_from (fuel k d : nat) (x : Z) : Z :=
  match fuel with
  | O => x
  | S fuel' =>
      let p := 10 ^ Z.of_nat (d - k) in
      let lo := x / p * p in
      let hi := lo + p in
      let ok_lo := (0 <? lo) && (round_mag lo =? x) in
      let ok_hi := round_mag hi =? x in
      if ok_lo && ok_hi then
        if x - lo <? hi - x then lo
        else if hi - x <? x - lo then hi
        else if Z.even (lo / p) then lo else hi
      else if ok_lo then lo
      else if ok_hi then hi
      else shortest_from fuel' (S k) d x
  end.

Definition shortest (x : Z) : Z :=
  let d := String.length (pretty x) in shortest_from d 1 d x.

Fixpoint strip_zeros (s : string) : string :=
  match s with
  | EmptyString => EmptyString
  | String c rest =>
      match strip_zeros rest with
      | EmptyString => if Ascii.eqb c "0" then EmptyString
                       else String c EmptyString
      | rest' => String c rest'
      end
  end.

(** The exponent form, used from 10^21 on: [1e+21], [1.5e+300]. *)
Definition exponent_form (v : Z) : string :=
  let ds := pretty v in
  let e := pretty (Z.of_nat (String.length ds) - 1) in
  match strip_zeros ds with
  | String c EmptyString => String c EmptyString +:+ "e+" +:+ e
  | String c rest => String c EmptyString +:+ "." +:+ rest +:+ "e+" +:+ e
  | EmptyString => "0"
  end.

(** [String(n)] for a number *)
Definition toString (n : Z) : string :=
  if n =? 0 then "0"
  else
    (if n <? 0 then "-" else EmptyString) +:+
    (if is_finite n then
       let v := shortest (round_mag (Z.abs n)) in
       if v <? 10 ^ 21 then pretty v else exponent_form v
     else "Infinity").

(** [JSON.stringify(n)] for a number: an infinity prints as [null]. *)
Definition toJSON (n : Z) : string :=
  if is_finite n then toString n else "null".

End Num.

(** ** Values *)

Inductive value : Type :=
| JUndefined
| JNull
| JBool (b : bool)
| JNum (n : Z)
| JStr (s : string)
| JArr (xs : list value)
| JObj (props : list (string * value)).

(** A thrown condition, a promise rejection or an abort reason: an [Error]
    instance (with its [name] and [message]) or any other value. *)
Inductive exn : Type :=
| ErrorObj (name message : string)
| Thrown (v : value).

Inductive completion (A : Type) : Type :=
| Normal (a : A)
| Throw (e : exn).
Arguments Normal {A} a.
Arguments Throw {A} e.

(** A synchronous piece of code either returns or throws: a [completion]. *)
Definition cbind {A B} (c : completion A) (k : A -> completion B)
  : completion B :=
  match c with
  | Normal a => k a
  | Throw e => Throw e
  end.

Notation "'let?' x ':=' c 'in' k" := (cbind c (fun x => k))
  (at level 10, x name, c at level 100, k at level 200, only parsing).

Section MapCompletion.
Context {A B : Type} (f : A -> completion B).

(** [xs.map(f)] for a callback that may throw: the first throw ends it. *)
Fixpoint map_completion (xs : list A) : completion (list B) :=
  match xs with
  | [] => Normal []
  | x :: rest =>
      let? y := f x in
      let? ys := map_completion rest in
      Normal (y :: ys)
  end.

End MapCompletion.

Module JS.

(** ToBoolean *)
Definition truthy (v : value) : bool :=
  match v with
  | JUndefined | JNull => false
  | JBool b => b
  | JNum n => negb (n =? 0)%Z
  | JStr s => negb (Str.is_empty s)
  | JArr _ | JObj _ => true
  end.

Definition truthy_exn (e : exn) : bool :=
  match e with
  | ErrorObj _ _ => true
  | Thrown v => truthy v
  end.

(** [a || b] *)
Definition or_else (a b : value) : value := if truthy a then a else b.

Definition is_nullish (v : value) : bool :=
  match v with JUndefined | JNull => true | _ => false end.

Fixpoint assoc (k : string) (props : list (string * value)) : option value :=
  match props with
  | [] => None
  | (k', v) :: rest => if String.eqb k k' then Some v else assoc k rest
  end.

Definition NOT_PRIMITIVE : exn :=
  ErrorObj "TypeError" "Cannot convert object to primitive value".

(** [String(v)], also the conversion of a template literal hole and of an
    element in [join].  An array converts as [join(",")], which prints
    [null] and [undefined] elements as the empty string.  A plain object
    converts through its [toString]: the inherited one gives
    [[object Object]]; an own property of that name is no function (no
    value is), the inherited [valueOf] then returns the object itself, and
    the conversion throws a [TypeError]. *)
Fixpoint to_string (v : value) : completion string :=
  match v with
  | JUndefined => Normal "undefined"
  | JNull => Normal "null"
  | JBool b => Normal (if b then "true" else "false")
  | JNum n => Normal (Num.toString n)
  | JStr s => Normal s
  | JArr xs =>
      let? parts := map_completion
                      (fun x => if is_nullish x then Normal EmptyString
                                else to_string x) xs in
      Normal (Str.join "," parts)
  | JObj props =>
      match assoc "toString" props with
      | Some _ => Throw NOT_PRIMITIVE
      | None => Normal "[object Object]"
      end
  end.

(** The text of one element in [join]. *)
Definition element_text (x : value) : completion string :=
  if is_nullish x then Normal EmptyString else to_string x.

(** [xs.join(sep)] *)
Definition join (sep : string) (xs : list value) : completion string :=
  let? parts := map_completion element_text xs in
  Normal (Str.join sep parts).

(** The escape of one code unit inside a JSON string. *)
Definition escape_char (c : ascii) : string :=
  let n := nat_of_ascii c in
  if (n =? 34)%nat then Str.backslash +:+ Str.dquote
  else if (n =? 92)%nat then Str.backslash +:+ Str.backslash
  else if (n =? 8)%nat then Str.backslash +:+ "b"
  else if (n =? 9)%nat then Str.backslash +:+ "t"
  else if (n =? 10)%nat then Str.backslash +:+ "n"
  else if (n =? 12)%nat then Str.backslash +:+ "f"
  else if (n =? 13)%nat then Str.backslash +:+ "r"
  else if (n <? 32)%nat then
    Str.backslash +:+ "u00" +:+
    String (Str.hex_digit false (n / 16))
      (String (Str.hex_digit false (n mod 16)) EmptyString)
  else String c EmptyString.

Fixpoint escape (s : string) : string :=
  match s with
  | EmptyString => EmptyString
  | String c rest => escape_char c +:+ escape rest
  end.

Definition quote (s : string) : string :=
  Str.dquote +:+ escape s +:+ Str.dquote.

(** [JSON.stringify(v)]; [None] is the [undefined] it returns for
    [undefined].  Inside an array [undefined] prints as [null]; a property
    whose value is [undefined] is left out.  An own [toJSON] is no function
    and is printed like any property. *)
Fixpoint stringify (v : value) : option string :=
  match v with
  | JUndefined => None
  | JNull => Some "null"
  | JBool b => Some (if b then "true" else "false")
  | JNum n => Some (Num.toJSON n)
  | JStr s => Some (quote s)
  | JArr xs =>
      Some ("[" +:+
            Str.join "," (map (fun x => default "null" (stringify x)) xs)
            +:+ "]")
  | JObj props =>
      Some ("{" +:+
            Str.join ","
              (flat_map (fun p => match stringify (snd p) with
                                  | Some s => [quote (fst p) +:+ ":" +:+ s]
                                  | None => []
                                  end) props)
            +:+ "}")
  end.

Definition JSON_stringify (v : value) : value :=
  match stringify v with
  | Some s => JStr s
  | None => JUndefined
  end.

(** [v.name] for the property names this program reads ([courses],
    [summary], [question], [answer], [message], ...): none of them is a
    built-in property of a primitive or of an array, so only a plain object
    can have one.  Reading a property of [null] or [undefined] throws. *)
Definition get_prop (v : value) (name : string) : completion value :=
  match v with
  | JUndefined =>
      Throw (ErrorObj "TypeError"
               ("Cannot read properties of undefined (reading '" +:+ name +:+ "')"))
  | JNull =>
      Throw (ErrorObj "TypeError"
               ("Cannot read properties of null (reading '" +:+ name +:+ "')"))
  | JObj props => Normal (default JUndefined (assoc name props))
  | _ => Normal JUndefined
  end.

(** [Array.isArray(v)] *)
Definition isArray (v : value) : bool :=
  match v with JArr _ => true | _ => false end.

(** [String(err)]: [Error.prototype.toString] for an [Error] instance. *)
Definition exn_to_string (e : exn) : completion string :=
  match e with
  | ErrorObj name message =>
      Normal (if Str.is_empty name then message
              else if Str.is_empty message then name
              else name +:+ ": " +:+ message)
  | Thrown v => to_string v
  end.

(** [err.message] *)
Definition exn_message (e : exn) : completion value :=
  match e with
  | ErrorObj _ message => Normal (JStr message)
  | Thrown v => get_prop v "message"
  end.

(** [err.message || String(err)]: the string form is only asked for when
    the message is falsy. *)
Definition error_text (e : exn) : completion value :=
  let? m := exn_message e in
  if truthy m then Normal m
  else let? s := exn_to_string e in Normal (JStr s).

End JS.

(** ** The world: abort controllers, timers, configuration, call log *)

(** The two closures the program hands to the platform. *)
Inductive callback : Type :=
| OnTimeout (ctrl : nat)
    (** [() => ctrl.abort(new Error("Timeout"))] *)
| OnAbort (combined signal : nat)
    (** [() => combined.abort(signal.reason || new Error("Aborted"))] *).

Record listener := { once : bool; handler : callback }.

(** An [AbortController] and its [signal], stored at one index. *)
Record signal_state := {
  aborted : bool;
  reason : exn;
  listeners : list listener
}.

Record timer := { deadline : Z; on_fire : callback }.

Record request := {
  url : string;
  method : string;
  headers : gmap string value;
  body : option string;
  req_signal : nat
}.

(** The platform calls the program makes, oldest first. *)
Inductive event : Type :=
| EvSetTimeout (id : nat) (ms : Z)
| EvClearTimeout (id : nat)
| EvFetch (r : request)
| EvJson
| EvText.

Record world := {
  now : Z;
  signals : list signal_state;
  timers : list (nat * timer);
  next_timer : nat;
  API_BASE : string;
  ADMIN_KEY : value;
  log : list event
}.

Definition set_now (t : Z) (w : world) : world :=
  {| now := t; signals := signals w; timers := timers w;
     next_timer := next_timer w; API_BASE := API_BASE w;
     ADMIN_KEY := ADMIN_KEY w; log := log w |}.

Definition set_signals (ss : list signal_state) (w : world) : world :=
  {| now := now w; signals := ss; timers := timers w;
     next_timer := next_timer w; API_BASE := API_BASE w;
     ADMIN_KEY := ADMIN_KEY w; log := log w |}.

Definition set_timers (ts : list (nat * timer)) (w : world) : world :=
  {| now := now w; signals := signals w; timers := ts;
     next_timer := next_timer w; API_BASE := API_BASE w;
     ADMIN_KEY := ADMIN_KEY w; log := log w |}.

Definition set_next_timer (n : nat) (w : world) : world :=
  {| now := now w; signals := signals w; timers := timers w;
     next_timer := n; API_BASE := API_BASE w;
     ADMIN_KEY := ADMIN_KEY w; log := log w |}.

Definition set_API_BASE (s : string) (w : world) : world :=
  {| now := now w; signals := signals w; timers := timers w;
     next_timer := next_timer w; API_BASE := s;
     ADMIN_KEY := ADMIN_KEY w; log := log w |}.

Definition set_ADMIN_KEY (k : value) (w : world) : world :=
  {| now := now w; signals := signals w; timers := timers w;
     next_timer := next_timer w; API_BASE := API_BASE w;
     ADMIN_KEY := k; log := log w |}.

Definition emit (e : event) (w : world) : world :=
  {| now := now w; signals := signals w; timers := timers w;
     next_timer := next_timer w; API_BASE := API_BASE w;
     ADMIN_KEY := ADMIN_KEY w; log := log w ++ [e] |}.

(** The world the script leaves behind when it is loaded (lines 9-10). *)
Definition initial_world : world :=
  {| now := 0; signals := []; timers := []; next_timer := 1;
     API_BASE := "https://bcm-demo.onrender.com";
     ADMIN_KEY := JUndefined; log := [] |}.

Module Abort.

Definition fresh_signal : signal_state :=
  {| aborted := false; reason := Thrown JUndefined; listeners := [] |}.

(** [new AbortController()] *)
Definition new_AbortController (w : world) : nat * world :=
  (length (signals w), set_signals (signals w ++ [fresh_signal]) w).

(** [signal.aborted] *)
Definition is_aborted (w : world) (s : nat) : bool :=
  match signals w !! s with
  | Some st => aborted st
  | None => false
  end.

(** [signal.reason] *)
Definition signal_reason (w : world) (s : nat) : exn :=
  match signals w !! s with
  | Some st => reason st
  | None => Thrown JUndefined
  end.

(** [signal.addEventListener("abort", handler, { once })]: the listener is
    appended and nothing is dispatched, whatever the state of the signal. *)
Definition addEventListener (s : nat) (l : listener) (w : world) : world :=
  match signals w !! s with
  | Some st =>
      set_signals
        (<[s := {| aborted := aborted st; reason := reason st;
                   listeners := listeners st ++ [l] |}]> (signals w)) w
  | None => w
  end.

(** [abort()] without a reason aborts with an [AbortError]. *)
Definition abort_reason (r : exn) : exn :=
  match r with
  | Thrown JUndefined => ErrorObj "AbortError" "signal is aborted without reason"
  | _ => r
  end.

(** The controller a callback aborts and the reason it passes, read in the
    world the callback runs in. *)
Definition callback_call (cb : callback) (w : world) : nat * exn :=
  match cb with
  | OnTimeout c => (c, ErrorObj "Error" "Timeout")
  | OnAbort combined s =>
      (combined,
       let r := signal_reason w s in
       if JS.truthy_exn r then r else ErrorObj "Error" "Aborted")
  end.

(** [ctrl.abort(r)]: nothing on an aborted signal; otherwise the signal
    becomes aborted with the reason and the [abort] event is dispatched to
    the listeners registered at that moment, in order, the [once] ones being
    dropped.  A listener may abort a further controller, hence the fuel:
    every nested call that does anything aborts one more live signal. *)
Fixpoint signal_abort (fuel : nat) (c : nat) (r : exn) (w : world) : world :=
  match fuel with
  | O => w
  | S fuel' =>
      match signals w !! c with
      | Some st =>
          if aborted st then w
          else
            let st' := {| aborted := true; reason := abort_reason r;
                          listeners := List.filter (fun l => negb (once l))
                                         (listeners st) |} in
            fold_left
              (fun acc l =>
                 signal_abort fuel' (fst (callback_call (handler l) acc))
                   (snd (callback_call (handler l) acc)) acc)
              (listeners st)
              (set_signals (<[c := st']> (signals w)) w)
      | None => w
      end
  end.

Definition live (w : world) : nat :=
  length (List.filter (fun st => negb (aborted st)) (signals w)).

Definition abort (c : nat) (r : exn) (w : world) : world :=
  signal_abort (S (live w)) c r w.

Definition run_callback (cb : callback) (w : world) : world :=
  abort (fst (callback_call cb w)) (snd (callback_call cb w)) w.

End Abort.

Module Timers.

(** The delay argument of [setTimeout] is converted to a 32-bit integer and
    a negative delay counts as zero. *)
Definition to_int32 (z : Z) : Z := (z + 2 ^ 31) mod 2 ^ 32 - 2 ^ 31.

Definition timer_delay (ms : Z) : Z := Z.max 0 (to_int32 ms).

(** [setTimeout(cb, ms)] *)
Definition setTimeout (cb : callback) (ms : Z) (w : world) : nat * world :=
  let id := next_timer w in
  (id,
   emit (EvSetTimeout id ms)
     (set_next_timer (S id)
        (set_timers
           (timers w ++ [(id, {| deadline := now w + timer_delay ms;
                                 on_fire := cb |})]) w))).

Definition remove (id : nat) (ts : list (nat * timer)) : list (nat * timer) :=
  List.filter (fun p => negb (Nat.eqb (fst p) id)) ts.

Definition pending (w : world) (id : nat) : bool :=
  existsb (fun p => Nat.eqb (fst p) id) (timers w).

(** [clearTimeout(id)] *)
Definition clearTimeout (id : nat) (w : world) : world :=
  emit (EvClearTimeout id) (set_timers (remove id (timers w)) w).

(** The pending timer that fires next: the least deadline, the older timer
    on a tie. *)
Fixpoint earliest (ts : list (nat * timer)) : option (nat * timer) :=
  match ts with
  | [] => None
  | p :: rest =>
      match earliest rest with
      | Some q => if deadline (snd p) <=? deadline (snd q) then Some p
                  else Some q
      | None => Some p
      end
  end.

Definition due (limit : option Z) (t : timer) : bool :=
  match limit with
  | Some T => deadline t <=? T
  | None => true
  end.

Definition next_due (limit : option Z) (w : world) : option (nat * timer) :=
  match earliest (timers w) with
  | Some p => if due limit (snd p) then Some p else None
  | None => None
  end.

(** One timer task: the clock reaches the deadline, the timer leaves the
    pending list and its callback runs. *)
Definition fire (p : nat * timer) (w : world) : world :=
  Abort.run_callback (on_fire (snd p))
    (set_now (Z.max (now w) (deadline (snd p)))
       (set_timers (remove (fst p) (timers w)) w)).

(** Run the timer tasks due up to [limit] (all of them when there is none),
    stopping as soon as signal [sg] is aborted.  The boolean tells whether
    it stopped for that reason.  Callbacks create no timers, so one unit of
    fuel per pending timer is enough. *)
Fixpoint run_timers (fuel : nat) (limit : option Z) (sg : nat) (w : world)
  : world * bool :=
  match fuel with
  | O => (w, false)
  | S fuel' =>
      match next_due limit w with
      | Some p =>
          let w' := fire p w in
          if Abort.is_aborted w' sg then (w', true)
          else run_timers fuel' limit sg w'
      | None => (w, false)
      end
  end.

(** Waiting for a platform operation that watches signal [sg] and would
    complete after [delay] ms ([None]: never).  [Some (w, Some r)]: the
    signal is aborted first and the operation rejects with its reason;
    [Some (w, None)]: the operation completes; [None]: it never settles. *)
Definition await (sg : nat) (delay : option Z) (w : world)
  : option (world * option exn) :=
  if Abort.is_aborted w sg then Some (w, Some (Abort.signal_reason w sg))
  else
    let limit := (fun d => now w + Z.max 0 d) <$> delay in
    let r := run_timers (length (timers w)) limit sg w in
    if snd r then Some (fst r, Some (Abort.signal_reason (fst r) sg))
    else match limit with
         | Some T => Some (set_now (Z.max (now (fst r)) T) (fst r), None)
         | None => None
         end.

End Timers.

(** ** Timeout composer (lines 15-33) *)

(** The object [withTimeout] returns; [clear] is the closure
    [() => clearTimeout(id)], kept as the [id] it captures. *)
Record timeout_handle := {
  h_signal : nat;
  h_clear : nat;
  h_controller : nat
}.

Definition withTimeout (ms : Z) (signal : option nat) (w : world)
  : timeout_handle * world :=
  let '(ctrl, w1) := Abort.new_AbortController w in
  let '(id, w2) := Timers.setTimeout (OnTimeout ctrl) ms w1 in
  match signal with
  | Some s =>
      let '(combined, w3) := Abort.new_AbortController w2 in
      let w4 := Abort.addEventListener s
                  {| once := true; handler := OnAbort combined s |} w3 in
      ({| h_signal := combined; h_clear := id; h_controller := ctrl |}, w4)
  | None =>
      ({| h_signal := ctrl; h_clear := id; h_controller := ctrl |}, w2)
  end.

Definition clear (t : timeout_handle) (w : world) : world :=
  Timers.clearTimeout (h_clear t) w.

(** ** Computations

    An [async] function is run to the point where its promise settles; it
    reads and updates the world, and its promise is fulfilled ([Normal]),
    rejected ([Throw]) or never settled ([None]). *)

Definition M (A : Type) : Type := world -> option (completion A * world).

Module Async.

Definition ret {A} (a : A) : M A := fun w => Some (Normal a, w).

Definition throw {A} (e : exn) : M A := fun w => Some (Throw e, w).

Definition bind {A B} (m : M A) (k : A -> M B) : M B :=
  fun w =>
    match m w with
    | Some (Normal a, w') => k a w'
    | Some (Throw e, w') => Some (Throw e, w')
    | None => None
    end.

(** A synchronous call that cannot throw. *)
Definition call {A} (f : world -> A * world) : M A :=
  fun w => Some (Normal (fst (f w)), snd (f w)).

Definition read {A} (f : world -> A) : M A :=
  fun w => Some (Normal (f w), w).

Definition of_completion {A} (c : completion A) : M A :=
  fun w => Some (c, w).

(** [try { body } catch (err) { handler }] *)
Definition try_catch {A} (body : M A) (handler : exn -> M A) : M A :=
  fun w =>
    match body w with
    | Some (Normal a, w') => Some (Normal a, w')
    | Some (Throw e, w') => handler e w'
    | None => None
    end.

(** [try { body } finally { cleanup }] for a cleanup that cannot throw: it
    runs on every completion of the body and leaves the completion as it
    is. *)
Definition try_finally {A} (body : M A) (cleanup : world -> world) : M A :=
  fun w =>
    match body w with
    | Some (c, w') => Some (c, cleanup w')
    | None => None
    end.

End Async.

Notation "'let*' x ':=' m 'in' k" := (Async.bind m (fun x => k))
  (at level 10, x name, m at level 100, k at level 200, only parsing).

(** ** The network *)

(** A [Response]: status line, declared content type
    ([res.headers.get("content-type")], [None] for [null]), the time its
    body needs to arrive ([None]: it never does) and what [res.json()] and
    [res.text()] settle with once it has. *)
Record response := {
  status : Z;
  statusText : string;
  content_type : option string;
  body_delay : option Z;
  json_result : exn + value;
  text_result : exn + string
}.

(** [res.ok] *)
Definition res_ok (r : response) : bool :=
  (200 <=? status r) && (status r <=? 299).

Inductive net_behaviour : Type :=
| NetRespond (delay : Z) (r : response)
| NetFail (delay : Z) (e : exn)
| NetHang.

(** The [{ ok, data }] / [{ ok, error }] objects, field by field: [None] is
    a property the object does not have. *)
Record outcome := {
  ok : bool;
  data : option value;
  error : option value
}.

Definition success (d : value) : outcome :=
  {| ok := true; data := Some d; error := None |}.

Definition failure (e : value) : outcome :=
  {| ok := false; data := None; error := Some e |}.

(** The second parameter of [httpGet] and the third of [httpPost]. *)
Record options := {
  timeout : option Z;
  opt_headers : option (gmap string value)
}.

Definition no_options : options := {| timeout := None; opt_headers := None |}.

Definition DEFAULT_TIMEOUT_MS : Z := 12000.

Section Transport.

(** What the network does with each request. *)
Variable net : request -> net_behaviour.

Definition net_delay (b : net_behaviour) : option Z :=
  match b with
  | NetRespond d _ | NetFail d _ => Some d
  | NetHang => None
  end.

(** [await fetch(url, init)] *)
Definition fetch (rq : request) : M response :=
  fun w =>
    match Timers.await (req_signal rq) (net_delay (net rq))
            (emit (EvFetch rq) w) with
    | Some (w', Some r) => Some (Throw r, w')
    | Some (w', None) =>
        match net rq with
        | NetRespond _ res => Some (Normal res, w')
        | NetFail _ e => Some (Throw e, w')
        | NetHang => None
        end
    | None => None
    end.

(** [await res.json()] and [await res.text()]; [sg] is the signal of the
    request, which also governs the body. *)
Definition res_json (sg : nat) (res : response) : M value :=
  fun w =>
    match Timers.await sg (body_delay res) (emit EvJson w) with
    | Some (w', Some r) => Some (Throw r, w')
    | Some (w', None) =>
        match json_result res with
        | inl e => Some (Throw e, w')
        | inr v => Some (Normal v, w')
        end
    | None => None
    end.

Definition res_text (sg : nat) (res : response) : M value :=
  fun w =>
    match Timers.await sg (body_delay res) (emit EvText w) with
    | Some (w', Some r) => Some (Throw r, w')
    | Some (w', None) =>
        match text_result res with
        | inl e => Some (Throw e, w')
        | inr s => Some (Normal (JStr s), w')
        end
    | None => None
    end.

(** [res.headers.get("content-type") || ""] *)
Definition contentType_of (res : response) : string :=
  default EmptyString (content_type res).

(** [{ ok: false, error: err.message || String(err) }] *)
Definition on_catch (err : exn) : M outcome :=
  let* error := Async.of_completion (JS.error_text err) in
  Async.ret (failure error).

(** The [try] block of [httpGet], lines 38-53. *)
Definition httpGet_try (path : string) (headers : gmap string value)
    (t : timeout_handle) : M outcome :=
  let* base := Async.read API_BASE in
  let* res := fetch {| url := base +:+ path;
                       method := "GET";
                       headers := headers ∪
                                  {[ "Accept" := JStr "application/json" ]};
                       body := None;
                       req_signal := h_signal t |} in
  let contentType := contentType_of res in
  let* data := if Str.includes "application/json" contentType
               then res_json (h_signal t) res
               else res_text (h_signal t) res in
  if negb (res_ok res) then
    Async.throw (ErrorObj "Error"
                   ("GET " +:+ path +:+ " -> " +:+ pretty (status res)
                    +:+ " " +:+ statusText res))
  else Async.ret (success data).

(** Lines 35-59. *)
Definition httpGet (path : string) (o : options) : M outcome :=
  let timeout := default DEFAULT_TIMEOUT_MS (timeout o) in
  let headers := default ∅ (opt_headers o) in
  let* t := Async.call (withTimeout timeout None) in
  Async.try_finally
    (Async.try_catch (httpGet_try path headers t) on_catch)
    (clear t).

(** The [try] block of [httpPost], lines 64-80. *)
Definition httpPost_try (path : string) (body : value)
    (headers : gmap string value) (t : timeout_handle) : M outcome :=
  let* base := Async.read API_BASE in
  let* res := fetch {| url := base +:+ path;
                       method := "POST";
                       headers := headers ∪
                                  {[ "Content-Type" := JStr "application/json";
                                     "Accept" := JStr "application/json" ]};
                       body := JS.stringify (JS.or_else body (JObj []));
                       req_signal := h_signal t |} in
  let contentType := contentType_of res in
  let* data := if Str.includes "application/json" contentType
               then res_json (h_signal t) res
               else res_text (h_signal t) res in
  if negb (res_ok res) then
    Async.throw (ErrorObj "Error"
                   ("POST " +:+ path +:+ " -> " +:+ pretty (status res)
                    +:+ " " +:+ statusText res))
  else Async.ret (success data).

(** Lines 61-86. *)
Definition httpPost (path : string) (body : value) (o : options) : M outcome :=
  let timeout := default DEFAULT_TIMEOUT_MS (timeout o) in
  let headers := default ∅ (opt_headers o) in
  let* t := Async.call (withTimeout timeout None) in
  Async.try_finally
    (Async.try_catch (httpPost_try path body headers t) on_catch)
    (clear t).

(** *** What the two have in common

    The two functions differ in the method, the default headers and the
    body of the request; [exchange] is their shared shape, used to prove
    facts about both at once. *)

Definition read_body (sg : nat) (res : response) : M value :=
  if Str.includes "application/json" (contentType_of res)
  then res_json sg res else res_text sg res.

Definition status_error (meth path : string) (res : response) : exn :=
  ErrorObj "Error"
    (meth +:+ " " +:+ path +:+ " -> " +:+ pretty (status res)
     +:+ " " +:+ statusText res).

Definition exchange_try (meth path : string) (hdrs : gmap string value)
    (payload : option string) (t : timeout_handle) : M outcome :=
  let* base := Async.read API_BASE in
  let* res := fetch {| url := base +:+ path; method := meth;
                       headers := hdrs; body := payload;
                       req_signal := h_signal t |} in
  let* data := read_body (h_signal t) res in
  if negb (res_ok res) then Async.throw (status_error meth path res)
  else Async.ret (success data).

Definition exchange (meth path : string) (hdrs : gmap string value)
    (payload : option string) (ms : Z) : M outcome :=
  let* t := Async.call (withTimeout ms None) in
  Async.try_finally
    (Async.try_catch (exchange_try meth path hdrs payload t) on_catch)
    (clear t).

End Transport.

(** ** Text helpers (lines 89-108) *)

Definition NO_COURSES : string := "No courses available at the moment.".
Definition NO_FAQS : string := "No FAQs available right now.".
Definition NO_ENROLLMENTS : string := "No recent enrollments.".

(** [c => c.summary || JSON.stringify(c)] *)
Definition course_line (c : value) : completion value :=
  let? summary := JS.get_prop c "summary" in
  Normal (JS.or_else summary (JS.JSON_stringify c)).

Definition coursesToText (data : value) : completion string :=
  if negb (JS.truthy data) then Normal NO_COURSES
  else
    let? courses := JS.get_prop data "courses" in
    match courses with
    | JArr cs =>
        let? lines := map_completion course_line cs in
        if negb (length lines =? 0)%nat then JS.join Str.nl lines
        else Normal NO_COURSES
    | _ => Normal NO_COURSES
    end.

(** [f => `${f.question}: ${f.answer}`]: each hole is converted as soon
    as it is evaluated. *)
Definition faq_line (f : value) : completion value :=
  let? question := JS.get_prop f "question" in
  let? q := JS.to_string question in
  let? answer := JS.get_prop f "answer" in
  let? a := JS.to_string answer in
  Normal (JStr (q +:+ ": " +:+ a)).

Definition faqsToText (data : value) : completion string :=
  match data with
  | JArr fs =>
      if (length fs =? 0)%nat then Normal NO_FAQS
      else
        let? lines := map_completion faq_line fs in
        JS.join Str.nl lines
  | _ => Normal NO_FAQS
  end.

(** [e => `${e.full_name} enrolled in ${e.program_code || "a course"} on
    ${e.created_at}`] *)
Definition enrollment_line (e : value) : completion value :=
  let? full_name := JS.get_prop e "full_name" in
  let? n := JS.to_string full_name in
  let? program_code := JS.get_prop e "program_code" in
  let? p := JS.to_string (JS.or_else program_code (JStr "a course")) in
  let? created_at := JS.get_prop e "created_at" in
  let? c := JS.to_string created_at in
  Normal (JStr (n +:+ " enrolled in " +:+ p +:+ " on " +:+ c)).

Definition enrollmentsToText (data : value) : completion string :=
  match data with
  | JArr es =>
      if (length es =? 0)%nat then Normal NO_ENROLLMENTS
      else
        let? lines := map_completion enrollment_line es in
        JS.join Str.nl lines
  | _ => Normal NO_ENROLLMENTS
  end.

(** ** [URLSearchParams] *)

Module URLSearchParams.

(** [q.set(name, value)]: the first pair of that name takes the value and
    the others go; a new name is appended. *)
Fixpoint set (name val : string) (q : list (string * string))
  : list (string * string) :=
  match q with
  | [] => [(name, val)]
  | (k, v) :: rest =>
      if String.eqb k name
      then (k, val) :: List.filter (fun p => negb (String.eqb (fst p) name)) rest
      else (k, v) :: set name val rest
  end.

Definition percent (n : nat) : string :=
  String "%"%char
    (String (Str.hex_digit true (n / 16))
       (String (Str.hex_digit true (n mod 16)) EmptyString)).

(** The urlencoded form of one byte. *)
Definition encode_byte (n : nat) : string :=
  if (n =? 32)%nat then "+"
  else if ((48 <=? n) && (n <=? 57) || (65 <=? n) && (n <=? 90)
           || (97 <=? n) && (n <=? 122)
           || (n =? 42) || (n =? 45) || (n =? 46) || (n =? 95))%nat
       then String (ascii_of_nat n) EmptyString
  else percent n.

(** A code unit below 128 is one UTF-8 byte, one from 128 to 255 is two. *)
Definition encode_char (c : ascii) : string :=
  let n := nat_of_ascii c in
  if (n <? 128)%nat then encode_byte n
  else percent (192 + n / 64) +:+ percent (128 + n mod 64).

Fixpoint encode (s : string) : string :=
  match s with
  | EmptyString => EmptyString
  | String c rest => encode_char c +:+ encode rest
  end.

(** [q.toString()] *)
Definition toString (q : list (string * string)) : string :=
  Str.join "&" (map (fun p => encode (fst p) +:+ "=" +:+ encode (snd p)) q).

End URLSearchParams.

Section Bridge.

Variable net : request -> net_behaviour.

(** ** Structured operations (lines 111-143) *)

Definition fetchCourses : M outcome :=
  let* res := httpGet net "/courses/summary/all" no_options in
  Async.ret (if ok res then res
             else failure (JStr "Live system is unreachable. Please try again later.")).

Definition fetchFaqs : M outcome :=
  let* res := httpGet net "/faqs" no_options in
  Async.ret (if ok res then res
             else failure (JStr "FAQs are not available right now.")).

(** [limit = 10]: the default stands in for an [undefined] argument only.
    The two conversions come before the call of [httpGet]: when one throws,
    the promise is rejected and nothing has been sent. *)
Definition fetchRecentEnrollments (limit source : value) : M outcome :=
  let limit := match limit with JUndefined => JNum 10 | _ => limit end in
  let* admin_key := Async.read ADMIN_KEY in
  let headers : gmap string value :=
    if JS.truthy admin_key then <[ "X-Admin-Key" := admin_key ]> ∅ else ∅ in
  let q : list (string * string) := [] in
  let* q := if JS.truthy limit
            then let* s := Async.of_completion (JS.to_string limit) in
                 Async.ret (URLSearchParams.set "limit" s q)
            else Async.ret q in
  let* q := if JS.truthy source
            then let* s := Async.of_completion (JS.to_string source) in
                 Async.ret (URLSearchParams.set "source" s q)
            else Async.ret q in
  let path := "/enrollments/recent" +:+
              (if negb (Str.is_empty (URLSearchParams.toString q))
               then "?" +:+ URLSearchParams.toString q else EmptyString) in
  let* res := httpGet net path {| timeout := None; opt_headers := Some headers |} in
  Async.ret (if ok res then res
             else failure (JStr "Unable to retrieve recent enrollments.")).

Definition createEnrollment (payload : value) : M outcome :=
  let* res := httpPost net "/enroll" payload no_options in
  Async.ret (if ok res then res
             else failure (JStr "Unable to create enrollment. Please try again.")).

Definition pingHealth : M outcome :=
  httpGet net "/health" no_options.

(** ** Readable text (lines 146-156) *)

(** [r.data] *)
Definition data_of (r : outcome) : value := default JUndefined (data r).

Definition fetchCoursesText : M string :=
  let* r := fetchCourses in
  if negb (ok r)
  then Async.ret "Sorry, my live system is unreachable. Please try again later."
  else Async.of_completion (coursesToText (data_of r)).

Definition fetchFaqsText : M string :=
  let* r := fetchFaqs in
  if negb (ok r)
  then Async.ret "Sorry, FAQs are not available right now."
  else Async.of_completion (faqsToText (data_of r)).

(** ** Router (lines 165-180) *)

Definition askBackend (utterance : value) : M outcome :=
  let* text := Async.of_completion
                 (JS.to_string (JS.or_else utterance (JStr EmptyString))) in
  let u := Str.toLowerCase text in
  if Str.includes "course" u then
    let* t := fetchCoursesText in
    Async.ret (success (JStr t))
  else if Str.includes "faq" u then
    let* t := fetchFaqsText in
    Async.ret (success (JStr t))
  else
    let* res := httpPost net "/chat" (JObj [("message", utterance)]) no_options in
    if negb (ok res) then Async.ret (failure (JStr "Chat service is unavailable."))
    else Async.ret res.

End Bridge.

(** ** Configuration (lines 185-187) *)

(** [(url) => { API_BASE = String(url || API_BASE); }]: when the
    conversion throws, the assignment does not take place. *)
Definition setApiBase (url : value) (w : world) : completion unit * world :=
  match JS.to_string (JS.or_else url (JStr (API_BASE w))) with
  | Normal s => (Normal tt, set_API_BASE s w)
  | Throw e => (Throw e, w)
  end.

Definition getApiBase (w : world) : string := API_BASE w.

Definition setAdminKey (key : value) (w : world) : world :=
  set_ADMIN_KEY (JS.or_else key JUndefined) w.

(** * Vocabulary of the statements *)

Local Open Scope list_scope.

(** Everything but the signals. *)
Definition same_frame (w w' : world) : Prop :=
  now w' = now w ∧ timers w' = timers w ∧ next_timer w' = next_timer w ∧
  API_BASE w' = API_BASE w ∧ ADMIN_KEY w' = ADMIN_KEY w ∧ log w' = log w ∧
  length (signals w') = length (signals w).

(** The state a signal takes when it is aborted. *)
Definition marked (r : exn) (st : signal_state) : signal_state :=
  {| aborted := true; reason := Abort.abort_reason r;
     listeners := List.filter (fun l => negb (once l)) (listeners st) |}.

(** An aborted signal whose reason is falsy can only have been aborted from
    outside: the callbacks always pass a truthy reason. *)
Definition reason_ok (w : world) (i : nat) : Prop :=
  Abort.is_aborted w i = true → JS.truthy_exn (Abort.signal_reason w i) = true.

(** How the world may change while the program waits: timers fire and
    signals get aborted, nothing else. *)
Record evolves (w w' : world) : Prop := {
  ev_log : log w' = log w;
  ev_base : API_BASE w' = API_BASE w;
  ev_key : ADMIN_KEY w' = ADMIN_KEY w;
  ev_next : next_timer w' = next_timer w;
  ev_len : length (signals w') = length (signals w);
  ev_timers : ∀ p, p ∈ timers w' → p ∈ timers w;
  ev_aborted : ∀ i, Abort.is_aborted w i = true → Abort.is_aborted w' i = true;
  ev_reason : ∀ i, reason_ok w i → reason_ok w' i
}.

(** The timer [withTimeout] started for controller [c] is still pending
    under the id it got, and no other timer has that id; or [c] is
    aborted. *)
Definition armed (id c : nat) (w : world) : Prop :=
  (c < length (signals w))%nat ∧
  (Abort.is_aborted w c = true ∨
   ∃ t, on_fire t = OnTimeout c ∧ (id, t) ∈ timers w ∧
        ∀ t', (id, t') ∈ timers w → t' = t).

(** The signal of a call is armed with the timer of the call, and was not
    aborted from outside. *)
Definition guarded (id c : nat) (w : world) : Prop :=
  armed id c w ∧ reason_ok w c.

(** Timer ids are handed out in order: a pending timer has an id below the
    next one. *)
Definition wf_world (w : world) : Prop :=
  forallb (fun p => (fst p <? next_timer w)%nat) (timers w) = true.

(** The world after [withTimeout(ms)], without an external signal. *)
Definition started (ms : Z) (w : world) : world :=
  emit (EvSetTimeout (next_timer w) ms)
    (set_next_timer (S (next_timer w))
       (set_timers
          (timers w ++ [(next_timer w,
                         {| deadline := now w + Timers.timer_delay ms;
                            on_fire := OnTimeout (length (signals w)) |})])
          (set_signals (signals w ++ [Abort.fresh_signal]) w))).

(** [settles m w Q]: run from [w], the promise of [m] settles, with a
    completion and in a world that satisfy [Q]. *)
Definition settles {A} (m : M A) (w : world)
    (Q : completion A → world → Prop) : Prop :=
  match m w with
  | Some (c, w') => Q c w'
  | None => False
  end.

Definition is_TypeError (e : exn) : Prop :=
  ∃ message, e = ErrorObj "TypeError" message.

(** A condition the [catch] clause can turn into an error text: its
    [message] can be read (it is neither [null] nor [undefined]) and, when
    the message is falsy, it has a string form. *)
Definition catchable (e : exn) : Prop :=
  ∃ error, JS.error_text e = Normal error.

(** What the [catch] clause makes of [e]: the failure outcome with its
    error text, or the throw of the clause itself. *)
Definition caught (e : exn) : completion outcome :=
  match JS.error_text e with
  | Normal error => Normal (failure error)
  | Throw e' => Throw e'
  end.

(** The platform rejects with conditions of that kind, as [fetch] and the
    body readers do: a [TypeError] for a network failure, a [SyntaxError]
    for a body that is not JSON. *)
Definition platform_rejections (net : request → net_behaviour) : Prop :=
  ∀ rq, match net rq with
        | NetFail _ e => catchable e
        | NetRespond _ res =>
            (∀ e, json_result res = inl e → catchable e) ∧
            (∀ e, text_result res = inl e → catchable e)
        | NetHang => True
        end.

(** The tag of an outcome object tells which of [data] and [error] it
    has. *)
Definition tagged (o : outcome) : Prop :=
  (ok o = true ∧ is_Some (data o) ∧ error o = None) ∨
  (ok o = false ∧ data o = None ∧ is_Some (error o)).

(** Exactly one arm of an outcome object is there: the data, or an error
    that is a text with something in it. *)
Definition one_arm (o : outcome) : Prop :=
  (ok o = true ∧ is_Some (data o) ∧ error o = None) ∨
  (ok o = false ∧ data o = None ∧
   ∃ message, error o = Some (JStr message) ∧ message ≠ EmptyString).



(** The body read a response calls for. *)
Definition read_event (res : response) : event :=
  if Str.includes "application/json" (contentType_of res) then EvJson else EvText.

(** What a stretch of the program leaves: the platform calls [evs] it made,
    the configuration and the timer counter as they were, no new timer. *)
Definition advances (w w' : world) (evs : list event) : Prop :=
  log w' = log w ++ evs ∧ API_BASE w' = API_BASE w ∧
  ADMIN_KEY w' = ADMIN_KEY w ∧ next_timer w' = next_timer w ∧
  ∀ p, p ∈ timers w' → p ∈ timers w.

Definition is_read (evs : list event) : Prop :=
  evs = [] ∨ evs = [EvJson] ∨ evs = [EvText].

(** The request [exchange] sends from world [w]. *)
Definition request_of (meth path : string) (hdrs : gmap string value)
    (payload : option string) (w : world) : request :=
  {| url := API_BASE w +:+ path; method := meth; headers := hdrs;
     body := payload; req_signal := length (signals w) |}.

(** ** Sample worlds, networks and responses *)

(** One external controller, number 0, not aborted. *)
Definition listening_world : world :=
  snd (Abort.new_AbortController initial_world).

(** The same, aborted before the call. *)
Definition cancelled_world : world :=
  Abort.abort 0 (ErrorObj "Error" "cancelled") listening_world.

(** A network that never answers. *)
Definition silent : request → net_behaviour := fun _ => NetHang.

Definition unreachable : request → net_behaviour :=
  fun _ => NetFail 10 (ErrorObj "TypeError" "Failed to fetch").

Definition probe (sg : nat) : request :=
  {| url := "https://bcm-demo.onrender.com/health"; method := "GET";
     headers := ∅; body := None; req_signal := sg |}.

Definition json_response (code : Z) (phrase : string) (v : value) : response :=
  {| status := code; statusText := phrase;
     content_type := Some "application/json";
     body_delay := Some 5;
     json_result := inr v;
     text_result := inr EmptyString |}.

Definition answers (res : response) : request → net_behaviour :=
  fun _ => NetRespond 20 res.

(** A 502 that declares JSON and carries none. *)
Definition bad_gateway : response :=
  {| status := 502; statusText := "Bad Gateway";
     content_type := Some "application/json";
     body_delay := Some 0;
     json_result := inl (ErrorObj "SyntaxError" "Unexpected end of JSON input");
     text_result := inr EmptyString |}.

(** ** Release of the timer *)

(** Between [w] and [w'] the timer the call started was cleared: the call's
    platform calls begin with its [setTimeout] and end with the one
    [clearTimeout] among them, on the same id, and the timer is not pending
    any more. *)
Definition released (w w' : world) : Prop :=
  ∃ ms mid,
    log w' = log w ++ EvSetTimeout (next_timer w) ms :: mid
                   ++ [EvClearTimeout (next_timer w)] ∧
    (∀ id, EvClearTimeout id ∉ mid) ∧
    Timers.pending w' (next_timer w) = false.

(** ** Observing the requests *)

(** The platform calls made between two worlds, and the requests among
    them. *)
Definition new_events (w w' : world) : list event :=
  drop (length (log w)) (log w').

Definition requests (evs : list event) : list request :=
  omap (fun e => match e with EvFetch r => Some r | _ => None end) evs.

Definition sent (w w' : world) : list request := requests (new_events w w').

(** What a settled operation gave its caller, when that is an outcome. *)
Definition returned_tagged (c : completion outcome) : Prop :=
  match c with
  | Normal o => tagged o
  | Throw _ => True
  end.

Definition returned_one_arm (c : completion outcome) : Prop :=
  match c with
  | Normal o => one_arm o
  | Throw _ => True
  end.

(** What an operation leaves of the world for the next one: timer ids in
    order and the configuration as it was. *)
Definition stable (w w' : world) : Prop :=
  wf_world w' ∧ API_BASE w' = API_BASE w ∧ ADMIN_KEY w' = ADMIN_KEY w.

(** ** Recent enrollments *)

(** The admin key is [undefined] or truthy: what [setAdminKey] leaves. *)
Definition config_ok (w : world) : Prop :=
  ADMIN_KEY w = JUndefined ∨ JS.truthy (ADMIN_KEY w) = true.

(** The value of the parameter [limit = 10]. *)
Definition effective_limit (limit : value) : value :=
  match limit with
  | JUndefined => JNum 10
  | _ => limit
  end.

(** The pair a truthy argument contributes to the query, when it has a
    string form. *)
Definition query_entry (name : string) (arg : value)
  : completion (list (string * string)) :=
  if JS.truthy arg
  then match JS.to_string arg with
       | Normal s => Normal [(name, s)]
       | Throw e => Throw e
       end
  else Normal [].

(** The pairs in the [URLSearchParams] when the path is built, or the
    throw of the first conversion that fails. *)
Definition query_entries (limit source : value)
  : completion (list (string * string)) :=
  match query_entry "limit" (effective_limit limit) with
  | Normal l =>
      match query_entry "source" source with
      | Normal s => Normal (l ++ s)
      | Throw e => Throw e
      end
  | Throw e => Throw e
  end.

Definition query_suffix (q : list (string * string)) : string :=
  match q with
  | [] => EmptyString
  | _ => "?" +:+ URLSearchParams.toString q
  end.

(** The headers [fetchRecentEnrollments] passes on. *)
Definition recent_headers (w : world) : gmap string value :=
  if JS.truthy (ADMIN_KEY w) then <[ "X-Admin-Key" := ADMIN_KEY w ]> ∅ else ∅.

(** ** Courses *)

(** The array under [courses], for an input that has one. *)
Definition course_list (data : value) : option (list value) :=
  match data with
  | JObj props =>
      match JS.assoc "courses" props with
      | Some (JArr cs) => Some cs
      | _ => None
      end
  | _ => None
  end.

(** The [summary] of a course that is not [null], [undefined] when it has
    none. *)
Definition summary_of (c : value) : value :=
  match c with
  | JObj props => default JUndefined (JS.assoc "summary" props)
  | _ => JUndefined
  end.

(** The line of a course: its summary when that is truthy, its JSON text
    otherwise. *)
Definition course_text (c : value) : value :=
  JS.or_else (summary_of c) (JS.JSON_stringify c).

(** A value that has a string form, and that form. *)
Definition printable (v : value) : bool :=
  match JS.to_string v with Normal _ => true | Throw _ => false end.

Definition text (v : value) : string :=
  match JS.to_string v with Normal s => s | Throw _ => EmptyString end.

(** An object whose own [toString] is not a function: it has no string
    form. *)
Definition stubborn : value := JObj [("toString", JNum 1)].

Definition two_courses : value :=
  JObj [("courses", JArr [JObj [("summary", JStr "A")];
                          JObj [("summary", JStr "B")]])].

Definition not_found : response :=
  json_response 404 "Not Found" (JObj [("detail", JStr "Not Found")]).

(** * Vocabulary of the statements, continued *)

(** The value under [name] in a value that is not [null] or [undefined]. *)
Definition field (v : value) (name : string) : value :=
  match v with
  | JObj props => default JUndefined (JS.assoc name props)
  | _ => JUndefined
  end.

(** The lines of the three formatters, for an entry they can print. *)
Definition faq_text (f : value) : string :=
  text (field f "question") +:+ ": " +:+ text (field f "answer").

Definition enrollment_text (e : value) : string :=
  text (field e "full_name") +:+ " enrolled in " +:+
  text (JS.or_else (field e "program_code") (JStr "a course")) +:+
  " on " +:+ text (field e "created_at").

(** The entries the formatters can print: not [null] or [undefined], and
    what goes into the line has a string form. *)
Definition course_ok (c : value) : bool :=
  negb (JS.is_nullish c) && printable (course_text c).

Definition faq_ok (f : value) : bool :=
  negb (JS.is_nullish f) && printable (field f "question")
  && printable (field f "answer").

Definition enrollment_ok (e : value) : bool :=
  negb (JS.is_nullish e) && printable (field e "full_name")
  && printable (JS.or_else (field e "program_code") (JStr "a course"))
  && printable (field e "created_at").

(** What a structured operation makes of the completion of its transport
    call: a failure outcome gives way to the operation's own message. *)
Definition substituted (msg : string) (c : completion outcome)
  : completion outcome :=
  match c with
  | Normal res => Normal (if ok res then res else failure (JStr msg))
  | Throw e => Throw e
  end.

(** A returned failure carries [msg] and nothing else. *)
Definition fails_with (msg : string) (c : completion outcome) : Prop :=
  match c with
  | Normal o => ok o = true ∨ o = failure (JStr msg)
  | Throw _ => True
  end.

Definition throws_TypeError_only {A} (c : completion A) : Prop :=
  match c with
  | Normal _ => True
  | Throw e => is_TypeError e
  end.

(** The headers of a request: those of the caller, and the defaults for
    the names the caller left out. *)
Definition merged_header (given defaults : gmap string value) (k : string)
  : option value :=
  match given !! k with
  | Some v => Some v
  | None => defaults !! k
  end.

(** The characters the urlencoded form is made of. *)
Definition url_safe (c : ascii) : bool :=
  let n := nat_of_ascii c in
  ((48 <=? n) && (n <=? 57) || (65 <=? n) && (n <=? 90)
   || (97 <=? n) && (n <=? 122)
   || (n =? 42) || (n =? 45) || (n =? 46) || (n =? 95)
   || (n =? 43) || (n =? 37))%nat.

Fixpoint all_chars (p : ascii → bool) (s : string) : bool :=
  match s with
  | EmptyString => true
  | String c rest => p c && all_chars p rest
  end.

(** The requests between two worlds go to [base]. *)
Definition requests_base (base : string) (w w' : world) : Prop :=
  ∀ rq, rq ∈ sent w w' → ∃ path, url rq = base +:+ path.

(** One request went out between two worlds, and it went to [base]. *)
Definition one_request_to (base : string) (w w' : world) : Prop :=
  ∃ rq path, sent w w' = [rq] ∧ url rq = base +:+ path.

(** The base URL after [setApiBase(address)]. *)
Definition base_after (address : value) (w : world) : string :=
  if JS.truthy address && printable address then text address else API_BASE w.

(** The arguments of [fetchRecentEnrollments] and of [askBackend] that
    the operation can convert. *)
Definition query_ok (limit source : value) : bool :=
  match query_entries limit source with Normal _ => true | Throw _ => false end.

Definition utterance_ok (utterance : value) : bool :=
  printable (JS.or_else utterance (JStr EmptyString)).

(** One request went out, and the world is ready for the next call. *)
Definition leaves (rq : request) (w w' : world) : Prop :=
  sent w w' = [rq] ∧ stable w w'.

(** ** Who can abort a signal *)

(** The controller a callback aborts. *)
Definition target (cb : callback) : nat :=
  match cb with
  | OnTimeout ctrl => ctrl
  | OnAbort combined _ => combined
  end.

(** The callbacks the world holds, in timers and in listeners, abort
    controllers that exist.  It is so in the initial world and stays so:
    the program registers a callback for a controller it has just made. *)
Definition closed_world (w : world) : Prop :=
  forallb (fun p => (target (on_fire (snd p)) <? length (signals w))%nat)
    (timers w)
  && forallb (fun st =>
       forallb (fun l => (target (handler l) <? length (signals w))%nat)
         (listeners st))
       (signals w)
  = true.

(** A listener that would abort [c] sits on a signal that is aborted
    already, so it will not run. *)
Definition quiet (c : nat) (w : world) : Prop :=
  ∀ i st l, signals w !! i = Some st → l ∈ listeners st →
            target (handler l) = c → aborted st = true.

(** The timer [(id, t)] is pending, under an id of its own. *)
Definition pending_timer (id : nat) (t : timer) (w : world) : Prop :=
  (id, t) ∈ timers w ∧ ∀ t', (id, t') ∈ timers w → t' = t.

(** Controller [c] is live and only the timer [id] of its call can abort
    it. *)
Record owned (id c : nat) (t : timer) (w : world) : Prop := {
  own_exists : (c < length (signals w))%nat;
  own_live : Abort.is_aborted w c = false;
  own_quiet : quiet c w;
  own_timer : pending_timer id t w;
  own_fire : on_fire t = OnTimeout c;
  own_sole : ∀ p, p ∈ timers w → target (on_fire (snd p)) = c → fst p = id
}.

(** ** What the network makes of a call *)

(** The body of a response as the transport reads it. *)
Definition body_value (res : response) : exn + value :=
  if Str.includes "application/json" (contentType_of res)
  then json_result res
  else match text_result res with
       | inl e => inl e
       | inr s => inr (JStr s)
       end.

(** What the transport returns when the network is done in time. *)
Definition reply (meth path : string) (b : net_behaviour)
  : completion outcome :=
  match b with
  | NetRespond _ res =>
      match body_value res with
      | inr v =>
          Normal (if res_ok res then success v
                  else failure (JStr (meth +:+ " " +:+ path +:+ " -> " +:+
                                      pretty (status res) +:+ " " +:+
                                      statusText res)))
      | inl e => caught e
      end
  | NetFail _ e => caught e
  | NetHang => caught (ErrorObj "Error" "Timeout")
  end.

(** The time the network needs for the answer and its body, when it
    delivers both. *)
Definition answer_time (b : net_behaviour) : option Z :=
  match b with
  | NetRespond d res => (fun bd => Z.max 0 d + Z.max 0 bd) <$> body_delay res
  | NetFail d _ => Some (Z.max 0 d)
  | NetHang => None
  end.

(** The network is done before the timer of a call of [ms] fires. *)
Definition timely (ms : Z) (b : net_behaviour) : Prop :=
  match answer_time b with
  | Some a => a < Timers.timer_delay ms
  | None => False
  end.

Definition late (ms : Z) (b : net_behaviour) : Prop :=
  match answer_time b with
  | Some a => Timers.timer_delay ms <= a
  | None => True
  end.

Definition TIMED_OUT : outcome := failure (JStr "Timeout").

(** No listener was added between two worlds: the listeners of a signal of
    [w'] were on that signal in [w]. *)
Definition shrinks (w w' : world) : Prop :=
  ∀ i st', signals w' !! i = Some st' →
           ∃ st, signals w !! i = Some st ∧
                 ∀ l, l ∈ listeners st' → l ∈ listeners st.

(** What a call leaves behind: the order of the world, no timer that was
    not pending before, one more controller for each request it sent. *)
Definition tidy (w w' : world) : Prop :=
  wf_world w' ∧ closed_world w' ∧
  (∀ p, p ∈ timers w' → p ∈ timers w) ∧
  length (signals w') = (length (signals w) + length (sent w w'))%nat.

(** ** Induction on values

    The principle that reaches into arrays and objects. *)

Section ValueInduction.

Variable P : value → Prop.
Hypothesis on_undefined : P JUndefined.
Hypothesis on_null : P JNull.
Hypothesis on_bool : ∀ b, P (JBool b).
Hypothesis on_num : ∀ n, P (JNum n).
Hypothesis on_str : ∀ s, P (JStr s).
Hypothesis on_arr : ∀ xs, Forall P xs → P (JArr xs).
Hypothesis on_obj : ∀ props, Forall (fun p => P (snd p)) props → P (JObj props).

Fixpoint value_ind_nested (v : value) : P v :=
  match v with
  | JUndefined => on_undefined
  | JNull => on_null
  | JBool b => on_bool b
  | JNum n => on_num n
  | JStr s => on_str s
  | JArr xs =>
      on_arr xs
        ((fix all (xs : list value) : Forall P xs :=
            match xs return Forall P xs with
            | [] => @List.Forall_nil _ P
            | x :: rest =>
                @List.Forall_cons _ P x rest (value_ind_nested x) (all rest)
            end) xs)
  | JObj props =>
      on_obj props
        ((fix all (ps : list (string * value))
            : Forall (fun p => P (snd p)) ps :=
            match ps return Forall (fun p => P (snd p)) ps with
            | [] => @List.Forall_nil _ (fun p => P (snd p))
            | p :: rest =>
                @List.Forall_cons _ (fun p => P (snd p)) p rest
                  (value_ind_nested (snd p)) (all rest)
            end) props)
  end.

End ValueInduction.

(** * Facts about the world *)

Lemma same_frame_refl w : same_frame w w.
Proof. repeat split. Qed.

Lemma same_frame_trans w1 w2 w3 :
  same_frame w1 w2 → same_frame w2 w3 → same_frame w1 w3.
Proof. unfold same_frame. intuition congruence. Qed.

Lemma fold_left_preserves {A B} (P : A → Prop) (f : A → B → A) (l : list B) :
  (∀ a x, P a → P (f a x)) → ∀ a, P a → P (fold_left f l a).
Proof.
  intros Hf. induction l as [|x l IH]; simpl; intros a Ha; [done|].
  apply IH, Hf, Ha.
Qed.

Module AbortFacts.
Import Abort.

Lemma callback_reason_truthy cb w :
  JS.truthy_exn (snd (callback_call cb w)) = true.
Proof.
  destruct cb as [c|c s]; simpl; [done|].
  destruct (JS.truthy_exn (signal_reason w s)) eqn:E; [exact E|done].
Qed.

Lemma signal_abort_S fuel c r w :
  signal_abort (S fuel) c r w =
  match signals w !! c with
  | Some st =>
      if aborted st then w
      else fold_left
             (fun acc l =>
                signal_abort fuel (fst (callback_call (handler l) acc))
                  (snd (callback_call (handler l) acc)) acc)
             (listeners st)
             (set_signals (<[c := marked r st]> (signals w)) w)
  | None => w
  end.
Proof. reflexivity. Qed.

(** Whatever marking one live signal preserves, for reasons in [Q], an
    abort preserves, with all the aborts its listeners trigger. *)
Lemma signal_abort_preserves (P : world → Prop) (Q : exn → Prop) :
  (∀ cb w, Q (snd (callback_call cb w))) →
  (∀ w c st r, signals w !! c = Some st → aborted st = false → Q r →
     P w → P (set_signals (<[c := marked r st]> (signals w)) w)) →
  ∀ fuel c r w, Q r → P w → P (signal_abort fuel c r w).
Proof.
  intros HQ Hmark. induction fuel as [|fuel IH]; intros c r w Hr Hw; [done|].
  rewrite signal_abort_S. destruct (signals w !! c) as [st|] eqn:Hc; [|done].
  destruct (aborted st) eqn:Hab; [done|].
  apply fold_left_preserves.
  - intros acc l Hacc. apply IH; [apply HQ|exact Hacc].
  - by apply (Hmark w c st r).
Qed.

Lemma abort_preserves (P : world → Prop) (Q : exn → Prop) :
  (∀ cb w, Q (snd (callback_call cb w))) →
  (∀ w c st r, signals w !! c = Some st → aborted st = false → Q r →
     P w → P (set_signals (<[c := marked r st]> (signals w)) w)) →
  ∀ c r w, Q r → P w → P (abort c r w).
Proof. intros HQ Hm c r w. apply (signal_abort_preserves P Q); assumption. Qed.

Lemma run_callback_preserves (P : world → Prop) (Q : exn → Prop) :
  (∀ cb w, Q (snd (callback_call cb w))) →
  (∀ w c st r, signals w !! c = Some st → aborted st = false → Q r →
     P w → P (set_signals (<[c := marked r st]> (signals w)) w)) →
  ∀ cb w, P w → P (run_callback cb w).
Proof. intros HQ Hm cb w. apply (abort_preserves P Q); [assumption..|apply HQ]. Qed.

Lemma run_callback_frame cb w : same_frame w (run_callback cb w).
Proof.
  apply (run_callback_preserves (same_frame w) (fun _ => True)); [done| |].
  - intros w' c st r Hc _ _ (?&?&?&?&?&?&Hlen). repeat split; try done.
    simpl. rewrite length_insert. exact Hlen.
  - apply same_frame_refl.
Qed.

Lemma is_aborted_marked w c st r i :
  signals w !! c = Some st →
  is_aborted (set_signals (<[c := marked r st]> (signals w)) w) i
  = if decide (i = c) then true else is_aborted w i.
Proof.
  intros Hc. unfold is_aborted. simpl.
  destruct (decide (i = c)) as [->|Hne].
  - rewrite list_lookup_insert_eq; [done|]. by eapply lookup_lt_Some.
  - by rewrite list_lookup_insert_ne.
Qed.

Lemma run_callback_mono cb w i :
  is_aborted w i = true → is_aborted (run_callback cb w) i = true.
Proof.
  apply (run_callback_preserves (fun w => is_aborted w i = true) (fun _ => True)); [done|].
  intros w' c st r Hc _ _ Hi. rewrite is_aborted_marked by done.
  by destruct (decide (i = c)).
Qed.

Lemma abort_reason_truthy r : JS.truthy_exn r = true → abort_reason r = r.
Proof. destruct r as [|[]]; done. Qed.

Lemma run_callback_reason_ok cb w i :
  reason_ok w i → reason_ok (run_callback cb w) i.
Proof.
  apply (run_callback_preserves (fun w => reason_ok w i)
           (fun r => JS.truthy_exn r = true)); [apply callback_reason_truthy|].
  intros w' c st r Hc Hlive Hr Hi. unfold reason_ok.
  rewrite is_aborted_marked by done. unfold signal_reason. simpl.
  destruct (decide (i = c)) as [->|Hne].
  - rewrite list_lookup_insert_eq by (by eapply lookup_lt_Some). simpl.
    by rewrite abort_reason_truthy.
  - rewrite list_lookup_insert_ne by done. exact Hi.
Qed.

Lemma signal_abort_length fuel c r w :
  length (signals (signal_abort fuel c r w)) = length (signals w).
Proof.
  apply (signal_abort_preserves
           (fun w' => length (signals w') = length (signals w)) (fun _ => True));
    [done| |done|done].
  intros w' c' st r' _ _ _ Hlen. simpl. by rewrite length_insert.
Qed.

Lemma signal_abort_mono fuel c r w i :
  is_aborted w i = true → is_aborted (signal_abort fuel c r w) i = true.
Proof.
  apply (signal_abort_preserves (fun w => is_aborted w i = true) (fun _ => True));
    [done| |done].
  intros w' c' st r' Hc _ _ Hi. rewrite is_aborted_marked by done.
  by destruct (decide (i = c')).
Qed.

(** With any fuel at all, aborting a controller that exists leaves it
    aborted. *)
Lemma signal_abort_aborts fuel c r w :
  (c < length (signals w))%nat →
  is_aborted (signal_abort (S fuel) c r w) c = true.
Proof.
  intros Hlt. rewrite signal_abort_S.
  destruct (lookup_lt_is_Some_2 _ _ Hlt) as [st Hc]. rewrite Hc.
  destruct (aborted st) eqn:Hab.
  - unfold is_aborted. by rewrite Hc.
  - apply fold_left_preserves.
    + intros acc l Hacc. by apply signal_abort_mono.
    + rewrite is_aborted_marked by done. by rewrite decide_True.
Qed.

(** A callback that aborts [c] leaves [c] aborted. *)
Lemma run_callback_aborts cb w :
  (fst (callback_call cb w) < length (signals w))%nat →
  is_aborted (run_callback cb w) (fst (callback_call cb w)) = true.
Proof. apply signal_abort_aborts. Qed.

Lemma live_positive w c :
  (c < length (signals w))%nat → is_aborted w c = false → (0 < live w)%nat.
Proof.
  intros Hlt Hlive. destruct (lookup_lt_is_Some_2 _ _ Hlt) as [st Hc].
  unfold is_aborted in Hlive. rewrite Hc in Hlive.
  assert (Hin : In st (List.filter (fun s => negb (aborted s)) (signals w))).
  { apply filter_In. split; [|by rewrite Hlive].
    apply list_elem_of_In. by eapply list_elem_of_lookup_2. }
  unfold live. destruct (List.filter _ _); [done|simpl; lia].
Qed.

End AbortFacts.

Module FuelFacts.
Import Abort AbortFacts.

Lemma live_insert_marked (ss : list signal_state) c st r :
  ss !! c = Some st → aborted st = false →
  S (length (List.filter (fun s => negb (aborted s)) (<[c := marked r st]> ss)))
  = length (List.filter (fun s => negb (aborted s)) ss).
Proof.
  revert c. induction ss as [|s ss IH]; intros [|c] Hc Hlive; simpl in *; try done.
  - injection Hc as ->. by rewrite Hlive.
  - destruct (negb (aborted s)); simpl; by rewrite <- (IH c).
Qed.

Lemma live_marked w c st r :
  signals w !! c = Some st → aborted st = false →
  S (live (set_signals (<[c := marked r st]> (signals w)) w)) = live w.
Proof. apply live_insert_marked. Qed.

Lemma signal_abort_live fuel c r w :
  (live (signal_abort fuel c r w) ≤ live w)%nat.
Proof.
  apply (signal_abort_preserves (fun w' => (live w' ≤ live w)%nat) (fun _ => True));
    [done| |done|done].
  intros w' c' st r' Hc Hl _ Hle. pose proof (live_marked w' c' st r' Hc Hl). lia.
Qed.

(** More fuel than live signals is as good as any larger amount: the fuel
    [abort] passes never runs out. *)
Lemma signal_abort_fuel n : ∀ m c r w,
  (live w < n)%nat → (live w < m)%nat →
  signal_abort n c r w = signal_abort m c r w.
Proof.
  induction n as [|n IH]; intros [|m] c r w Hn Hm; try lia.
  rewrite !signal_abort_S.
  destruct (signals w !! c) as [st|] eqn:Hc; [|done].
  destruct (aborted st) eqn:Hab; [done|].
  pose proof (live_marked w c st r Hc Hab) as Hlive.
  set (w1 := set_signals (<[c := marked r st]> (signals w)) w) in *.
  assert (Hw1 : (live w1 < n ∧ live w1 < m)%nat) by lia.
  clearbody w1. clear Hlive Hc. revert w1 Hw1.
  induction (listeners st) as [|l ls IHl]; intros acc [Hacc1 Hacc2]; simpl; [done|].
  rewrite (IH m) by done. apply IHl.
  pose proof (signal_abort_live m (fst (callback_call (handler l) acc))
                (snd (callback_call (handler l) acc)) acc). lia.
Qed.

End FuelFacts.

(** ** Timers *)

Module TimerFacts.
Import Abort AbortFacts Timers.

Lemma earliest_Some ts p :
  earliest ts = Some p →
  p ∈ ts ∧ Forall (fun q => deadline (snd p) <= deadline (snd q)) ts.
Proof.
  revert p. induction ts as [|x ts IH]; intros p; simpl; [done|].
  destruct (earliest ts) as [q|] eqn:E.
  - destruct (IH q eq_refl) as [Hin Hall].
    destruct (deadline (snd x) <=? deadline (snd q)) eqn:Hle; intros [= <-].
    + apply Z.leb_le in Hle. split; [left|]. constructor; [lia|].
      eapply Forall_impl; [exact Hall|]. simpl. intros; lia.
    + apply Z.leb_gt in Hle. split; [by right|]. constructor; [lia|done].
  - intros [= <-]. split; [left|]. destruct ts; [|simpl in E; by destruct (earliest ts), Z.leb].
    by repeat constructor.
Qed.

Lemma earliest_None ts : earliest ts = None → ts = [].
Proof.
  destruct ts as [|x ts]; [done|]. simpl.
  by destruct (earliest ts); [destruct (_ <=? _)|].
Qed.

Lemma next_due_Some limit w p :
  next_due limit w = Some p → p ∈ timers w ∧ due limit (snd p) = true.
Proof.
  unfold next_due. destruct (earliest (timers w)) as [q|] eqn:E; [|done].
  destruct (due limit (snd q)) eqn:Hd; [|done]. intros [= <-].
  split; [by apply earliest_Some|done].
Qed.

Lemma next_due_hang w : timers w ≠ [] → is_Some (next_due None w).
Proof.
  intros Hne. unfold next_due.
  destruct (earliest (timers w)) as [q|] eqn:E; [by eexists|].
  by apply earliest_None in E.
Qed.

Lemma elem_of_remove id ts p :
  p ∈ remove id ts ↔ p ∈ ts ∧ fst p ≠ id.
Proof.
  unfold remove. rewrite !list_elem_of_In, filter_In, negb_true_iff, Nat.eqb_neq.
  done.
Qed.

Lemma remove_length_lt id ts t :
  (id, t) ∈ ts → (length (remove id ts) < length ts)%nat.
Proof.
  induction ts as [|x ts IH]; intros Hin; [by apply elem_of_nil in Hin|].
  apply elem_of_cons in Hin as [<-|Hin]; simpl.
  - rewrite Nat.eqb_refl. simpl.
    pose proof (List.filter_length_le (fun p => negb (fst p =? id)%nat) ts).
    unfold remove. lia.
  - specialize (IH Hin). destruct (negb _); simpl; unfold remove in *; lia.
Qed.

Lemma evolves_refl w : evolves w w.
Proof. by constructor. Qed.

Lemma evolves_trans w1 w2 w3 : evolves w1 w2 → evolves w2 w3 → evolves w1 w3.
Proof.
  intros [] []. constructor; try congruence; auto.
Qed.

Lemma evolves_set_now t w : evolves w (set_now t w).
Proof. by constructor. Qed.

Lemma fire_timers p w : timers (fire p w) = remove (fst p) (timers w).
Proof.
  unfold fire. by destruct (run_callback_frame (on_fire (snd p))
    (set_now (Z.max (now w) (deadline (snd p)))
       (set_timers (remove (fst p) (timers w)) w))) as (?&->&?).
Qed.

Lemma fire_evolves p w : evolves w (fire p w).
Proof.
  unfold fire.
  set (w1 := set_now _ _).
  destruct (run_callback_frame (on_fire (snd p)) w1) as (?&Ht&?&?&?&?&?).
  constructor; try done.
  - intros q. rewrite Ht. simpl. rewrite elem_of_remove. tauto.
  - intros i Hi. by apply run_callback_mono.
  - intros i Hi. by apply run_callback_reason_ok.
Qed.

Lemma run_timers_evolves fuel : ∀ limit sg w,
  evolves w (fst (run_timers fuel limit sg w)).
Proof.
  induction fuel as [|fuel IH]; intros limit sg w; simpl; [apply evolves_refl|].
  destruct (next_due limit w) as [p|]; [|apply evolves_refl].
  destruct (is_aborted (fire p w) sg); simpl; [apply fire_evolves|].
  eapply evolves_trans; [apply fire_evolves|apply IH].
Qed.

Lemma run_timers_true fuel : ∀ limit sg w,
  snd (run_timers fuel limit sg w) = true →
  is_aborted (fst (run_timers fuel limit sg w)) sg = true.
Proof.
  induction fuel as [|fuel IH]; intros limit sg w; simpl; [done|].
  destruct (next_due limit w) as [p|]; [|done].
  destruct (is_aborted (fire p w) sg) eqn:E; simpl; [done|apply IH].
Qed.

(** With one unit of fuel per pending timer the loop only stops when no
    timer is due any more (or the signal is aborted). *)
Lemma run_timers_exhaustive fuel : ∀ limit sg w,
  (length (timers w) ≤ fuel)%nat →
  snd (run_timers fuel limit sg w) = false →
  next_due limit (fst (run_timers fuel limit sg w)) = None.
Proof.
  induction fuel as [|fuel IH]; intros limit sg w Hlen; simpl.
  - intros _. unfold next_due. destruct (timers w); [done|simpl in Hlen; lia].
  - destruct (next_due limit w) as [p|] eqn:Hp; [|done].
    destruct (is_aborted (fire p w) sg) eqn:E; simpl; [done|].
    apply IH. rewrite fire_timers.
    apply next_due_Some in Hp as [Hin _]. destruct p as [id t].
    pose proof (remove_length_lt id _ t Hin). simpl. lia.
Qed.

Lemma fire_armed id c p w : p ∈ timers w → armed id c w → armed id c (fire p w).
Proof.
  intros Hp [Hlt Harm]. pose proof (fire_evolves p w) as Hev.
  split; [by rewrite (ev_len _ _ Hev)|].
  destruct Harm as [Hab|(t & Hcb & Hin & Huniq)]; [left; by apply (ev_aborted _ _ Hev)|].
  destruct p as [id' t']. destruct (decide (id' = id)) as [->|Hne].
  - left. rewrite (Huniq t' Hp). unfold fire. simpl. rewrite Hcb.
    set (w1 := set_now _ _).
    apply (run_callback_aborts (OnTimeout c) w1). simpl. exact Hlt.
  - right. exists t. rewrite fire_timers. simpl. split; [done|]. split.
    + apply elem_of_remove. simpl. split; [done|congruence].
    + intros t'' Hin''. apply elem_of_remove in Hin'' as [? _]. by apply Huniq.
Qed.

Lemma run_timers_armed id c fuel : ∀ limit sg w,
  armed id c w → armed id c (fst (run_timers fuel limit sg w)).
Proof.
  induction fuel as [|fuel IH]; intros limit sg w Harm; simpl; [done|].
  destruct (next_due limit w) as [p|] eqn:Hp; [|done].
  apply next_due_Some in Hp as [Hin _].
  destruct (is_aborted (fire p w) sg); simpl; [by apply fire_armed|].
  apply IH. by apply fire_armed.
Qed.

(** Without a limit the loop ends with the signal aborted: the timer that
    aborts it comes up sooner or later. *)
Lemma run_timers_hang id c fuel : ∀ w,
  armed id c w → (length (timers w) ≤ fuel)%nat →
  is_aborted w c = false →
  snd (run_timers fuel None c w) = true.
Proof.
  induction fuel as [|fuel IH]; intros w Harm Hlen Hlive.
  - destruct Harm as [_ [Hab|(t & _ & Hin & _)]]; [congruence|].
    destruct (timers w); [by apply elem_of_nil in Hin|simpl in Hlen; lia].
  - simpl. destruct (next_due None w) as [p|] eqn:Hp.
    + pose proof Hp as Hp'. apply next_due_Some in Hp' as [Hin _].
      destruct (is_aborted (fire p w) c) eqn:E; simpl; [done|].
      apply IH; [by apply fire_armed| |done].
      rewrite fire_timers. destruct p as [id' t'].
      pose proof (remove_length_lt id' _ t' Hin). simpl. lia.
    + destruct Harm as [_ [Hab|(t & _ & Hin & _)]]; [congruence|].
      destruct (next_due_hang w) as [q Hq]; [|congruence].
      intros Hnil. rewrite Hnil in Hin. by apply elem_of_nil in Hin.
Qed.

(** What [await] can do, for a signal armed with a timer: it settles. *)
Lemma await_armed id c delay w :
  armed id c w →
  ∃ w' o, await c delay w = Some (w', o) ∧ evolves w w' ∧ armed id c w' ∧
          match o with
          | Some r => is_aborted w' c = true ∧ r = signal_reason w' c
          | None => is_Some delay
          end.
Proof.
  intros Harm. unfold await.
  destruct (is_aborted w c) eqn:Hab.
  - exists w, (Some (signal_reason w c)). split; [done|].
    split; [apply evolves_refl|]. done.
  - set (limit := (fun d => now w + Z.max 0 d) <$> delay).
    pose proof (run_timers_evolves (length (timers w)) limit c w) as Hev.
    pose proof (run_timers_armed id c (length (timers w)) limit c w Harm) as Harm'.
    pose proof (run_timers_true (length (timers w)) limit c w) as Htrue.
    destruct (run_timers (length (timers w)) limit c w) as [w' b] eqn:Hrun.
    simpl in *. destruct b.
    + exists w', (Some (signal_reason w' c)).
      split; [done|]. split; [done|]. split; [done|]. split; [by apply Htrue|done].
    + destruct delay as [d|]; simpl in *.
      * eexists _, None. split; [done|]. split; [|split; [|by eexists]].
        -- eapply evolves_trans; [exact Hev|apply evolves_set_now].
        -- exact Harm'.
      * pose proof (run_timers_hang id c (length (timers w)) w Harm (le_n _) Hab) as Hh.
        subst limit. simpl in Hrun. rewrite Hrun in Hh. done.
Qed.

End TimerFacts.

Lemma wf_world_spec w :
  wf_world w ↔ ∀ p, p ∈ timers w → (fst p < next_timer w)%nat.
Proof.
  unfold wf_world. rewrite forallb_forall. split; intros H p Hp.
  - apply Nat.ltb_lt, H. by apply list_elem_of_In.
  - apply Nat.ltb_lt, H. by apply list_elem_of_In.
Qed.

Lemma wf_initial : wf_world initial_world.
Proof. reflexivity. Qed.

Module ComposerFacts.
Import Abort AbortFacts Timers TimerFacts.

Lemma withTimeout_alone ms w :
  withTimeout ms None w =
  ({| h_signal := length (signals w); h_clear := next_timer w;
      h_controller := length (signals w) |}, started ms w).
Proof. reflexivity. Qed.

Lemma started_live ms w : is_aborted (started ms w) (length (signals w)) = false.
Proof.
  unfold is_aborted, started. simpl.
  rewrite lookup_app_r by lia. by rewrite Nat.sub_diag.
Qed.

Lemma started_armed ms w :
  wf_world w → armed (next_timer w) (length (signals w)) (started ms w).
Proof.
  intros Hwf. rewrite wf_world_spec in Hwf. split.
  - simpl. rewrite length_app. simpl. lia.
  - right.
    exists {| deadline := now w + timer_delay ms;
              on_fire := OnTimeout (length (signals w)) |}.
    split; [|split].
    + reflexivity.
    + simpl. apply elem_of_app. right. apply list_elem_of_singleton. reflexivity.
    + simpl. intros t' Hin. apply elem_of_app in Hin as [Hin|Hin].
      * apply Hwf in Hin. simpl in Hin. lia.
      * apply list_elem_of_singleton in Hin. by injection Hin.
Qed.

Lemma started_reason_ok ms w : reason_ok (started ms w) (length (signals w)).
Proof. intros H. by rewrite started_live in H. Qed.

Lemma armed_emit id c e w : armed id c w → armed id c (emit e w).
Proof. done. Qed.

Lemma reason_ok_emit c e w : reason_ok w c → reason_ok (emit e w) c.
Proof. done. Qed.

Lemma pending_clear t w : pending (clear t w) (h_clear t) = false.
Proof.
  unfold pending, clear, clearTimeout. simpl.
  apply not_true_iff_false. intros H. apply existsb_exists in H as (p & Hin & Hp).
  apply list_elem_of_In, elem_of_remove in Hin as [_ Hne].
  apply Nat.eqb_eq in Hp. done.
Qed.

End ComposerFacts.

(** ** Settling *)

Lemma settles_mono {A} (m : M A) w (Q Q' : completion A → world → Prop) :
  (∀ c w', Q c w' → Q' c w') → settles m w Q → settles m w Q'.
Proof. unfold settles. intros H. destruct (m w) as [[c w']|]; auto. Qed.

Lemma settles_bind {A B} (m : M A) (k : A → M B) w Q :
  settles m w (fun c w' => match c with
                           | Normal a => settles (k a) w' Q
                           | Throw e => Q (Throw e) w'
                           end) →
  settles (Async.bind m k) w Q.
Proof.
  unfold settles, Async.bind. destruct (m w) as [[[a|e] w']|]; auto.
Qed.

Lemma settles_inv {A} (m : M A) w Q :
  settles m w Q → ∃ c w', m w = Some (c, w') ∧ Q c w'.
Proof. unfold settles. destruct (m w) as [[c w']|]; [eauto|done]. Qed.

(** ** Transport *)

Lemma tagged_success d : tagged (success d).
Proof. left. simpl. eauto. Qed.

Lemma tagged_failure e : tagged (failure e).
Proof. right. simpl. eauto. Qed.


Lemma one_arm_failure message :
  message ≠ EmptyString → one_arm (failure (JStr message)).
Proof. right. simpl. eauto. Qed.

Lemma one_arm_tagged o : one_arm o → tagged o.
Proof.
  intros [H|(Hok & Hdata & m & Herr & _)]; [by left|].
  right. rewrite Herr. eauto.
Qed.

Section TransportFacts.
Import Abort AbortFacts Timers TimerFacts ComposerFacts.

Variable net : request → net_behaviour.

Lemma guarded_evolves id c w w' :
  evolves w w' → armed id c w' → guarded id c w → guarded id c w'.
Proof. intros Hev Harm [_ Hr]. split; [done|]. by apply (ev_reason _ _ Hev). Qed.

(** A rejection of [fetch], [res.json()] or [res.text()] is due to the
    network or is the reason of the aborted signal. *)
Lemma fetch_settles id rq w :
  guarded id (req_signal rq) w →
  settles (fetch net rq) w (fun c w' =>
    evolves (emit (EvFetch rq) w) w' ∧ guarded id (req_signal rq) w' ∧
    match c with
    | Normal res => ∃ d, net rq = NetRespond d res
    | Throw e => True
    end).
Proof.
  intros Hg. unfold settles, fetch.
  destruct (await_armed id (req_signal rq) (net_delay (net rq))
              (emit (EvFetch rq) w)) as (w' & o & -> & Hev & Harm & Ho);
    [apply Hg|].
  assert (Hg' : guarded id (req_signal rq) w').
  { eapply guarded_evolves; [exact Hev|exact Harm|]. exact Hg. }
  destruct o as [r|].
  - done.
  - destruct (net rq) as [d res|d e|] eqn:Hnet; simpl in Ho.
    + split; [done|]. split; [done|]. by exists d.
    + done.
    + by destruct Ho.
Qed.

Lemma read_body_settles id sg rq d res w :
  net rq = NetRespond d res →
  guarded id sg w →
  settles (read_body sg res) w (fun c w' =>
    evolves (emit (read_event res) w) w' ∧ guarded id sg w' ∧
    True).
Proof.
  intros Hnet Hg. unfold settles, read_body, read_event.
  destruct (Str.includes "application/json" (contentType_of res)).
  - unfold res_json.
    destruct (await_armed id sg (body_delay res) (emit EvJson w))
      as (w' & o & -> & Hev & Harm & Ho); [apply Hg|].
    assert (Hg' : guarded id sg w') by (eapply guarded_evolves; [exact Hev|exact Harm|exact Hg]).
    destruct o as [r|]; [done|].
    by destruct (json_result res) as [e|v] eqn:Hj.
  - unfold res_text.
    destruct (await_armed id sg (body_delay res) (emit EvText w))
      as (w' & o & -> & Hev & Harm & Ho); [apply Hg|].
    assert (Hg' : guarded id sg w') by (eapply guarded_evolves; [exact Hev|exact Harm|exact Hg]).
    destruct o as [r|]; [done|].
    by destruct (text_result res) as [e|v] eqn:Hj.
Qed.

End TransportFacts.

Lemma advances_trans w1 w2 w3 l l' :
  advances w1 w2 l → advances w2 w3 l' → advances w1 w3 (l ++ l').
Proof.
  intros (?&?&?&?&?) (?&?&?&?&?). repeat split; try congruence; auto.
  rewrite app_assoc. congruence.
Qed.

Lemma evolves_advances e w w' :
  evolves (emit e w) w' → advances w w' [e].
Proof. intros []. repeat split; done. Qed.

Section ExchangeFacts.
Import Abort AbortFacts Timers TimerFacts ComposerFacts.

Variable net : request → net_behaviour.
Variables (meth path : string) (hdrs : gmap string value) (payload : option string).

Lemma exchange_try_settles id t w :
  guarded id (h_signal t) w →
  settles (exchange_try net meth path hdrs payload t) w (fun c w' =>
    (∃ reads, is_read reads ∧
       advances w w'
         (EvFetch {| url := API_BASE w +:+ path; method := meth;
                     headers := hdrs; body := payload;
                     req_signal := h_signal t |} :: reads)) ∧
    match c with
    | Normal o => o = success (default JUndefined (data o))
    | Throw e => True
    end).
Proof.
  intros Hg. unfold exchange_try.
  apply settles_bind. unfold settles at 1, Async.read.
  apply settles_bind.
  set (rq := {| url := API_BASE w +:+ path; method := meth; headers := hdrs;
                body := payload; req_signal := h_signal t |}).
  eapply settles_mono; [|apply (fetch_settles net id rq w Hg)].
  intros [res|e] w1 (Hev1 & Hg1 & Hc); simpl in *.
  - destruct Hc as [d Hnet].
    apply settles_bind.
    eapply settles_mono; [|apply (read_body_settles net id (h_signal t) rq d res w1 Hnet Hg1)].
    intros [v|e] w2 (Hev2 & Hg2 & Hc2).
    + assert (Hadv : advances w w2 ([EvFetch rq] ++ [read_event res])).
      { eapply advances_trans; by apply evolves_advances. }
      destruct (negb (res_ok res)); unfold settles, Async.throw, Async.ret.
      * split; [|exact I].
        exists [read_event res]. split; [|exact Hadv].
        unfold is_read, read_event. destruct (Str.includes _ _); auto.
      * split; [|reflexivity].
        exists [read_event res]. split; [|exact Hadv].
        unfold is_read, read_event. destruct (Str.includes _ _); auto.
    + split; [|exact I].
      exists [read_event res]. split.
      * unfold is_read, read_event. destruct (Str.includes _ _); auto.
      * apply (advances_trans w w1 w2 [EvFetch rq] [read_event res]);
          by apply evolves_advances.
  - split; [|exact I]. exists []. split; [by left|]. by apply evolves_advances.
Qed.

Lemma on_catch_run e w : on_catch e w = Some (caught e, w).
Proof.
  unfold on_catch, caught, Async.bind, Async.of_completion.
  by destruct (JS.error_text e).
Qed.

Lemma caught_cases e :
  match caught e with
  | Normal o => ∃ error, o = failure error
  | Throw _ => True
  end.
Proof. unfold caught. destruct (JS.error_text e); eauto. Qed.

(** Every call settles; it makes the calls [setTimeout], [fetch], at most
    one body read and [clearTimeout], in this order; its timer is gone; and
    what it returns is tagged. *)
Lemma exchange_settles ms w :
  wf_world w →
  settles (exchange net meth path hdrs payload ms) w (fun c w' =>
    (∃ reads, is_read reads ∧
       log w' = log w ++ EvSetTimeout (next_timer w) ms
                         :: EvFetch (request_of meth path hdrs payload w)
                         :: reads ++ [EvClearTimeout (next_timer w)]) ∧
    API_BASE w' = API_BASE w ∧ ADMIN_KEY w' = ADMIN_KEY w ∧
    wf_world w' ∧ pending w' (next_timer w) = false ∧
    returned_tagged c).
Proof.
  intros Hwf. pose proof Hwf as Hwf'. rewrite wf_world_spec in Hwf'.
  unfold exchange, settles, Async.bind, Async.call.
  rewrite withTimeout_alone. simpl fst. simpl snd. cbv iota.
  set (t := {| h_signal := length (signals w); h_clear := next_timer w;
               h_controller := length (signals w) |}).
  assert (Hg : guarded (next_timer w) (h_signal t) (started ms w)).
  { split; [by apply started_armed|apply started_reason_ok]. }
  pose proof (exchange_try_settles (next_timer w) t (started ms w) Hg) as Htry.
  apply settles_inv in Htry as (c & w1 & Hrun & (reads & Hreads & Hadv) & Hc).
  unfold Async.try_finally, Async.try_catch. rewrite Hrun.
  destruct Hadv as (Hlog & Hbase & Hkey & Hnext & Htimers).
  assert (Hfin : ∀ w2 c2, w2 = w1 → returned_tagged c2 →
    (∃ reads0, is_read reads0 ∧
       log (clear t w2) = log w ++ EvSetTimeout (next_timer w) ms
                         :: EvFetch (request_of meth path hdrs payload w)
                         :: reads0 ++ [EvClearTimeout (next_timer w)]) ∧
    API_BASE (clear t w2) = API_BASE w ∧ ADMIN_KEY (clear t w2) = ADMIN_KEY w ∧
    wf_world (clear t w2) ∧ pending (clear t w2) (next_timer w) = false ∧
    returned_tagged c2).
  { intros w2 c2 -> Hc2. split; [|split; [|split; [|split]]]; try done.
    - exists reads. split; [done|]. simpl. rewrite Hlog. simpl.
      rewrite <- !app_assoc. simpl. reflexivity.
    - apply wf_world_spec.
      intros p Hp. simpl in Hp. apply elem_of_remove in Hp as [Hp Hne].
      apply Htimers in Hp. simpl in Hp. apply elem_of_app in Hp as [Hp|Hp].
      + apply Hwf' in Hp. simpl. rewrite Hnext. simpl. lia.
      + apply list_elem_of_singleton in Hp. subst p. simpl in Hne. done.
    - split; [apply (pending_clear t w1)|done]. }
  destruct c as [o|e].
  - apply (Hfin w1 (Normal o)); [done|]. simpl. rewrite Hc. apply tagged_success.
  - rewrite on_catch_run. apply (Hfin w1 (caught e)); [done|].
    pose proof (caught_cases e) as Hcaught.
    destruct (caught e) as [o|e']; [|done].
    destruct Hcaught as [error ->]. apply tagged_failure.
Qed.

End ExchangeFacts.

Lemma httpGet_exchange net path o :
  httpGet net path o =
  exchange net "GET" path
    (default ∅ (opt_headers o) ∪ {[ "Accept" := JStr "application/json" ]})
    None (default DEFAULT_TIMEOUT_MS (timeout o)).
Proof. reflexivity. Qed.

Lemma httpPost_exchange net path body o :
  httpPost net path body o =
  exchange net "POST" path
    (default ∅ (opt_headers o) ∪
     {[ "Content-Type" := JStr "application/json";
        "Accept" := JStr "application/json" ]})
    (JS.stringify (JS.or_else body (JObj [])))
    (default DEFAULT_TIMEOUT_MS (timeout o)).
Proof. reflexivity. Qed.

Import Abort AbortFacts Timers TimerFacts ComposerFacts.

Lemma await_log sg delay w w' o :
  await sg delay w = Some (w', o) → log w' = log w.
Proof.
  unfold await. destruct (is_aborted w sg); [by intros [= <- _]|].
  pose proof (run_timers_evolves (length (timers w))
                ((fun d => now w + Z.max 0 d) <$> delay) sg w) as Hev.
  destruct (run_timers _ _ _ _) as [w1 b]. simpl in *.
  destruct b; [intros [= <- _]; apply Hev|].
  destruct delay; simpl; [|done]. intros [= <- _]. apply Hev.
Qed.

Lemma read_body_log sg res w c w' :
  read_body sg res w = Some (c, w') → log w' = log w ++ [read_event res].
Proof.
  unfold read_body, read_event, res_json, res_text.
  destruct (Str.includes _ _).
  - destruct (await sg (body_delay res) (emit EvJson w)) as [[w1 o]|] eqn:E; [|done].
    apply await_log in E. destruct o; [|destruct (json_result res)]; by intros [= _ <-].
  - destruct (await sg (body_delay res) (emit EvText w)) as [[w1 o]|] eqn:E; [|done].
    apply await_log in E. destruct o; [|destruct (text_result res)]; by intros [= _ <-].
Qed.

Lemma append_nonempty a b : Str.is_empty b = false → Str.is_empty (a +:+ b) = false.
Proof. by destruct a. Qed.

Lemma status_message_truthy meth path res :
  caught (status_error meth path res)
  = Normal (failure (JStr (meth +:+ " " +:+ path +:+ " -> "
                           +:+ pretty (status res) +:+ " " +:+ statusText res))).
Proof.
  unfold caught, JS.error_text, status_error. cbn [JS.exn_message cbind JS.truthy].
  by rewrite append_nonempty.
Qed.

Section Claims.
Variable net : request → net_behaviour.

Lemma exchange_after_response meth path hdrs payload ms w res w2 :
  let t := fst (withTimeout ms None w) in
  let w1 := snd (withTimeout ms None w) in
  fetch net {| url := API_BASE w1 +:+ path; method := meth; headers := hdrs;
               body := payload; req_signal := h_signal t |} w1
  = Some (Normal res, w2) →
  exchange_try net meth path hdrs payload t w1
  = Async.bind (read_body (h_signal t) res)
      (fun data => if negb (res_ok res)
                   then Async.throw (status_error meth path res)
                   else Async.ret (success data)) w2
  ∧ (∀ c w3, read_body (h_signal t) res w2 = Some (c, w3) →
       log w3 = log w2 ++ [read_event res])
  ∧ (∀ d w3, read_body (h_signal t) res w2 = Some (Normal d, w3) →
       exchange net meth path hdrs payload ms w
       = Some (Normal (if res_ok res then success d
                       else failure (JStr (meth +:+ " " +:+ path +:+ " -> "
                                            +:+ pretty (status res) +:+ " "
                                            +:+ statusText res))),
               clear t w3))
  ∧ (∀ e w3, read_body (h_signal t) res w2 = Some (Throw e, w3) →
       exchange net meth path hdrs payload ms w = Some (caught e, clear t w3)).
Proof.
  intros t w1 Hfetch.
  assert (Htry : exchange_try net meth path hdrs payload t w1
    = Async.bind (read_body (h_signal t) res)
      (fun data => if negb (res_ok res)
                   then Async.throw (status_error meth path res)
                   else Async.ret (success data)) w2).
  { unfold exchange_try. unfold Async.bind at 1. unfold Async.read.
    unfold Async.bind at 1. by rewrite Hfetch. }
  split; [exact Htry|]. split; [intros c w3; apply read_body_log|].
  split.
  - intros d w3 Hread.
    unfold exchange, Async.bind at 1, Async.call.
    fold t w1. unfold Async.try_finally, Async.try_catch. rewrite Htry.
    unfold Async.bind. rewrite Hread.
    destruct (res_ok res); cbn [negb]; unfold Async.throw, Async.ret; [reflexivity|].
    by rewrite on_catch_run, status_message_truthy.
  - intros e w3 Hread.
    unfold exchange, Async.bind at 1, Async.call.
    fold t w1. unfold Async.try_finally, Async.try_catch. rewrite Htry.
    unfold Async.bind. rewrite Hread. by rewrite on_catch_run.
Qed.

Lemma caught_Normal e error :
  JS.error_text e = Normal error → caught e = Normal (failure error).
Proof. unfold caught. by intros ->. Qed.

Lemma caught_Throw e e' : JS.error_text e = Throw e' → caught e = Throw e'.
Proof. unfold caught. by intros ->. Qed.

End Claims.

(** * The claims *)

(** ** Timeout composer *)

Section Composer.
Import Abort AbortFacts Timers TimerFacts ComposerFacts.

(** [withTimeout] aborts nothing itself: whatever the external signal is,
    the signal it returns starts out not aborted. *)
Lemma withTimeout_returns_live_signal ms signal w :
  is_aborted (snd (withTimeout ms signal w))
    (h_signal (fst (withTimeout ms signal w))) = false.
Proof.
  destruct signal as [s|]; [|rewrite withTimeout_alone; apply started_live].
  unfold withTimeout, new_AbortController, setTimeout, addEventListener.
  cbn [fst snd h_signal signals set_signals set_timers set_next_timer emit].
  set (ss := (signals w ++ [fresh_signal]) ++ [fresh_signal]).
  assert (Hlast : ss !! length (signals w ++ [fresh_signal]) = Some fresh_signal).
  { unfold ss. rewrite lookup_app_r by lia. by rewrite Nat.sub_diag. }
  unfold is_aborted. destruct (ss !! s) as [st|] eqn:Hs; simpl.
  - destruct (decide (s = length (signals w ++ [fresh_signal]))) as [->|Hne].
    + rewrite list_lookup_insert_eq by (by eapply lookup_lt_Some).
      simpl. rewrite Hlast in Hs. by injection Hs as <-.
    + rewrite list_lookup_insert_ne by done. by rewrite Hlast.
  - by rewrite Hlast.
Qed.

(** C1 (defect).  The claim: an external signal that is already aborted when
    [withTimeout] composes makes the composed signal fire at once, so that a
    call started with it fails at once.  The code: the [abort] listener is
    registered on a signal whose event has been dispatched already, so it
    never runs.  With controller 0 aborted beforehand, the signal returned
    by [withTimeout(12000, signal)] is not aborted, stays so however long the
    timers run, and a [fetch] started with it on a network that does not
    answer never settles. *)
Theorem composed_signal_misses_aborted_input :
  is_aborted cancelled_world 0 = true ∧
  let t := fst (withTimeout 12000 (Some 0%nat) cancelled_world) in
  let w := snd (withTimeout 12000 (Some 0%nat) cancelled_world) in
  is_aborted w (h_signal t) = false ∧
  (∀ T, is_aborted
          (fst (run_timers (length (timers w)) (Some T) (h_signal t) w))
          (h_signal t) = false) ∧
  is_aborted (fst (run_timers (length (timers w)) None (h_signal t) w))
    (h_signal t) = false ∧
  fetch silent (probe (h_signal t)) w = None.
Proof.
  split; [reflexivity|]. cbv zeta. split; [reflexivity|]. split; [|split].
  - intros T.
    change (timers (snd (withTimeout 12000 (Some 0%nat) cancelled_world)))
      with [(1%nat, {| deadline := 12000; on_fire := OnTimeout 1 |})].
    cbn [length run_timers]. unfold next_due.
    change (timers (snd (withTimeout 12000 (Some 0%nat) cancelled_world)))
      with [(1%nat, {| deadline := 12000; on_fire := OnTimeout 1 |})].
    cbn [earliest due snd deadline].
    destruct (12000 <=? T); reflexivity.
  - reflexivity.
  - reflexivity.
Qed.

(** C2 (defect).  The claim: the composed signal fires when the duration
    elapses or the external signal fires, whichever is first, also when an
    external signal is given.  The code: the timer aborts [ctrl], and with
    an external signal the signal returned is that of [combined], which no
    timer aborts.  With the live controller 0 as external signal and 1000
    ms, running every timer brings the clock to 1000 and aborts [ctrl]; the
    signal returned is still not aborted, and a [fetch] started with it on
    a network that does not answer never settles. *)
Theorem timer_misses_composed_signal :
  let t := fst (withTimeout 1000 (Some 0%nat) listening_world) in
  let w := snd (withTimeout 1000 (Some 0%nat) listening_world) in
  let w' := fst (run_timers (length (timers w)) None (h_signal t) w) in
  now w' = 1000 ∧ timers w' = [] ∧
  is_aborted w' (h_controller t) = true ∧
  signal_reason w' (h_controller t) = ErrorObj "Error" "Timeout" ∧
  is_aborted w' (h_signal t) = false ∧
  fetch silent (probe (h_signal t)) w = None.
Proof. cbv zeta. repeat split; reflexivity. Qed.

(** Without an external signal the timer does reach the signal returned: a
    wait on it always ends, with the signal aborted. *)
Lemma lone_timeout_fires ms w :
  wf_world w →
  let t := fst (withTimeout ms None w) in
  let w1 := snd (withTimeout ms None w) in
  ∃ w' r, await (h_signal t) None w1 = Some (w', Some r) ∧
          is_aborted w' (h_signal t) = true.
Proof.
  intros Hwf. rewrite withTimeout_alone. cbn [fst snd h_signal].
  destruct (await_armed (next_timer w) (length (signals w)) None (started ms w))
    as (w' & o & Hrun & _ & _ & Ho); [by apply started_armed|].
  destruct o as [r|]; [|by destruct Ho].
  exists w', r. split; [exact Hrun|apply Ho].
Qed.

(** An abort of the external signal after the composition does reach the
    signal returned. *)
Lemma later_abort_reaches_composed_signal ms s r w :
  (s < length (signals w))%nat → is_aborted w s = false →
  let t := fst (withTimeout ms (Some s) w) in
  let w1 := snd (withTimeout ms (Some s) w) in
  is_aborted (abort s r w1) (h_signal t) = true.
Proof.
  intros Hlt Hlive. cbv zeta.
  unfold withTimeout, new_AbortController, setTimeout, addEventListener.
  cbn [fst snd h_signal signals set_signals set_timers set_next_timer emit].
  set (ss := (signals w ++ [fresh_signal]) ++ [fresh_signal]).
  set (combined := length (signals w ++ [fresh_signal])).
  destruct (lookup_lt_is_Some_2 _ _ Hlt) as [st Hs].
  assert (Hss : ss !! s = Some st).
  { unfold ss. rewrite <- app_assoc. by rewrite lookup_app_l. }
  assert (Hst : aborted st = false).
  { unfold is_aborted in Hlive. by rewrite Hs in Hlive. }
  rewrite Hss.
  set (w1 := set_signals _ _).
  assert (Hlen : length (signals w1) = S combined).
  { unfold w1, combined, ss. simpl. rewrite length_insert, !length_app. simpl. lia. }
  assert (Hs1 : signals w1 !! s
                = Some {| aborted := aborted st; reason := reason st;
                          listeners := listeners st ++
                            [{| once := true; handler := OnAbort combined s |}] |}).
  { unfold w1. simpl. apply list_lookup_insert_eq. by eapply lookup_lt_Some. }
  assert (Hpos : (0 < live w1)%nat).
  { apply (live_positive w1 s).
    - by eapply lookup_lt_Some.
    - unfold is_aborted. by rewrite Hs1. }
  unfold abort. destruct (live w1) as [|k]; [lia|].
  rewrite signal_abort_S, Hs1. cbn [aborted listeners]. rewrite Hst.
  rewrite fold_left_app. cbn [fold_left handler callback_call fst snd].
  apply signal_abort_aborts.
  set (step := fun acc l => signal_abort (S k) _ _ acc).
  assert (Hfold : ∀ ls acc, length (signals (fold_left step ls acc))
                            = length (signals acc)).
  { induction ls as [|l ls IH]; intros acc; [done|]. simpl. rewrite IH.
    apply signal_abort_length. }
  rewrite Hfold. cbn [signals set_signals]. rewrite length_insert, Hlen. lia.
Qed.

End Composer.

(** ** Transport *)

Section TransportClaims.
Import Abort AbortFacts Timers TimerFacts ComposerFacts.

Variable net : request → net_behaviour.

Lemma exchange_released meth path hdrs payload ms w :
  wf_world w →
  settles (exchange net meth path hdrs payload ms) w
    (fun _ w' => released w w').
Proof.
  intros Hwf. eapply settles_mono; [|by apply exchange_settles].
  intros c w' ((reads & Hreads & Hlog) & _ & _ & _ & Hpending & _).
  exists ms, (EvFetch (request_of meth path hdrs payload w) :: reads).
  split; [exact Hlog|]. split; [|exact Hpending].
  intros id Hin. apply elem_of_cons in Hin as [Hin|Hin]; [done|].
  destruct Hreads as [-> | [-> | ->]].
  - by apply elem_of_nil in Hin.
  - by apply list_elem_of_singleton in Hin.
  - by apply list_elem_of_singleton in Hin.
Qed.

(** C3.  Every call of [httpGet] and of [httpPost] settles, and however it
    does (an outcome with data, a failure outcome for a status outside 2xx
    or for a caught condition, or a throw), the release function of its
    timeout has run exactly once by then, as the last platform call of the
    call, and the timer is no longer pending. *)
Theorem release_runs_once_on_every_path path body o w :
  wf_world w →
  settles (httpGet net path o) w (fun _ w' => released w w') ∧
  settles (httpPost net path body o) w (fun _ w' => released w w').
Proof.
  intros Hwf. rewrite httpGet_exchange, httpPost_exchange.
  split; by apply exchange_released.
Qed.

(** The four ways out at work: a 200 with its data, a 404, a network
    failure and a timeout on a silent network.  Each ends with the one
    [clearTimeout]. *)
Lemma release_on_each_way_out :
  (λ r, (fst r, new_events initial_world (snd r))) <$>
    httpGet (answers (json_response 200 "OK" (JArr []))) "/faqs" no_options
      initial_world
  = Some (Normal (success (JArr [])),
          [EvSetTimeout 1 12000;
           EvFetch (request_of "GET" "/faqs"
                      {[ "Accept" := JStr "application/json" ]} None
                      initial_world);
           EvJson; EvClearTimeout 1]) ∧
  (λ r, (fst r, new_events initial_world (snd r))) <$>
    httpGet (answers not_found) "/faqs" no_options initial_world
  = Some (Normal (failure (JStr "GET /faqs -> 404 Not Found")),
          [EvSetTimeout 1 12000;
           EvFetch (request_of "GET" "/faqs"
                      {[ "Accept" := JStr "application/json" ]} None
                      initial_world);
           EvJson; EvClearTimeout 1]) ∧
  (λ r, (fst r, new_events initial_world (snd r))) <$>
    httpGet unreachable "/faqs" no_options initial_world
  = Some (Normal (failure (JStr "Failed to fetch")),
          [EvSetTimeout 1 12000;
           EvFetch (request_of "GET" "/faqs"
                      {[ "Accept" := JStr "application/json" ]} None
                      initial_world);
           EvClearTimeout 1]) ∧
  (λ r, (fst r, new_events initial_world (snd r), now (snd r))) <$>
    httpGet silent "/faqs" no_options initial_world
  = Some (Normal (failure (JStr "Timeout")),
          [EvSetTimeout 1 12000;
           EvFetch (request_of "GET" "/faqs"
                      {[ "Accept" := JStr "application/json" ]} None
                      initial_world);
           EvClearTimeout 1], 12000).
Proof. repeat split; vm_compute; reflexivity. Qed.

(** C4, as the code has it.  Once a response is there, what is left of the
    [try] block is the body read followed by the status check, so the body
    is read whatever the status: as JSON when the declared content type
    includes [application/json], as text otherwise.  When that read
    completes and the status is outside 2xx, the call returns the failure
    outcome whose message is the method, the path, the status number and
    the status phrase; the outcome has no data.  When the read fails with a
    condition [e], the status is not looked at: the call ends as the
    [catch] clause does for [e], with the failure outcome that carries the
    error text of [e], or with the throw of the clause when [e] has no
    such text. *)
Theorem failure_status_after_body_read path body o w :
  let ms := default DEFAULT_TIMEOUT_MS (timeout o) in
  let t := fst (withTimeout ms None w) in
  let w1 := snd (withTimeout ms None w) in
  let get_headers := default ∅ (opt_headers o) ∪
                     {[ "Accept" := JStr "application/json" ]} in
  let post_headers := default ∅ (opt_headers o) ∪
                      {[ "Content-Type" := JStr "application/json";
                         "Accept" := JStr "application/json" ]} in
  let payload := JS.stringify (JS.or_else body (JObj [])) in
  (∀ res w2,
     fetch net (request_of "GET" path get_headers None w) w1
     = Some (Normal res, w2) →
     httpGet_try net path (default ∅ (opt_headers o)) t w1
     = Async.bind (read_body (h_signal t) res)
         (fun data => if negb (res_ok res)
                      then Async.throw (status_error "GET" path res)
                      else Async.ret (success data)) w2 ∧
     ∀ c w3, read_body (h_signal t) res w2 = Some (c, w3) →
       log w3 = log w2 ++ [read_event res] ∧
       (∀ d, c = Normal d → res_ok res = false →
         httpGet net path o w
         = Some (Normal (failure (JStr ("GET " +:+ path +:+ " -> "
                                        +:+ pretty (status res) +:+ " "
                                        +:+ statusText res))),
                 clear t w3)) ∧
       (∀ e error, c = Throw e → JS.error_text e = Normal error →
         httpGet net path o w = Some (Normal (failure error), clear t w3)) ∧
       (∀ e e', c = Throw e → JS.error_text e = Throw e' →
         httpGet net path o w = Some (Throw e', clear t w3))) ∧
  (∀ res w2,
     fetch net (request_of "POST" path post_headers payload w) w1
     = Some (Normal res, w2) →
     httpPost_try net path body (default ∅ (opt_headers o)) t w1
     = Async.bind (read_body (h_signal t) res)
         (fun data => if negb (res_ok res)
                      then Async.throw (status_error "POST" path res)
                      else Async.ret (success data)) w2 ∧
     ∀ c w3, read_body (h_signal t) res w2 = Some (c, w3) →
       log w3 = log w2 ++ [read_event res] ∧
       (∀ d, c = Normal d → res_ok res = false →
         httpPost net path body o w
         = Some (Normal (failure (JStr ("POST " +:+ path +:+ " -> "
                                        +:+ pretty (status res) +:+ " "
                                        +:+ statusText res))),
                 clear t w3)) ∧
       (∀ e error, c = Throw e → JS.error_text e = Normal error →
         httpPost net path body o w = Some (Normal (failure error), clear t w3)) ∧
       (∀ e e', c = Throw e → JS.error_text e = Throw e' →
         httpPost net path body o w = Some (Throw e', clear t w3))).
Proof.
  cbv zeta. split; intros res w2 Hfetch.
  - destruct (exchange_after_response net "GET" path
                (default ∅ (opt_headers o) ∪ {[ "Accept" := JStr "application/json" ]})
                None (default DEFAULT_TIMEOUT_MS (timeout o)) w res w2 Hfetch)
      as (Htry & Hlog & Hout & Hfail).
    split; [exact Htry|]. intros c w3 Hread. split; [by eapply Hlog|].
    split; [|split].
    + intros d -> Hko. rewrite httpGet_exchange, (Hout d w3 Hread), Hko. reflexivity.
    + intros e error -> He.
      by rewrite httpGet_exchange, (Hfail e w3 Hread), (caught_Normal e error).
    + intros e e' -> He.
      by rewrite httpGet_exchange, (Hfail e w3 Hread), (caught_Throw e e').
  - destruct (exchange_after_response net "POST" path
                (default ∅ (opt_headers o) ∪
                 {[ "Content-Type" := JStr "application/json";
                    "Accept" := JStr "application/json" ]})
                (JS.stringify (JS.or_else body (JObj [])))
                (default DEFAULT_TIMEOUT_MS (timeout o)) w res w2 Hfetch)
      as (Htry & Hlog & Hout & Hfail).
    split; [exact Htry|]. intros c w3 Hread. split; [by eapply Hlog|].
    split; [|split].
    + intros d -> Hko. rewrite httpPost_exchange, (Hout d w3 Hread), Hko. reflexivity.
    + intros e error -> He.
      by rewrite httpPost_exchange, (Hfail e w3 Hread), (caught_Normal e error).
    + intros e e' -> He.
      by rewrite httpPost_exchange, (Hfail e w3 Hread), (caught_Throw e e').
Qed.



End TransportClaims.

(** C4 as stated fails: the response has status 502, the declared content
    type is JSON and the body is not, so the read of the body throws before
    the status is looked at, and the failure carries the parser's message
    with no trace of the method, the path or the status.  And when the read
    is rejected with [null], no outcome is returned at all. *)
Lemma status_lost_when_body_read_fails :
  res_ok bad_gateway = false ∧
  fst <$> httpGet (answers bad_gateway) "/health" no_options initial_world
  = Some (Normal (failure (JStr "Unexpected end of JSON input"))) ∧
  fst <$> httpGet (answers bad_gateway) "/health" no_options initial_world
  ≠ Some (Normal (failure (JStr "GET /health -> 502 Bad Gateway"))) ∧
  Str.includes "502" "Unexpected end of JSON input" = false ∧
  fst <$> httpGet (answers {| status := 502; statusText := "Bad Gateway";
                              content_type := Some "application/json";
                              body_delay := Some 0;
                              json_result := inl (Thrown JNull);
                              text_result := inr EmptyString |})
            "/health" no_options initial_world
  = Some (Throw (ErrorObj "TypeError"
                   "Cannot read properties of null (reading 'message')")).
Proof.
  split; [reflexivity|].
  assert (H : fst <$> httpGet (answers bad_gateway) "/health" no_options initial_world
              = Some (Normal (failure (JStr "Unexpected end of JSON input"))))
    by (vm_compute; reflexivity).
  split; [exact H|]. split; [rewrite H; discriminate|].
  split; [reflexivity|]. vm_compute. reflexivity.
Qed.

(** ** Formatter of the courses *)

Lemma map_completion_total {A B} (f : A → completion B) (g : A → B) xs :
  Forall (fun x => f x = Normal (g x)) xs →
  map_completion f xs = Normal (map g xs).
Proof.
  induction 1 as [|x xs Hx _ IH]; [done|]. simpl. by rewrite Hx, IH.
Qed.

Lemma course_line_text c :
  JS.is_nullish c = false → course_line c = Normal (course_text c).
Proof. by destruct c. Qed.

(** The [map] of a formatter throws at the first entry that is [null] or
    [undefined], when the entries before it give their lines. *)
Lemma map_completion_nullish {B} (line : value → completion B) :
  (∀ v, JS.is_nullish v = true → ∃ e, line v = Throw e ∧ is_TypeError e) →
  (∀ v, JS.is_nullish v = false → ∃ l, line v = Normal l) →
  ∀ xs, Exists (fun x => JS.is_nullish x = true) xs →
        ∃ e, map_completion line xs = Throw e ∧ is_TypeError e.
Proof.
  intros Hbad Hgood xs. induction 1 as [x xs Hx|x xs _ IH].
  - destruct (Hbad x Hx) as (e & Hline & He). exists e. simpl.
    by rewrite Hline.
  - destruct (JS.is_nullish x) eqn:Hx.
    + destruct (Hbad x Hx) as (e & Hline & He). exists e. simpl.
      by rewrite Hline.
    + destruct (Hgood x Hx) as [l Hl]. destruct IH as (e & He & Ht).
      exists e. simpl. by rewrite Hl, He.
Qed.

Lemma course_line_nullish xs :
  Exists (fun x => JS.is_nullish x = true) xs →
  ∃ e, map_completion course_line xs = Throw e ∧ is_TypeError e.
Proof.
  apply (map_completion_nullish course_line).
  - intros [] Hv; try done; eexists; (split; [reflexivity|by eexists]).
  - intros v Hv. exists (course_text v). by apply course_line_text.
Qed.

(** The payload of the specification's example. *)
Lemma coursesToText_two_courses :
  coursesToText two_courses = Normal ("A" +:+ Str.nl +:+ "B").
Proof. reflexivity. Qed.

(** C8 (defect).  The claim, with section 4.3 of the specification: the
    formatter of the courses is total, every input gives a text.  The code:
    the callback of [map] reads [c.summary] without looking at [c], so for
    a course list that holds [null] (or [undefined]) the read throws a
    [TypeError] and [coursesToText] returns no text at all: for
    [{courses: [null]}], and for every list with such an entry, whatever
    the other courses are. *)
Theorem coursesToText_null_course_throws :
  coursesToText (JObj [("courses", JArr [JNull])])
  = Throw (ErrorObj "TypeError"
             "Cannot read properties of null (reading 'summary')") ∧
  (¬ ∃ text, coursesToText (JObj [("courses", JArr [JNull])]) = Normal text) ∧
  ∀ cs, Exists (fun c => JS.is_nullish c = true) cs →
        ∃ e, coursesToText (JObj [("courses", JArr cs)]) = Throw e ∧
             is_TypeError e.
Proof.
  split; [reflexivity|]. split; [intros [text H]; discriminate H|].
  intros cs Hcs. destruct (course_line_nullish cs Hcs) as (e & He & Ht).
  exists e. split; [|exact Ht].
  unfold coursesToText. cbn [JS.truthy negb JS.get_prop JS.assoc String.eqb
                             Ascii.eqb Bool.eqb default id cbind].
  by rewrite He.
Qed.

(** ** Configuration *)

Lemma to_string_TypeError v e : JS.to_string v = Throw e → is_TypeError e.
Proof.
  revert e. induction v as [| |b|n|s|xs IH|props] using value_ind_nested;
    intros e; try done.
  - simpl. fold JS.element_text.
    destruct (map_completion JS.element_text xs) as [parts|e'] eqn:Hmap;
      [done|].
    intros [= <-]. revert e' Hmap.
    induction IH as [|x xs Hx _ IHxs]; intros e' Hmap; [done|].
    simpl in Hmap. destruct (JS.element_text x) as [p|e0] eqn:Hp.
    + simpl in Hmap.
      destruct (map_completion JS.element_text xs) as [ps|e1]; [done|].
      injection Hmap as <-. by apply IHxs.
    + injection Hmap as <-. apply Hx. unfold JS.element_text in Hp.
      by destruct (JS.is_nullish x).
  - simpl. destruct (JS.assoc "toString" props); [|done].
    intros [= <-]. by eexists.
Qed.

(** C10, as the code has it.  [setApiBase] leaves the base URL as it is
    for a falsy argument and makes it the string form of a truthy one that
    has a string form; for a truthy argument that has none the call throws
    a [TypeError] and the base URL stays.  The base URL is a string either
    way, [getApiBase] returns it, and nothing else changes. *)
Theorem setApiBase_sets_truthy_only url w :
  (JS.truthy url = false → setApiBase url w = (Normal tt, w)) ∧
  (∀ s, JS.truthy url = true → JS.to_string url = Normal s →
        setApiBase url w = (Normal tt, set_API_BASE s w) ∧
        getApiBase (snd (setApiBase url w)) = s) ∧
  (∀ e, JS.truthy url = true → JS.to_string url = Throw e →
        setApiBase url w = (Throw e, w) ∧ is_TypeError e) ∧
  setApiBase JUndefined w = (Normal tt, w) ∧
  setApiBase JNull w = (Normal tt, w) ∧
  setApiBase (JStr EmptyString) w = (Normal tt, w) ∧
  getApiBase (snd (setApiBase url w)) = API_BASE (snd (setApiBase url w)) ∧
  ADMIN_KEY (snd (setApiBase url w)) = ADMIN_KEY w.
Proof.
  assert (Hsame : set_API_BASE (API_BASE w) w = w) by (by destruct w).
  unfold setApiBase, getApiBase, JS.or_else.
  split; [|split; [|split; [|split; [|split; [|split; [|split]]]]]].
  - intros ->. cbn [JS.to_string]. by rewrite Hsame.
  - intros s -> ->. done.
  - intros e -> He. rewrite He. split; [done|]. by eapply to_string_TypeError.
  - cbn [JS.truthy JS.to_string]. by rewrite Hsame.
  - cbn [JS.truthy JS.to_string]. by rewrite Hsame.
  - cbn [JS.truthy Str.is_empty negb JS.to_string]. by rewrite Hsame.
  - done.
  - destruct (JS.truthy url); [|done]. by destruct (JS.to_string url).
Qed.

(** C10 as stated fails: an object whose own [toString] is not a function
    is truthy and has no string form; [setApiBase] throws on it and the
    base URL is what it was. *)
Lemma setApiBase_unconvertible_throws :
  JS.truthy stubborn = true ∧
  setApiBase stubborn initial_world = (Throw JS.NOT_PRIMITIVE, initial_world) ∧
  getApiBase (snd (setApiBase stubborn initial_world))
  = "https://bcm-demo.onrender.com".
Proof. repeat split. Qed.

Lemma setAdminKey_config_ok key w : config_ok (setAdminKey key w).
Proof.
  unfold config_ok, setAdminKey, JS.or_else. simpl.
  destruct (JS.truthy key) eqn:E; auto.
Qed.

(** ** Operations *)

Section Operations.
Import Abort AbortFacts Timers TimerFacts ComposerFacts.

Variable net : request → net_behaviour.

Lemma requests_of_call id ms rq reads id' :
  is_read reads →
  requests (EvSetTimeout id ms :: EvFetch rq :: reads ++ [EvClearTimeout id'])
  = [rq].
Proof. by intros [-> | [-> | ->]]. Qed.

(** One call of the transport: the one request it sends, what it leaves of
    the configuration, and the shape of what it returns. *)
Lemma exchange_call meth path hdrs payload ms w :
  wf_world w →
  settles (exchange net meth path hdrs payload ms) w (fun c w' =>
    sent w w' = [request_of meth path hdrs payload w] ∧
    API_BASE w' = API_BASE w ∧ ADMIN_KEY w' = ADMIN_KEY w ∧
    wf_world w' ∧ returned_tagged c).
Proof.
  intros Hwf. eapply settles_mono; [|by apply exchange_settles].
  intros c w' ((reads & Hreads & Hlog) & Hbase & Hkey & Hwf' & _ & Hc).
  split; [|done].
  unfold sent, new_events. rewrite Hlog, drop_app_length.
  by apply requests_of_call.
Qed.

Lemma settles_substitute (call : M outcome) msg w
    (Q : completion outcome → world → Prop) :
  settles call w (fun c w' =>
    Q (match c with
       | Normal res => Normal (if ok res then res else failure (JStr msg))
       | Throw e => Throw e
       end) w') →
  settles (let* res := call in
           Async.ret (if ok res then res else failure (JStr msg))) w Q.
Proof.
  intros H. apply settles_bind. eapply settles_mono; [|exact H].
  by intros [res|e] w'.
Qed.

(** A tagged outcome that is [ok] has its one arm; one that is not gives
    way to the message of the operation. *)
Lemma substitute_one_arm (c : completion outcome) msg :
  msg ≠ EmptyString → returned_tagged c →
  returned_one_arm (match c with
                    | Normal res => Normal (if ok res then res else failure (JStr msg))
                    | Throw e => Throw e
                    end).
Proof.
  intros Hmsg. destruct c as [res|e]; [|done]. simpl.
  destruct (ok res) eqn:Hok; [|intros _; by apply one_arm_failure].
  intros [H|[Hko _]]; [by left|congruence].
Qed.

Lemma fetchCourses_call w :
  wf_world w →
  settles (fetchCourses net) w (fun c w' =>
    sent w w' = [request_of "GET" "/courses/summary/all"
                   {[ "Accept" := JStr "application/json" ]} None w] ∧
    returned_one_arm c).
Proof.
  intros Hwf. unfold fetchCourses. apply settles_substitute.
  rewrite httpGet_exchange. eapply settles_mono; [|by apply exchange_call].
  intros c w' (Hsent & _ & _ & _ & Hc). split.
  - rewrite Hsent. cbn [no_options opt_headers default]. by rewrite (left_id_L ∅ (∪)).
  - by apply substitute_one_arm.
Qed.

Lemma fetchFaqs_call w :
  wf_world w →
  settles (fetchFaqs net) w (fun c w' =>
    sent w w' = [request_of "GET" "/faqs"
                   {[ "Accept" := JStr "application/json" ]} None w] ∧
    returned_one_arm c).
Proof.
  intros Hwf. unfold fetchFaqs. apply settles_substitute.
  rewrite httpGet_exchange. eapply settles_mono; [|by apply exchange_call].
  intros c w' (Hsent & _ & _ & _ & Hc). split.
  - rewrite Hsent. cbn [no_options opt_headers default]. by rewrite (left_id_L ∅ (∪)).
  - by apply substitute_one_arm.
Qed.

Lemma text_operation_call (op : M outcome) (sorry : string)
    (fmt : value → completion string) rq w :
  settles op w (fun c w' => sent w w' = [rq] ∧ returned_one_arm c) →
  settles (let* r := op in
           if negb (ok r) then Async.ret sorry
           else Async.of_completion (fmt (data_of r))) w
    (fun _ w' => sent w w' = [rq]).
Proof.
  intros H. apply settles_bind. eapply settles_mono; [|exact H].
  intros [r|e] w' [Hsent _]; [|done].
  by destruct (negb (ok r)).
Qed.

Lemma fetchCoursesText_call w :
  wf_world w →
  settles (fetchCoursesText net) w (fun _ w' =>
    sent w w' = [request_of "GET" "/courses/summary/all"
                   {[ "Accept" := JStr "application/json" ]} None w]).
Proof.
  intros Hwf. unfold fetchCoursesText.
  by apply text_operation_call, fetchCourses_call.
Qed.

Lemma fetchFaqsText_call w :
  wf_world w →
  settles (fetchFaqsText net) w (fun _ w' =>
    sent w w' = [request_of "GET" "/faqs"
                   {[ "Accept" := JStr "application/json" ]} None w]).
Proof.
  intros Hwf. unfold fetchFaqsText.
  by apply text_operation_call, fetchFaqs_call.
Qed.

Lemma settles_wrap_text (op : M string) w (Q : completion outcome → world → Prop) :
  settles op w (fun c w' =>
    Q (match c with
       | Normal t => Normal (success (JStr t))
       | Throw e => Throw e
       end) w') →
  settles (let* t := op in Async.ret (success (JStr t))) w Q.
Proof.
  intros H. apply settles_bind. eapply settles_mono; [|exact H].
  by intros [t|e] w'.
Qed.

Lemma chat_call utterance w :
  wf_world w →
  settles (let* res := httpPost net "/chat" (JObj [("message", utterance)])
                         no_options in
           if negb (ok res)
           then Async.ret (failure (JStr "Chat service is unavailable."))
           else Async.ret res) w
    (fun c w' =>
       sent w w' = [request_of "POST" "/chat"
                      {[ "Content-Type" := JStr "application/json";
                         "Accept" := JStr "application/json" ]}
                      (JS.stringify (JObj [("message", utterance)])) w] ∧
       returned_one_arm c).
Proof.
  intros Hwf. apply settles_bind. rewrite httpPost_exchange.
  eapply settles_mono; [|by apply exchange_call].
  intros [res|e] w' (Hsent & _ & _ & _ & Hc).
  - assert (Hs : sent w w' = [request_of "POST" "/chat"
                      {[ "Content-Type" := JStr "application/json";
                         "Accept" := JStr "application/json" ]}
                      (JS.stringify (JObj [("message", utterance)])) w]).
    { rewrite Hsent. cbn [no_options opt_headers default].
      by rewrite (left_id_L ∅ (∪)). }
    destruct (ok res) eqn:Hok; cbn [negb]; unfold settles, Async.ret.
    + split; [exact Hs|]. destruct Hc as [H|[Hko _]]; [by left|congruence].
    + split; [exact Hs|by apply one_arm_failure].
  - split; [|done]. rewrite Hsent. cbn [no_options opt_headers default].
    by rewrite (left_id_L ∅ (∪)).
Qed.

Lemma string_utterance s :
  JS.to_string (JS.or_else (JStr s) (JStr EmptyString)) = Normal s.
Proof. by destruct s. Qed.

(** [askBackend] once the utterance has its string form. *)
Lemma askBackend_unfold utterance w :
  askBackend net utterance w
  = match JS.to_string (JS.or_else utterance (JStr EmptyString)) with
    | Normal text =>
        (if Str.includes "course" (Str.toLowerCase text) then
           let* t := fetchCoursesText net in Async.ret (success (JStr t))
         else if Str.includes "faq" (Str.toLowerCase text) then
           let* t := fetchFaqsText net in Async.ret (success (JStr t))
         else
           let* res := httpPost net "/chat" (JObj [("message", utterance)])
                         no_options in
           if negb (ok res)
           then Async.ret (failure (JStr "Chat service is unavailable."))
           else Async.ret res) w
    | Throw e => Some (Throw e, w)
    end.
Proof.
  unfold askBackend, Async.bind at 1, Async.of_completion.
  by destruct (JS.to_string _).
Qed.

(** C6.  For a string [s], with [u] its lower-cased form: when [u]
    contains [course], [askBackend] is the courses text operation with its
    text wrapped as the data of a success outcome, and the one request sent
    is the read of the courses; else when [u] contains [faq], the same with
    the FAQs text operation; otherwise it is the write to [/chat] of the
    object whose [message] is [s] as given, returned as it is when it
    succeeded and replaced by the fixed failure when it did not. *)
Theorem askBackend_first_match s w :
  wf_world w →
  if Str.includes "course" (Str.toLowerCase s) then
    askBackend net (JStr s) w
    = (let* t := fetchCoursesText net in Async.ret (success (JStr t))) w ∧
    settles (askBackend net (JStr s)) w (fun _ w' =>
      sent w w' = [request_of "GET" "/courses/summary/all"
                     {[ "Accept" := JStr "application/json" ]} None w])
  else if Str.includes "faq" (Str.toLowerCase s) then
    askBackend net (JStr s) w
    = (let* t := fetchFaqsText net in Async.ret (success (JStr t))) w ∧
    settles (askBackend net (JStr s)) w (fun _ w' =>
      sent w w' = [request_of "GET" "/faqs"
                     {[ "Accept" := JStr "application/json" ]} None w])
  else
    askBackend net (JStr s) w
    = (let* res := httpPost net "/chat" (JObj [("message", JStr s)]) no_options in
       Async.ret (if ok res then res
                  else failure (JStr "Chat service is unavailable."))) w ∧
    settles (askBackend net (JStr s)) w (fun _ w' =>
      sent w w' = [request_of "POST" "/chat"
                     {[ "Content-Type" := JStr "application/json";
                        "Accept" := JStr "application/json" ]}
                     (Some ("{" +:+ JS.quote "message" +:+ ":" +:+ JS.quote s
                            +:+ "}")) w]).
Proof.
  intros Hwf. unfold settles. rewrite askBackend_unfold, string_utterance.
  destruct (Str.includes "course" (Str.toLowerCase s)).
  - split; [reflexivity|]. apply settles_wrap_text.
    by apply fetchCoursesText_call.
  - destruct (Str.includes "faq" (Str.toLowerCase s)).
    + split; [reflexivity|]. apply settles_wrap_text.
      by apply fetchFaqsText_call.
    + split.
      * unfold Async.bind.
        destruct (httpPost net "/chat" (JObj [("message", JStr s)]) no_options w)
          as [[[res|e] w']|]; [|done|done].
        by destruct (ok res).
      * eapply settles_mono; [|by apply chat_call]. by intros c w' [Hsent _].
Qed.

(** ** Recent enrollments *)

Lemma nonempty_append a b : Str.is_empty a = false → Str.is_empty (a +:+ b) = false.
Proof. by destruct a. Qed.

Lemma toString_nonempty p q :
  Str.is_empty (URLSearchParams.toString (p :: q)) = false.
Proof.
  unfold URLSearchParams.toString. cbn [map Str.join].
  assert (H : Str.is_empty (URLSearchParams.encode (fst p) +:+ "=" +:+
                            URLSearchParams.encode (snd p)) = false)
    by (by apply append_nonempty).
  destruct (map _ q); [exact H|by apply nonempty_append].
Qed.

Lemma effective_limit_truthy limit :
  JS.truthy (effective_limit limit) = true ↔
  limit = JUndefined ∨ JS.truthy limit = true.
Proof.
  destruct limit; cbn [effective_limit]; split; auto; intros [H|H]; done.
Qed.

(** [fetchRecentEnrollments] once the query is built: the read of the
    path with that query, or the throw of the conversion that failed, with
    nothing sent. *)
Lemma recent_unfold limit source w :
  fetchRecentEnrollments net limit source w
  = match query_entries limit source with
    | Normal q =>
        (let* res := httpGet net ("/enrollments/recent" +:+ query_suffix q)
                       {| timeout := None;
                          opt_headers := Some (recent_headers w) |} in
         Async.ret (if ok res then res
                    else failure (JStr "Unable to retrieve recent enrollments.")))
          w
    | Throw e => Some (Throw e, w)
    end.
Proof.
  unfold fetchRecentEnrollments, query_entries, query_entry.
  fold (effective_limit limit).
  unfold Async.bind at 1, Async.read. fold (recent_headers w).
  destruct (JS.truthy (effective_limit limit)) eqn:Hl.
  - unfold Async.bind at 1. unfold Async.bind at 1, Async.of_completion.
    destruct (JS.to_string (effective_limit limit)) as [l|e]; [|done].
    cbn [Async.ret]. destruct (JS.truthy source) eqn:Hs.
    + unfold Async.bind at 1. unfold Async.bind at 1.
      destruct (JS.to_string source) as [s'|e]; [|done].
      cbn [Async.ret URLSearchParams.set String.eqb Ascii.eqb Bool.eqb app
           query_suffix].
      by rewrite toString_nonempty.
    + unfold Async.bind at 1.
      cbn [Async.ret URLSearchParams.set app query_suffix].
      by rewrite toString_nonempty.
  - unfold Async.bind at 1. cbn [Async.ret].
    destruct (JS.truthy source) eqn:Hs.
    + unfold Async.bind at 1. unfold Async.bind at 1, Async.of_completion.
      destruct (JS.to_string source) as [s'|e]; [|done].
      cbn [Async.ret URLSearchParams.set app query_suffix].
      by rewrite toString_nonempty.
    + unfold Async.bind at 1. reflexivity.
Qed.

Lemma query_entry_TypeError name arg e :
  query_entry name arg = Throw e → is_TypeError e.
Proof.
  unfold query_entry. destruct (JS.truthy arg); [|done].
  destruct (JS.to_string arg) eqn:E; [done|].
  intros [= <-]. by eapply to_string_TypeError.
Qed.

Lemma query_entries_TypeError limit source e :
  query_entries limit source = Throw e → is_TypeError e.
Proof.
  unfold query_entries.
  destruct (query_entry "limit" _) eqn:El.
  - destruct (query_entry "source" _) eqn:Es; [done|].
    intros [= <-]. by eapply query_entry_TypeError.
  - intros [= <-]. by eapply query_entry_TypeError.
Qed.

Lemma sent_nothing w : sent w w = [].
Proof. unfold sent, new_events. by rewrite drop_all. Qed.

(** C9, as the code has it.  When the truthy ones of its arguments have a
    string form, [fetchRecentEnrollments] sends one read.  It carries the
    header [X-Admin-Key], with the admin key as its value, if and only if
    an admin key is configured when the call is made.  Its query string
    holds [limit] if and only if the argument is [undefined], for which the
    default 10 stands in, or truthy, and [source] if and only if that
    argument is truthy; with neither there is no query string.  When a
    truthy argument has no string form, the call is rejected with the
    [TypeError] of the conversion and nothing is sent. *)
Theorem recent_enrollments_request limit source w :
  wf_world w →
  settles (fetchRecentEnrollments net limit source) w (fun c w' =>
    match query_entries limit source with
    | Normal q =>
        (∃ rq, sent w w' = [rq] ∧ method rq = "GET" ∧
               url rq = API_BASE w +:+ "/enrollments/recent" +:+ query_suffix q ∧
               headers rq !! "X-Admin-Key"
               = (if JS.truthy (ADMIN_KEY w) then Some (ADMIN_KEY w) else None)) ∧
        ("limit" ∈ map fst q ↔ limit = JUndefined ∨ JS.truthy limit = true) ∧
        ("source" ∈ map fst q ↔ JS.truthy source = true) ∧
        (q = [] ↔ JS.truthy (effective_limit limit) = false ∧
                  JS.truthy source = false) ∧
        (q = [] → query_suffix q = EmptyString)
    | Throw e => c = Throw e ∧ is_TypeError e ∧ sent w w' = [] ∧ w' = w
    end) ∧
  ((∃ q, query_entries limit source = Normal q) ↔
   (JS.truthy (effective_limit limit) = true →
    printable (effective_limit limit) = true) ∧
   (JS.truthy source = true → printable source = true)).
Proof.
  intros Hwf. split.
  - unfold settles. rewrite recent_unfold.
    destruct (query_entries limit source) as [q|e] eqn:Hq.
    + apply settles_substitute.
      rewrite httpGet_exchange. eapply settles_mono; [|by apply exchange_call].
      intros c w' (Hsent & _ & _ & _ & _).
      split; [|split; [|split; [|split]]].
      * eexists. split; [exact Hsent|]. split; [reflexivity|].
        split; [reflexivity|].
        cbn [request_of headers opt_headers default id]. unfold recent_headers.
        rewrite lookup_union.
        destruct (JS.truthy (ADMIN_KEY w)).
        -- rewrite lookup_insert_eq. by rewrite lookup_singleton_ne.
        -- rewrite lookup_empty. by rewrite lookup_singleton_ne.
      * rewrite <- effective_limit_truthy. revert Hq.
        unfold query_entries, query_entry.
        destruct (JS.truthy (effective_limit limit)),
                 (JS.to_string (effective_limit limit)),
                 (JS.truthy source), (JS.to_string source);
          intros [= <-]; cbn [app map fst]; rewrite list_elem_of_In; cbn [In];
          intuition discriminate.
      * revert Hq. unfold query_entries, query_entry.
        destruct (JS.truthy (effective_limit limit)),
                 (JS.to_string (effective_limit limit)),
                 (JS.truthy source), (JS.to_string source);
          intros [= <-]; cbn [app map fst]; rewrite list_elem_of_In; cbn [In];
          intuition discriminate.
      * revert Hq. unfold query_entries, query_entry.
        destruct (JS.truthy (effective_limit limit)),
                 (JS.to_string (effective_limit limit)),
                 (JS.truthy source), (JS.to_string source);
          intros [= <-]; cbn [app]; intuition discriminate.
      * by intros ->.
    + split; [done|]. split; [by eapply query_entries_TypeError|].
      split; [apply sent_nothing|done].
  - unfold query_entries, query_entry, printable.
    destruct (JS.truthy (effective_limit limit)),
             (JS.to_string (effective_limit limit)),
             (JS.truthy source), (JS.to_string source);
      split; try (intros [q [=]]); try (by eauto);
      intros [H1 H2]; try (by specialize (H1 eq_refl));
      try (by specialize (H2 eq_refl)).
Qed.

(** ** All of them *)


Lemma stable_refl w : wf_world w → stable w w.
Proof. done. Qed.

(** The operations leave the world well formed and the configuration
    alone, so the hypotheses of the statements above hold again for the
    next call. *)
Lemma operations_keep_the_world limit source payload utterance w :
  wf_world w →
  settles (fetchCourses net) w (fun _ w' => stable w w') ∧
  settles (fetchFaqs net) w (fun _ w' => stable w w') ∧
  settles (fetchRecentEnrollments net limit source) w (fun _ w' => stable w w') ∧
  settles (createEnrollment net payload) w (fun _ w' => stable w w') ∧
  settles (pingHealth net) w (fun _ w' => stable w w') ∧
  settles (askBackend net utterance) w (fun _ w' => stable w w').
Proof.
  intros Hwf.
  assert (Hget : ∀ path o,
            settles (httpGet net path o) w (fun _ w' => stable w w')).
  { intros path o. rewrite httpGet_exchange.
    eapply settles_mono; [|by apply exchange_call].
    by intros c w' (_ & ? & ? & ? & _). }
  assert (Hpost : ∀ path body o,
            settles (httpPost net path body o) w (fun _ w' => stable w w')).
  { intros path body o. rewrite httpPost_exchange.
    eapply settles_mono; [|by apply exchange_call].
    by intros c w' (_ & ? & ? & ? & _). }
  assert (Hsub : ∀ (call : M outcome) msg,
            settles call w (fun _ w' => stable w w') →
            settles (let* res := call in
                     Async.ret (if ok res then res else failure (JStr msg))) w
              (fun _ w' => stable w w')).
  { intros call msg H. apply settles_bind. eapply settles_mono; [|exact H].
    by intros [res|e] w'. }
  assert (Hcourses : settles (fetchCourses net) w (fun _ w' => stable w w'))
    by apply Hsub, Hget.
  assert (Hfaqs : settles (fetchFaqs net) w (fun _ w' => stable w w'))
    by apply Hsub, Hget.
  repeat apply conj; try done.
  - unfold settles. rewrite recent_unfold.
    destruct (query_entries limit source) as [q|e]; [|by apply stable_refl].
    apply Hsub, Hget.
  - apply Hsub, Hpost.
  - apply Hget.
  - unfold settles. rewrite askBackend_unfold.
    destruct (JS.to_string _) as [text|e]; [|by apply stable_refl].
    destruct (Str.includes "course" _); [|destruct (Str.includes "faq" _)].
    + apply settles_bind. unfold fetchCoursesText. apply settles_bind.
      eapply settles_mono; [|exact Hcourses].
      intros [r|e] w' Hst; [|done].
      destruct (negb (ok r)); [done|].
      unfold settles, Async.of_completion. by destruct (coursesToText (data_of r)).
    + apply settles_bind. unfold fetchFaqsText. apply settles_bind.
      eapply settles_mono; [|exact Hfaqs].
      intros [r|e] w' Hst; [|done].
      destruct (negb (ok r)); [done|].
      unfold settles, Async.of_completion. by destruct (faqsToText (data_of r)).
    + apply settles_bind. eapply settles_mono; [|apply Hpost].
      intros [res|e] w' Hst; [|done]. by destruct (negb (ok res)).
Qed.

Lemma config_ok_initial : config_ok initial_world.
Proof. by left. Qed.

Lemma config_ok_stable w w' : stable w w' → config_ok w → config_ok w'.
Proof. intros (_ & _ & Hkey). unfold config_ok. by rewrite Hkey. Qed.

Lemma setApiBase_frame url w :
  now (snd (setApiBase url w)) = now w ∧
  signals (snd (setApiBase url w)) = signals w ∧
  timers (snd (setApiBase url w)) = timers w ∧
  next_timer (snd (setApiBase url w)) = next_timer w ∧
  ADMIN_KEY (snd (setApiBase url w)) = ADMIN_KEY w ∧
  log (snd (setApiBase url w)) = log w.
Proof. unfold setApiBase. by destruct (JS.to_string _). Qed.

Lemma setters_keep_wf url key w :
  wf_world w → wf_world (snd (setApiBase url w)) ∧ wf_world (setAdminKey key w).
Proof.
  intros Hwf. split; [|done]. unfold wf_world.
  destruct (setApiBase_frame url w) as (_ & _ & -> & -> & _). exact Hwf.
Qed.

End Operations.

(** C9 as stated fails: called without arguments, [limit] is [undefined],
    which is falsy, and the request still has [limit=10] in its query.  And
    a truthy [limit] without a string form is in no query: the call is
    rejected before anything is sent. *)
Lemma default_limit_is_sent :
  JS.truthy JUndefined = false ∧
  (λ w', url <$> sent initial_world w') <$>
    (snd <$> fetchRecentEnrollments (answers (json_response 200 "OK" (JArr [])))
               JUndefined JUndefined initial_world)
  = Some ["https://bcm-demo.onrender.com/enrollments/recent?limit=10"] ∧
  JS.truthy stubborn = true ∧
  fetchRecentEnrollments (answers (json_response 200 "OK" (JArr [])))
    stubborn JUndefined initial_world
  = Some (Throw JS.NOT_PRIMITIVE, initial_world).
Proof.
  split; [reflexivity|]. split; [vm_compute; reflexivity|].
  split; reflexivity.
Qed.

(** * The formatters, the requests and the clock *)

(** ** The formatters *)

Section Formatters.

Lemma get_prop_field v name :
  JS.is_nullish v = false → JS.get_prop v name = Normal (field v name).
Proof. by destruct v. Qed.

Lemma get_prop_nullish v name :
  JS.is_nullish v = true → ∃ e, JS.get_prop v name = Throw e ∧ is_TypeError e.
Proof. destruct v; try done; intros _; eexists; (split; [done|by eexists]). Qed.

Lemma to_string_text v : printable v = true → JS.to_string v = Normal (text v).
Proof. unfold printable, text. by destruct (JS.to_string v). Qed.

Lemma to_string_unprintable v :
  printable v = false → ∃ e, JS.to_string v = Throw e ∧ is_TypeError e.
Proof.
  unfold printable. destruct (JS.to_string v) as [s|e] eqn:E; [done|].
  intros _. exists e. split; [done|]. by eapply to_string_TypeError.
Qed.

(** Mapping a callback that gives its line on the entries that are in
    order and throws a [TypeError] on the others. *)
Lemma map_completion_lines {A B} (line : A → completion B) (ok : A → bool)
    (g : A → B) xs :
  (∀ x, x ∈ xs → ok x = true → line x = Normal (g x)) →
  (∀ x, x ∈ xs → ok x = false → ∃ e, line x = Throw e ∧ is_TypeError e) →
  if forallb ok xs then map_completion line xs = Normal (map g xs)
  else ∃ e, map_completion line xs = Throw e ∧ is_TypeError e.
Proof.
  induction xs as [|x xs IH]; intros Hok Hbad; [done|].
  cbn [forallb map_completion map].
  assert (IH' := IH (fun y Hy => Hok y (list_elem_of_further _ _ _ Hy))
                    (fun y Hy => Hbad y (list_elem_of_further _ _ _ Hy))).
  destruct (ok x) eqn:Hx; cbn [andb].
  - rewrite (Hok x (list_elem_of_here _ _) Hx). cbn [cbind].
    destruct (forallb ok xs).
    + by rewrite IH'.
    + destruct IH' as (e & -> & He). by exists e.
  - destruct (Hbad x (list_elem_of_here _ _) Hx) as (e & -> & He). by exists e.
Qed.

Lemma map_completion_map {A B C} (f : B → completion C) (h : A → B) xs :
  map_completion f (map h xs) = map_completion (fun x => f (h x)) xs.
Proof. induction xs as [|x xs IH]; [done|]. simpl. by rewrite IH. Qed.

Lemma join_strings sep (ss : list string) :
  JS.join sep (map JStr ss) = Normal (Str.join sep ss).
Proof.
  unfold JS.join. rewrite map_completion_map.
  rewrite (map_completion_total _ (fun s => s)); [|by apply Forall_true].
  cbn [cbind]. by rewrite map_id.
Qed.

Lemma faq_line_ok f : faq_ok f = true → faq_line f = Normal (JStr (faq_text f)).
Proof.
  unfold faq_ok, faq_line, faq_text.
  intros [[Hf Hq]%andb_prop Ha]%andb_prop. apply negb_true_iff in Hf.
  rewrite !get_prop_field by done. cbn [cbind].
  by rewrite !to_string_text.
Qed.

Lemma faq_line_bad f :
  faq_ok f = false → ∃ e, faq_line f = Throw e ∧ is_TypeError e.
Proof.
  unfold faq_ok, faq_line. intros H.
  destruct (JS.is_nullish f) eqn:Hf.
  { destruct (get_prop_nullish f "question" Hf) as (e & -> & He). by exists e. }
  rewrite !get_prop_field by done. cbn [cbind negb andb] in *.
  destruct (printable (field f "question")) eqn:Hq.
  - rewrite (to_string_text _ Hq). cbn [cbind andb] in *.
    destruct (to_string_unprintable _ H) as (e & -> & He). by exists e.
  - destruct (to_string_unprintable _ Hq) as (e & -> & He). by exists e.
Qed.

Lemma enrollment_line_ok e :
  enrollment_ok e = true → enrollment_line e = Normal (JStr (enrollment_text e)).
Proof.
  unfold enrollment_ok, enrollment_line, enrollment_text.
  intros [[[He Hn]%andb_prop Hp]%andb_prop Hc]%andb_prop.
  apply negb_true_iff in He.
  rewrite !get_prop_field by done. cbn [cbind].
  by rewrite !to_string_text.
Qed.

Lemma enrollment_line_bad e :
  enrollment_ok e = false → ∃ x, enrollment_line e = Throw x ∧ is_TypeError x.
Proof.
  unfold enrollment_ok, enrollment_line. intros H.
  destruct (JS.is_nullish e) eqn:He.
  { destruct (get_prop_nullish e "full_name" He) as (x & -> & Hx). by exists x. }
  rewrite !get_prop_field by done. cbn [cbind negb andb] in *.
  destruct (printable (field e "full_name")) eqn:Hn.
  - rewrite (to_string_text _ Hn). cbn [cbind andb] in *.
    destruct (printable (JS.or_else (field e "program_code") (JStr "a course")))
      eqn:Hp.
    + rewrite (to_string_text _ Hp). cbn [cbind andb] in *.
      destruct (to_string_unprintable _ H) as (x & -> & Hx). by exists x.
    + destruct (to_string_unprintable _ Hp) as (x & -> & Hx). by exists x.
  - destruct (to_string_unprintable _ Hn) as (x & -> & Hx). by exists x.
Qed.

Lemma faqsToText_lines data :
  match data with
  | JArr (f :: fs) =>
      if forallb faq_ok (f :: fs)
      then faqsToText data
           = Normal (Str.join Str.nl (map faq_text (f :: fs)))
      else ∃ e, faqsToText data = Throw e ∧ is_TypeError e
  | _ => faqsToText data = Normal NO_FAQS
  end.
Proof.
  destruct data as [| | | | |[|f fs]|]; try reflexivity.
  unfold faqsToText. cbn [length Nat.eqb].
  pose proof (map_completion_lines faq_line faq_ok
                (fun x => JStr (faq_text x)) (f :: fs)
                (fun x _ => faq_line_ok x) (fun x _ => faq_line_bad x)) as H.
  destruct (forallb faq_ok (f :: fs)).
  - rewrite H. cbn [cbind].
    by rewrite <- (map_map faq_text JStr), join_strings.
  - destruct H as (e & -> & He). by exists e.
Qed.

Lemma enrollmentsToText_lines data :
  match data with
  | JArr (e :: es) =>
      if forallb enrollment_ok (e :: es)
      then enrollmentsToText data
           = Normal (Str.join Str.nl (map enrollment_text (e :: es)))
      else ∃ x, enrollmentsToText data = Throw x ∧ is_TypeError x
  | _ => enrollmentsToText data = Normal NO_ENROLLMENTS
  end.
Proof.
  destruct data as [| | | | |[|e es]|]; try reflexivity.
  unfold enrollmentsToText. cbn [length Nat.eqb].
  pose proof (map_completion_lines enrollment_line enrollment_ok
                (fun x => JStr (enrollment_text x)) (e :: es)
                (fun x _ => enrollment_line_ok x)
                (fun x _ => enrollment_line_bad x)) as H.
  destruct (forallb enrollment_ok (e :: es)).
  - rewrite H. cbn [cbind].
    by rewrite <- (map_map enrollment_text JStr), join_strings.
  - destruct H as (x & -> & Hx). by exists x.
Qed.

(** The line of a course that is not [null] is not [null] either: a truthy
    summary, or the JSON text of the course. *)
Lemma course_text_defined c :
  JS.is_nullish c = false → JS.is_nullish (course_text c) = false.
Proof.
  intros Hc. unfold course_text, JS.or_else.
  destruct (JS.truthy (summary_of c)) eqn:Hs.
  - by destruct (summary_of c).
  - unfold JS.JSON_stringify. by destruct c.
Qed.

Lemma courses_join cs :
  Forall (fun c => JS.is_nullish c = false) cs →
  if forallb course_ok cs
  then JS.join Str.nl (map course_text cs)
       = Normal (Str.join Str.nl (map (fun c => text (course_text c)) cs))
  else ∃ e, JS.join Str.nl (map course_text cs) = Throw e ∧ is_TypeError e.
Proof.
  intros Hcs. rewrite Forall_forall in Hcs. unfold JS.join.
  rewrite map_completion_map.
  assert (Hok : ∀ c, c ∈ cs → course_ok c = true →
                     JS.element_text (course_text c)
                     = Normal (text (course_text c))).
  { intros c Hin [_ Hp]%andb_prop. unfold JS.element_text.
    rewrite course_text_defined by (by apply Hcs). by apply to_string_text. }
  assert (Hbad : ∀ c, c ∈ cs → course_ok c = false →
                      ∃ e, JS.element_text (course_text c) = Throw e ∧
                           is_TypeError e).
  { intros c Hin Hc. unfold JS.element_text.
    rewrite course_text_defined by (by apply Hcs).
    apply to_string_unprintable. unfold course_ok in Hc.
    by rewrite (Hcs c Hin) in Hc. }
  pose proof (map_completion_lines
                (fun c => JS.element_text (course_text c)) course_ok
                (fun c => text (course_text c)) cs Hok Hbad) as H.
  destruct (forallb course_ok cs).
  - by rewrite H.
  - destruct H as (e & -> & He). by exists e.
Qed.

Lemma some_nullish xs :
  forallb (fun c => negb (JS.is_nullish c)) xs = false →
  Exists (fun x => JS.is_nullish x = true) xs.
Proof.
  induction xs as [|x xs IH]; [done|]. simpl.
  destruct (JS.is_nullish x) eqn:Hx; [by left|]. intros H. right. by apply IH.
Qed.

Lemma coursesToText_lines data :
  match course_list data with
  | Some (c :: cs) =>
      if forallb course_ok (c :: cs)
      then coursesToText data
           = Normal (Str.join Str.nl
                       (map (fun c => text (course_text c)) (c :: cs)))
      else ∃ e, coursesToText data = Throw e ∧ is_TypeError e
  | _ => coursesToText data = Normal NO_COURSES
  end.
Proof.
  unfold coursesToText, course_list.
  destruct data as [| |b|n|s|xs|props]; try done.
  - by destruct (negb (JS.truthy (JBool b))).
  - by destruct (negb (JS.truthy (JNum n))).
  - by destruct (negb (JS.truthy (JStr s))).
  - cbn [JS.truthy negb JS.get_prop cbind].
    destruct (JS.assoc "courses" props) as [[| |b|n|s|cs|ps]|]; try done.
    cbn [default id]. destruct cs as [|c cs]; [done|].
    destruct (forallb (fun c => negb (JS.is_nullish c)) (c :: cs)) eqn:Hnn.
    + assert (Hall : Forall (fun c => JS.is_nullish c = false) (c :: cs)).
      { apply Forall_forall. intros x Hx.
        rewrite forallb_forall in Hnn. apply negb_true_iff, Hnn.
        by apply list_elem_of_In. }
      rewrite (map_completion_total course_line course_text).
      2:{ eapply Forall_impl; [exact Hall|]. intros x. apply course_line_text. }
      cbn [cbind]. rewrite length_map. cbn [length Nat.eqb negb].
      apply (courses_join (c :: cs) Hall).
    + assert (Hbad : forallb course_ok (c :: cs) = false).
      { apply not_true_iff_false. intros H. rewrite forallb_forall in H.
        apply not_true_iff_false in Hnn. apply Hnn, forallb_forall.
        intros x Hx. specialize (H x Hx). unfold course_ok in H.
        by apply andb_prop in H as [H _]. }
      rewrite Hbad.
      destruct (course_line_nullish (c :: cs)) as (e & -> & He); [|by exists e].
      by apply some_nullish.
Qed.

(** X1.  [faqsToText] on every input: the fixed sentence for anything but
    a non-empty array; for a non-empty array whose entries can all be
    printed (none is [null] or [undefined], and the [question] and
    [answer] of each have a string form) one line [question: answer] per
    entry, joined by newlines, a missing field printing as [undefined];
    for any other array a [TypeError]. *)
Theorem faqsToText_on_every_input data :
  match data with
  | JArr (f :: fs) =>
      if forallb faq_ok (f :: fs)
      then faqsToText data
           = Normal (Str.join Str.nl (map faq_text (f :: fs)))
      else ∃ e, faqsToText data = Throw e ∧ is_TypeError e
  | _ => faqsToText data = Normal NO_FAQS
  end.
Proof. apply faqsToText_lines. Qed.

(** X2.  [enrollmentsToText] on every input: the fixed sentence for
    anything but a non-empty array; for a non-empty array whose entries
    can all be printed one line per entry, in which a missing or falsy
    [program_code] reads [a course]; for any other array a [TypeError]. *)
Theorem enrollmentsToText_on_every_input data :
  match data with
  | JArr (e :: es) =>
      if forallb enrollment_ok (e :: es)
      then enrollmentsToText data
           = Normal (Str.join Str.nl (map enrollment_text (e :: es)))
      else ∃ x, enrollmentsToText data = Throw x ∧ is_TypeError x
  | _ => enrollmentsToText data = Normal NO_ENROLLMENTS
  end.
Proof. apply enrollmentsToText_lines. Qed.

(** X3.  [coursesToText] on every input: the fixed sentence for an input
    that is falsy or has no array, or an empty one, under [courses]; for a
    non-empty array whose courses can all be printed the lines joined by
    newlines, the line of a course being its [summary] when that is truthy
    and the JSON text of the course when the summary is missing or falsy;
    for any other array a [TypeError]. *)
Theorem coursesToText_on_every_input data :
  match course_list data with
  | Some (c :: cs) =>
      if forallb course_ok (c :: cs)
      then coursesToText data
           = Normal (Str.join Str.nl
                       (map (fun c => text (course_text c)) (c :: cs)))
      else ∃ e, coursesToText data = Throw e ∧ is_TypeError e
  | _ => coursesToText data = Normal NO_COURSES
  end.
Proof. apply coursesToText_lines. Qed.

Lemma coursesToText_throw data e :
  coursesToText data = Throw e → is_TypeError e.
Proof.
  pose proof (coursesToText_lines data) as H.
  destruct (course_list data) as [[|c cs]|]; try congruence.
  destruct (forallb course_ok (c :: cs)); [congruence|].
  destruct H as (e' & -> & He). by intros [= <-].
Qed.

Lemma faqsToText_throw data e : faqsToText data = Throw e → is_TypeError e.
Proof.
  pose proof (faqsToText_lines data) as H.
  destruct data as [| | | | |[|f fs]|]; try congruence.
  destruct (forallb faq_ok (f :: fs)); [congruence|].
  destruct H as (e' & -> & He). by intros [= <-].
Qed.

Lemma enrollmentsToText_throw data e :
  enrollmentsToText data = Throw e → is_TypeError e.
Proof.
  pose proof (enrollmentsToText_lines data) as H.
  destruct data as [| | | | |[|f fs]|]; try congruence.
  destruct (forallb enrollment_ok (f :: fs)); [congruence|].
  destruct H as (e' & -> & He). by intros [= <-].
Qed.

(** The examples of the specification, and entries that cannot be
    printed. *)
Lemma formatter_examples :
  faqsToText (JArr [JObj [("question", JStr "Q1"); ("answer", JStr "A1")]])
  = Normal "Q1: A1" ∧
  enrollmentsToText
    (JArr [JObj [("full_name", JStr "Ann"); ("created_at", JStr "2024-05-01")];
           JObj [("full_name", JStr "Bob"); ("program_code", JStr "MBA");
                 ("created_at", JStr "2024-05-02")]])
  = Normal ("Ann enrolled in a course on 2024-05-01" +:+ Str.nl +:+
            "Bob enrolled in MBA on 2024-05-02") ∧
  faqsToText (JArr [JObj [("question", JStr "Q1")]]) = Normal "Q1: undefined" ∧
  faqsToText (JArr [JObj [("question", stubborn); ("answer", JStr "A1")]])
  = Throw JS.NOT_PRIMITIVE ∧
  coursesToText (JObj [("courses", JArr [JObj [("summary", stubborn)]])])
  = Throw JS.NOT_PRIMITIVE ∧
  coursesToText (JObj [("courses", JArr [JObj [("summary", JStr EmptyString)];
                                         JObj [("summary", JNum (10 ^ 21))]])])
  = Normal ("{" +:+ JS.quote "summary" +:+ ":" +:+ JS.quote EmptyString +:+ "}"
            +:+ Str.nl +:+ "1e+21").
Proof. repeat split; vm_compute; reflexivity. Qed.

End Formatters.

(** ** The router *)

Section Router.

Variable net : request → net_behaviour.

Lemma prefix_append s t : String.prefix s (s +:+ t) = true.
Proof.
  induction s as [|c s IH]; simpl; [by destruct t|].
  destruct (ascii_dec c c); [exact IH|done].
Qed.

Lemma prefix_split s h : String.prefix s h = true → ∃ t, h = s +:+ t.
Proof.
  revert h. induction s as [|c s IH]; intros h.
  - intros _. by exists h.
  - destruct h as [|c' h]; simpl; [done|].
    destruct (ascii_dec c c') as [<-|]; [|done].
    intros H. destruct (IH h H) as [t ->]. by exists t.
Qed.

Lemma includes_unfold needle hay :
  Str.includes needle hay
  = String.prefix needle hay ||
    match hay with
    | EmptyString => false
    | String _ rest => Str.includes needle rest
    end.
Proof. by destruct hay. Qed.

(** [includes] finds the needle wherever it is, and nowhere else. *)
Lemma includes_spec needle hay :
  Str.includes needle hay = true ↔ ∃ a b, hay = a +:+ needle +:+ b.
Proof.
  split.
  - induction hay as [|c hay IH]; rewrite includes_unfold; intros H;
      apply orb_true_iff in H as [H|H]; try done.
    + apply prefix_split in H as [t ->]. by exists EmptyString, t.
    + apply prefix_split in H as [t ->]. by exists EmptyString, t.
    + destruct (IH H) as (a & b & ->). by exists (String c a), b.
  - intros (a & b & ->). induction a as [|c a IH].
    + change (EmptyString +:+ needle +:+ b) with (needle +:+ b).
      by rewrite includes_unfold, prefix_append.
    + change (String c a +:+ needle +:+ b) with (String c (a +:+ needle +:+ b)).
      by rewrite includes_unfold, IH, orb_true_r.
Qed.

Lemma toLowerCase_app a b :
  Str.toLowerCase (a +:+ b) = Str.toLowerCase a +:+ Str.toLowerCase b.
Proof. induction a as [|c a IH]; simpl; [done|by rewrite IH]. Qed.

Lemma toLowerCase_cut s u v :
  Str.toLowerCase s = u +:+ v →
  ∃ s1 s2, s = s1 +:+ s2 ∧ Str.toLowerCase s1 = u ∧ Str.toLowerCase s2 = v.
Proof.
  revert s. induction u as [|c u IH]; intros s H.
  - by exists EmptyString, s.
  - destruct s as [|d s]; [done|]. simpl in H. injection H as Hc Hs.
    destruct (IH s Hs) as (s1 & s2 & -> & H1 & H2).
    exists (String d s1), s2. simpl. by rewrite Hc, H1.
Qed.

(** A part of the lower-cased string comes from a part of the string. *)
Lemma toLowerCase_split s a' x' b' :
  Str.toLowerCase s = a' +:+ x' +:+ b' →
  ∃ a x b, s = a +:+ x +:+ b ∧ Str.toLowerCase x = x'.
Proof.
  intros H. apply toLowerCase_cut in H as (a & r & -> & _ & Hr).
  apply toLowerCase_cut in Hr as (x & b & -> & Hx & _).
  by exists a, x, b.
Qed.

Lemma keyword_found kw s :
  Str.includes kw (Str.toLowerCase s) = true ↔
  ∃ a x b, s = a +:+ x +:+ b ∧ Str.toLowerCase x = kw.
Proof.
  rewrite includes_spec. split.
  - intros (a' & b' & H). by apply toLowerCase_split in H.
  - intros (a & x & b & -> & Hx).
    exists (Str.toLowerCase a), (Str.toLowerCase b).
    by rewrite !toLowerCase_app, Hx.
Qed.

(** X4.  The router looks for its keywords in any letter case and at any
    place.  A string with a part that lower-cases to [course] goes to the
    courses text operation, whatever surrounds the part ([Discourse],
    [COURSEWARE]); one with a part that lower-cases to [faq] and none that
    lower-cases to [course] goes to the FAQs text operation; a string is
    sent to [/chat] only when it has neither. *)
Theorem keywords_match_in_any_case_anywhere s w :
  ((∃ a x b, s = a +:+ x +:+ b ∧ Str.toLowerCase x = "course") →
   askBackend net (JStr s) w
   = (let* t := fetchCoursesText net in Async.ret (success (JStr t))) w) ∧
  ((∃ a x b, s = a +:+ x +:+ b ∧ Str.toLowerCase x = "faq") →
   (¬ ∃ a x b, s = a +:+ x +:+ b ∧ Str.toLowerCase x = "course") →
   askBackend net (JStr s) w
   = (let* t := fetchFaqsText net in Async.ret (success (JStr t))) w) ∧
  ((¬ ∃ a x b, s = a +:+ x +:+ b ∧ Str.toLowerCase x = "course") →
   (¬ ∃ a x b, s = a +:+ x +:+ b ∧ Str.toLowerCase x = "faq") →
   askBackend net (JStr s) w
   = (let* res := httpPost net "/chat" (JObj [("message", JStr s)]) no_options in
      if negb (ok res)
      then Async.ret (failure (JStr "Chat service is unavailable."))
      else Async.ret res) w).
Proof.
  rewrite <- !keyword_found. rewrite askBackend_unfold, string_utterance.
  repeat apply conj.
  - by intros ->.
  - intros -> Hno. by destruct (Str.includes "course" _).
  - intros Hc Hf.
    destruct (Str.includes "course" _); [done|].
    by destruct (Str.includes "faq" _).
Qed.

End Router.

(** ** The requests *)

Section Requests.

Variable net : request → net_behaviour.

Lemma merged_lookup (given defaults : gmap string value) k :
  (given ∪ defaults) !! k = merged_header given defaults k.
Proof.
  unfold merged_header. rewrite lookup_union.
  by destruct (given !! k), (defaults !! k).
Qed.

Lemma stringify_defined v : v ≠ JUndefined → is_Some (JS.stringify v).
Proof. destruct v; simpl; by eauto. Qed.

Lemma payload_text body :
  ∃ text, JS.stringify (JS.or_else body (JObj [])) = Some text ∧
          (JS.truthy body = false → text = "{}") ∧
          (JS.truthy body = true → JS.stringify body = Some text).
Proof.
  unfold JS.or_else. destruct (JS.truthy body) eqn:Hb.
  - destruct (stringify_defined body) as [text Ht]; [by destruct body|].
    exists text. by rewrite Ht.
  - by exists "{}".
Qed.

(** X5.  What the two transports send.  [httpGet] sends one [GET] to the
    base URL followed by the path, without a body; [httpPost] one [POST]
    whose body is always there: the JSON text of the payload, and [{}] for
    a payload that is missing or falsy.  In both the headers are the
    caller's, and [Accept] (and for [httpPost] [Content-Type]) is
    [application/json] unless the caller gave that name. *)
Theorem transport_request_anatomy path payload o w :
  wf_world w →
  settles (httpGet net path o) w (fun _ w' =>
    ∃ rq, sent w w' = [rq] ∧ method rq = "GET" ∧
          url rq = API_BASE w +:+ path ∧ body rq = None ∧
          ∀ k, headers rq !! k
               = merged_header (default ∅ (opt_headers o))
                   {[ "Accept" := JStr "application/json" ]} k) ∧
  settles (httpPost net path payload o) w (fun _ w' =>
    ∃ rq text, sent w w' = [rq] ∧ method rq = "POST" ∧
          url rq = API_BASE w +:+ path ∧ body rq = Some text ∧
          (JS.truthy payload = false → text = "{}") ∧
          (JS.truthy payload = true → JS.stringify payload = Some text) ∧
          ∀ k, headers rq !! k
               = merged_header (default ∅ (opt_headers o))
                   {[ "Content-Type" := JStr "application/json";
                      "Accept" := JStr "application/json" ]} k).
Proof.
  intros Hwf. split.
  - rewrite httpGet_exchange. eapply settles_mono; [|by apply exchange_call].
    intros c w' (Hsent & _). eexists. split; [exact Hsent|].
    repeat split. intros k. apply merged_lookup.
  - rewrite httpPost_exchange. eapply settles_mono; [|by apply exchange_call].
    intros c w' (Hsent & _).
    destruct (payload_text payload) as (text & Ht & Hfalsy & Htruthy).
    eexists _, text. split; [exact Hsent|].
    split; [reflexivity|]. split; [reflexivity|]. split; [exact Ht|].
    split; [exact Hfalsy|]. split; [exact Htruthy|].
    intros k. apply merged_lookup.
Qed.

Lemma transport_settles path payload o w (Q : completion outcome → world → Prop) :
  wf_world w →
  (∀ c w', Q c w') →
  settles (httpGet net path o) w Q ∧ settles (httpPost net path payload o) w Q.
Proof.
  intros Hwf HQ. rewrite httpGet_exchange, httpPost_exchange.
  split; (eapply settles_mono; [|by apply exchange_call]); intros; apply HQ.
Qed.

Lemma fails_with_substituted msg c : fails_with msg (substituted msg c).
Proof. destruct c as [res|e]; [|done]. simpl. destruct (ok res) eqn:E; auto. Qed.

(** X6.  A structured operation that returns a failure returns its own
    fixed message: whatever made the transport fail, [fetchCourses],
    [fetchFaqs], [fetchRecentEnrollments] and [createEnrollment] hand on
    nothing of it, and [askBackend] fails with the chat message only. *)
Theorem failures_carry_the_fixed_message limit source payload utterance w :
  wf_world w →
  settles (fetchCourses net) w (fun c _ =>
    fails_with "Live system is unreachable. Please try again later." c) ∧
  settles (fetchFaqs net) w (fun c _ =>
    fails_with "FAQs are not available right now." c) ∧
  settles (fetchRecentEnrollments net limit source) w (fun c _ =>
    fails_with "Unable to retrieve recent enrollments." c) ∧
  settles (createEnrollment net payload) w (fun c _ =>
    fails_with "Unable to create enrollment. Please try again." c) ∧
  settles (askBackend net utterance) w (fun c _ =>
    fails_with "Chat service is unavailable." c).
Proof.
  intros Hwf.
  assert (Hsub : ∀ (call : M outcome) msg,
            settles call w (fun _ _ => True) →
            settles (let* res := call in
                     Async.ret (if ok res then res else failure (JStr msg))) w
              (fun c _ => fails_with msg c)).
  { intros call msg H. apply settles_substitute.
    eapply settles_mono; [|exact H]. intros c w' _.
    apply (fails_with_substituted msg c). }
  assert (Hget : ∀ path o, settles (httpGet net path o) w (fun _ _ => True))
    by (intros; by apply (transport_settles path JNull o w)).
  assert (Hpost : ∀ path p o, settles (httpPost net path p o) w (fun _ _ => True))
    by (intros; by apply (transport_settles path p o w)).
  repeat apply conj.
  - apply Hsub, Hget.
  - apply Hsub, Hget.
  - unfold settles. rewrite recent_unfold.
    destruct (query_entries limit source) as [q|e]; [|done].
    apply Hsub, Hget.
  - apply Hsub, Hpost.
  - unfold settles. rewrite askBackend_unfold.
    destruct (JS.to_string _) as [text|e]; [|done].
    destruct (Str.includes "course" _); [|destruct (Str.includes "faq" _)].
    + apply settles_wrap_text.
      eapply settles_mono; [|by apply (fetchCoursesText_call net)].
      intros [t|e] w' _; [by left|done].
    + apply settles_wrap_text.
      eapply settles_mono; [|by apply (fetchFaqsText_call net)].
      intros [t|e] w' _; [by left|done].
    + apply settles_bind. eapply settles_mono; [|apply Hpost].
      intros [res|e] w' _; [|done].
      destruct (ok res) eqn:E; cbn [negb]; unfold settles, Async.ret; simpl; auto.
Qed.

Lemma exn_message_throw e e' : JS.exn_message e = Throw e' → is_TypeError e'.
Proof. destruct e as [|[]]; try done; intros [= <-]; by eexists. Qed.

Lemma exn_to_string_throw e e' :
  JS.exn_to_string e = Throw e' → is_TypeError e'.
Proof. destruct e as [|v]; [done|]. apply to_string_TypeError. Qed.

(** What the [catch] clause throws is a [TypeError]: that of reading
    [message] from [null] or [undefined], or that of a string conversion
    that fails. *)
Lemma error_text_throw e e' : JS.error_text e = Throw e' → is_TypeError e'.
Proof.
  unfold JS.error_text.
  destruct (JS.exn_message e) as [m|e0] eqn:Hm;
    [|intros [= <-]; by eapply exn_message_throw].
  cbn [cbind]. destruct (JS.truthy m); [done|].
  destruct (JS.exn_to_string e) as [s|e0] eqn:Hs; [done|].
  intros [= <-]. by eapply exn_to_string_throw.
Qed.

Lemma exchange_throw meth path hdrs payload ms w e w' :
  exchange net meth path hdrs payload ms w = Some (Throw e, w') → is_TypeError e.
Proof.
  unfold exchange, Async.bind at 1, Async.call, Async.try_finally, Async.try_catch.
  destruct (exchange_try net meth path hdrs payload _ _) as [[[o|e0] w1]|]; try done.
  rewrite on_catch_run. unfold caught.
  destruct (JS.error_text e0) eqn:E; [done|].
  intros [= <- _]. by eapply error_text_throw.
Qed.

Lemma transport_TypeError path payload o w :
  wf_world w →
  settles (httpGet net path o) w (fun c _ => throws_TypeError_only c) ∧
  settles (httpPost net path payload o) w (fun c _ => throws_TypeError_only c).
Proof.
  intros Hwf.
  destruct (transport_settles path payload o w (fun _ _ => True) Hwf) as [Hg Hp];
    [done|].
  apply settles_inv in Hg as (c1 & w1 & H1 & _).
  apply settles_inv in Hp as (c2 & w2 & H2 & _).
  unfold settles. rewrite H1, H2.
  rewrite httpGet_exchange in H1. rewrite httpPost_exchange in H2.
  split.
  - destruct c1; [done|]. by eapply exchange_throw.
  - destruct c2; [done|]. by eapply exchange_throw.
Qed.

(** Whatever escapes an operation of the bridge is a [TypeError]: of the
    [catch] clause, of a formatter, or of the conversion of an argument. *)
Lemma escapes_are_TypeErrors limit source payload utterance w :
  wf_world w →
  settles (fetchCourses net) w (fun c _ => throws_TypeError_only c) ∧
  settles (fetchFaqs net) w (fun c _ => throws_TypeError_only c) ∧
  settles (fetchRecentEnrollments net limit source) w
    (fun c _ => throws_TypeError_only c) ∧
  settles (createEnrollment net payload) w (fun c _ => throws_TypeError_only c) ∧
  settles (pingHealth net) w (fun c _ => throws_TypeError_only c) ∧
  settles (fetchCoursesText net) w (fun c _ => throws_TypeError_only c) ∧
  settles (fetchFaqsText net) w (fun c _ => throws_TypeError_only c) ∧
  settles (askBackend net utterance) w (fun c _ => throws_TypeError_only c).
Proof.
  intros Hwf.
  assert (Hget : ∀ path o,
            settles (httpGet net path o) w (fun c _ => throws_TypeError_only c))
    by (intros; by apply (transport_TypeError path JNull o w)).
  assert (Hpost : ∀ path p o,
            settles (httpPost net path p o) w (fun c _ => throws_TypeError_only c))
    by (intros; by apply (transport_TypeError path p o w)).
  assert (Hsub : ∀ (call : M outcome) msg,
            settles call w (fun c _ => throws_TypeError_only c) →
            settles (let* res := call in
                     Async.ret (if ok res then res else failure (JStr msg))) w
              (fun c _ => throws_TypeError_only c)).
  { intros call msg H. apply settles_bind. eapply settles_mono; [|exact H].
    by intros [res|e] w'. }
  assert (Hcourses : settles (fetchCourses net) w
                       (fun c _ => throws_TypeError_only c)) by apply Hsub, Hget.
  assert (Hfaqs : settles (fetchFaqs net) w
                    (fun c _ => throws_TypeError_only c)) by apply Hsub, Hget.
  assert (HcoursesText : settles (fetchCoursesText net) w
                           (fun c _ => throws_TypeError_only c)).
  { unfold fetchCoursesText. apply settles_bind.
    eapply settles_mono; [|exact Hcourses]. intros [r|e] w' H; [|done].
    destruct (negb (ok r)); [done|]. unfold settles, Async.of_completion.
    destruct (coursesToText (data_of r)) eqn:E; [done|].
    by apply (coursesToText_throw _ _ E). }
  assert (HfaqsText : settles (fetchFaqsText net) w
                        (fun c _ => throws_TypeError_only c)).
  { unfold fetchFaqsText. apply settles_bind.
    eapply settles_mono; [|exact Hfaqs]. intros [r|e] w' H; [|done].
    destruct (negb (ok r)); [done|]. unfold settles, Async.of_completion.
    destruct (faqsToText (data_of r)) eqn:E; [done|].
    by apply (faqsToText_throw _ _ E). }
  repeat apply conj; try done.
  - unfold settles. rewrite recent_unfold.
    destruct (query_entries limit source) as [q|e] eqn:Hq;
      [|by eapply query_entries_TypeError].
    apply Hsub, Hget.
  - apply Hsub, Hpost.
  - apply Hget.
  - unfold settles. rewrite askBackend_unfold.
    destruct (JS.to_string _) as [text|e] eqn:Ht;
      [|by eapply to_string_TypeError].
    destruct (Str.includes "course" _); [|destruct (Str.includes "faq" _)].
    + apply settles_bind. eapply settles_mono; [|exact HcoursesText].
      by intros [t|e] w'.
    + apply settles_bind. eapply settles_mono; [|exact HfaqsText].
      by intros [t|e] w'.
    + apply settles_bind. eapply settles_mono; [|apply Hpost].
      intros [res|e] w' H; [|done]. by destruct (negb (ok res)).
Qed.

Lemma exchange_leaves meth path hdrs payload ms w :
  wf_world w →
  settles (exchange net meth path hdrs payload ms) w
    (fun _ w' => leaves (request_of meth path hdrs payload w) w w').
Proof.
  intros Hwf. eapply settles_mono; [|by apply exchange_call].
  by intros c w' (? & ? & ? & ? & _).
Qed.

Lemma substitute_leaves (call : M outcome) msg rq w :
  settles call w (fun _ w' => leaves rq w w') →
  settles (let* res := call in
           Async.ret (if ok res then res else failure (JStr msg))) w
    (fun _ w' => leaves rq w w').
Proof.
  intros H. apply settles_bind. eapply settles_mono; [|exact H].
  by intros [res|e] w'.
Qed.

Lemma query_ok_entries limit source :
  query_ok limit source = true →
  ∃ q, query_entries limit source = Normal q.
Proof. unfold query_ok. destruct (query_entries limit source); [eauto|done]. Qed.

(** The request each operation sends.  The two that convert an argument
    first send nothing when the conversion throws. *)
Lemma operation_requests limit source payload utterance w :
  wf_world w →
  settles (fetchCourses net) w (fun _ w' =>
    leaves (request_of "GET" "/courses/summary/all"
              {[ "Accept" := JStr "application/json" ]} None w) w w') ∧
  settles (fetchFaqs net) w (fun _ w' =>
    leaves (request_of "GET" "/faqs"
              {[ "Accept" := JStr "application/json" ]} None w) w w') ∧
  settles (fetchRecentEnrollments net limit source) w (fun _ w' =>
    match query_entries limit source with
    | Normal q =>
        leaves (request_of "GET" ("/enrollments/recent" +:+ query_suffix q)
                  (recent_headers w ∪ {[ "Accept" := JStr "application/json" ]})
                  None w) w w'
    | Throw _ => w' = w
    end) ∧
  settles (createEnrollment net payload) w (fun _ w' =>
    leaves (request_of "POST" "/enroll"
              {[ "Content-Type" := JStr "application/json";
                 "Accept" := JStr "application/json" ]}
              (JS.stringify (JS.or_else payload (JObj []))) w) w w') ∧
  settles (pingHealth net) w (fun _ w' =>
    leaves (request_of "GET" "/health"
              {[ "Accept" := JStr "application/json" ]} None w) w w') ∧
  settles (askBackend net utterance) w (fun _ w' =>
    if utterance_ok utterance then
      leaves (request_of "GET" "/courses/summary/all"
                {[ "Accept" := JStr "application/json" ]} None w) w w' ∨
      leaves (request_of "GET" "/faqs"
                {[ "Accept" := JStr "application/json" ]} None w) w w' ∨
      leaves (request_of "POST" "/chat"
                {[ "Content-Type" := JStr "application/json";
                   "Accept" := JStr "application/json" ]}
                (JS.stringify (JObj [("message", utterance)])) w) w w'
    else w' = w).
Proof.
  intros Hwf.
  assert (Hget : ∀ path,
            settles (httpGet net path no_options) w (fun _ w' =>
              leaves (request_of "GET" path
                        {[ "Accept" := JStr "application/json" ]} None w) w w')).
  { intros path. rewrite httpGet_exchange.
    cbn [no_options opt_headers timeout default]. rewrite (left_id_L ∅ (∪)).
    by apply exchange_leaves. }
  assert (Hpost : ∀ path p,
            settles (httpPost net path p no_options) w (fun _ w' =>
              leaves (request_of "POST" path
                        {[ "Content-Type" := JStr "application/json";
                           "Accept" := JStr "application/json" ]}
                        (JS.stringify (JS.or_else p (JObj []))) w) w w')).
  { intros path p. rewrite httpPost_exchange.
    cbn [no_options opt_headers timeout default]. rewrite (left_id_L ∅ (∪)).
    by apply exchange_leaves. }
  assert (Hcourses : settles (fetchCourses net) w (fun _ w' =>
            leaves (request_of "GET" "/courses/summary/all"
                      {[ "Accept" := JStr "application/json" ]} None w) w w'))
    by apply substitute_leaves, Hget.
  assert (Hfaqs : settles (fetchFaqs net) w (fun _ w' =>
            leaves (request_of "GET" "/faqs"
                      {[ "Accept" := JStr "application/json" ]} None w) w w'))
    by apply substitute_leaves, Hget.
  repeat apply conj; try done.
  - unfold settles. rewrite recent_unfold.
    destruct (query_entries limit source) as [q|e]; [|done].
    apply substitute_leaves.
    rewrite httpGet_exchange. cbn [opt_headers timeout default].
    by apply exchange_leaves.
  - apply substitute_leaves, Hpost.
  - apply Hget.
  - unfold settles, utterance_ok, printable. rewrite askBackend_unfold.
    destruct (JS.to_string _) as [text|e]; [|done].
    destruct (Str.includes "course" _); [|destruct (Str.includes "faq" _)].
    + apply settles_bind. unfold fetchCoursesText. apply settles_bind.
      eapply settles_mono; [|exact Hcourses].
      intros [r|e] w' H; [|by left].
      destruct (negb (ok r)); [by left|].
      unfold settles, Async.of_completion.
      destruct (coursesToText (data_of r)); by left.
    + apply settles_bind. unfold fetchFaqsText. apply settles_bind.
      eapply settles_mono; [|exact Hfaqs].
      intros [r|e] w' H; [|by right; left].
      destruct (negb (ok r)); [by right; left|].
      unfold settles, Async.of_completion.
      destruct (faqsToText (data_of r)); by right; left.
    + apply settles_bind. eapply settles_mono; [|apply Hpost].
      intros [res|e] w' H; [|by right; right].
      destruct (negb (ok res)); by right; right.
Qed.

Lemma base_after_set address w :
  API_BASE (snd (setApiBase address w)) = base_after address w.
Proof.
  unfold setApiBase, base_after, JS.or_else, printable, text.
  destruct (JS.truthy address); [|done].
  by destruct (JS.to_string address).
Qed.

(** X8.  The base URL that [setApiBase] leaves is the one the next call
    uses, whichever operation it is, and it is still the base URL after
    that call: the string form of a truthy argument that has one, the
    former base URL for every other argument.  Four operations send one
    request; [fetchRecentEnrollments] and [askBackend] do when their
    arguments convert, and send nothing when they do not. *)
Theorem base_url_set_is_the_one_used address limit source payload utterance w :
  wf_world w →
  let w0 := snd (setApiBase address w) in
  let base := base_after address w in
  settles (fetchCourses net) w0 (fun _ w' =>
    one_request_to base w0 w' ∧ getApiBase w' = base) ∧
  settles (fetchFaqs net) w0 (fun _ w' =>
    one_request_to base w0 w' ∧ getApiBase w' = base) ∧
  settles (fetchRecentEnrollments net limit source) w0 (fun _ w' =>
    (if query_ok limit source then one_request_to base w0 w'
     else sent w0 w' = []) ∧
    requests_base base w0 w' ∧ getApiBase w' = base) ∧
  settles (createEnrollment net payload) w0 (fun _ w' =>
    one_request_to base w0 w' ∧ getApiBase w' = base) ∧
  settles (pingHealth net) w0 (fun _ w' =>
    one_request_to base w0 w' ∧ getApiBase w' = base) ∧
  settles (askBackend net utterance) w0 (fun _ w' =>
    (if utterance_ok utterance then one_request_to base w0 w'
     else sent w0 w' = []) ∧
    requests_base base w0 w' ∧ getApiBase w' = base) ∧
  (JS.truthy address = false → base = API_BASE w) ∧
  (∀ s, JS.truthy address = true → JS.to_string address = Normal s → base = s) ∧
  (printable address = false → base = API_BASE w).
Proof.
  intros Hwf w0 base.
  assert (Hwf0 : wf_world w0) by (by apply setters_keep_wf).
  assert (Hbase : API_BASE w0 = base) by apply base_after_set.
  assert (Hleaves : ∀ meth path hdrs body w',
            leaves (request_of meth path hdrs body w0) w0 w' →
            one_request_to base w0 w' ∧ getApiBase w' = base).
  { intros meth path hdrs body w' [Hsent (_ & Hb & _)]. split.
    - eexists _, path. split; [exact Hsent|]. cbn [request_of url]. by rewrite Hbase.
    - unfold getApiBase. by rewrite Hb. }
  assert (Hone : ∀ w', one_request_to base w0 w' → requests_base base w0 w').
  { intros w' (rq & path & Hs & Hu) rq' Hin. rewrite Hs in Hin.
    apply list_elem_of_singleton in Hin as ->. by exists path. }
  assert (Hnone : ∀ w', w' = w0 →
            sent w0 w' = [] ∧ requests_base base w0 w' ∧ getApiBase w' = base).
  { intros w' ->. split; [apply sent_nothing|]. split; [|done].
    intros rq Hin. rewrite sent_nothing in Hin. by apply elem_of_nil in Hin. }
  destruct (operation_requests limit source payload utterance w0 Hwf0)
    as (H1 & H2 & H3 & H4 & H5 & H6).
  split; [|split; [|split; [|split; [|split; [|split]]]]].
  - eapply settles_mono; [|exact H1]. intros c w'. apply Hleaves.
  - eapply settles_mono; [|exact H2]. intros c w'. apply Hleaves.
  - eapply settles_mono; [|exact H3]. intros c w'. unfold query_ok.
    destruct (query_entries limit source) as [q|e]; [|apply Hnone].
    intros H. destruct (Hleaves _ _ _ _ _ H) as [Ho Hg]. auto.
  - eapply settles_mono; [|exact H4]. intros c w'. apply Hleaves.
  - eapply settles_mono; [|exact H5]. intros c w'. apply Hleaves.
  - eapply settles_mono; [|exact H6]. intros c w'.
    destruct (utterance_ok utterance); [|apply Hnone].
    intros [H|[H|H]]; destruct (Hleaves _ _ _ _ _ H) as [Ho Hg]; auto.
  - unfold base, base_after, printable, text. split; [by intros ->|].
    split; [by intros s -> ->|]. intros Hp. by rewrite Hp, andb_false_r.
Qed.

(** X9.  The admin key goes where it belongs.  After [setAdminKey(key)]
    a read of the recent enrollments carries [X-Admin-Key] with that key
    when the key is truthy and no such header when it is falsy (so a falsy
    key withdraws an earlier one), the read being sent whenever the
    arguments convert; no other operation ever sends the header. *)
Theorem admin_key_goes_to_recent_enrollments_only key limit source payload
    utterance w :
  wf_world w →
  let w0 := setAdminKey key w in
  settles (fetchRecentEnrollments net limit source) w0 (fun _ w' =>
    if query_ok limit source
    then ∃ rq, sent w0 w' = [rq] ∧
               headers rq !! "X-Admin-Key"
               = (if JS.truthy key then Some key else None)
    else sent w0 w' = []) ∧
  settles (fetchCourses net) w0 (fun _ w' =>
    ∃ rq, sent w0 w' = [rq] ∧ headers rq !! "X-Admin-Key" = None) ∧
  settles (fetchFaqs net) w0 (fun _ w' =>
    ∃ rq, sent w0 w' = [rq] ∧ headers rq !! "X-Admin-Key" = None) ∧
  settles (createEnrollment net payload) w0 (fun _ w' =>
    ∃ rq, sent w0 w' = [rq] ∧ headers rq !! "X-Admin-Key" = None) ∧
  settles (pingHealth net) w0 (fun _ w' =>
    ∃ rq, sent w0 w' = [rq] ∧ headers rq !! "X-Admin-Key" = None) ∧
  settles (askBackend net utterance) w0 (fun _ w' =>
    if utterance_ok utterance
    then ∃ rq, sent w0 w' = [rq] ∧ headers rq !! "X-Admin-Key" = None
    else sent w0 w' = []).
Proof.
  intros Hwf w0.
  assert (Hnone : ∀ meth path body w',
            leaves (request_of meth path
                      {[ "Accept" := JStr "application/json" ]} body w0) w0 w' →
            ∃ rq, sent w0 w' = [rq] ∧ headers rq !! "X-Admin-Key" = None).
  { intros meth path body w' [Hsent _]. eexists. split; [exact Hsent|]. done. }
  assert (Hnone' : ∀ meth path body w',
            leaves (request_of meth path
                      {[ "Content-Type" := JStr "application/json";
                         "Accept" := JStr "application/json" ]} body w0) w0 w' →
            ∃ rq, sent w0 w' = [rq] ∧ headers rq !! "X-Admin-Key" = None).
  { intros meth path body w' [Hsent _]. eexists. split; [exact Hsent|]. done. }
  destruct (operation_requests limit source payload utterance w0 Hwf)
    as (H1 & H2 & H3 & H4 & H5 & H6).
  repeat apply conj.
  - eapply settles_mono; [|exact H3]. intros c w'. unfold query_ok.
    destruct (query_entries limit source) as [q|e];
      [|intros ->; apply sent_nothing].
    intros [Hsent _].
    eexists. split; [exact Hsent|]. cbn [request_of headers].
    unfold recent_headers, w0, setAdminKey, JS.or_else.
    cbn [ADMIN_KEY set_ADMIN_KEY].
    destruct (JS.truthy key) eqn:Hk.
    + rewrite Hk. rewrite lookup_union, lookup_insert_eq.
      by rewrite lookup_singleton_ne.
    + cbn [JS.truthy]. rewrite lookup_union, lookup_empty.
      by rewrite lookup_singleton_ne.
  - eapply settles_mono; [|exact H1]. intros c w'. apply Hnone.
  - eapply settles_mono; [|exact H2]. intros c w'. apply Hnone.
  - eapply settles_mono; [|exact H4]. intros c w'. apply Hnone'.
  - eapply settles_mono; [|exact H5]. intros c w'. apply Hnone.
  - eapply settles_mono; [|exact H6]. intros c w'.
    destruct (utterance_ok utterance); [|intros ->; apply sent_nothing].
    intros [H|[H|H]].
    + by eapply Hnone.
    + by eapply Hnone.
    + by eapply Hnone'.
Qed.

Lemma all_chars_app p a b :
  all_chars p (a +:+ b) = all_chars p a && all_chars p b.
Proof. induction a as [|c a IH]; simpl; [done|]. by rewrite IH, andb_assoc. Qed.

Lemma encode_char_safe c :
  all_chars url_safe (URLSearchParams.encode_char c) = true.
Proof. destruct c as [[] [] [] [] [] [] [] []]; reflexivity. Qed.

Lemma encode_safe s : all_chars url_safe (URLSearchParams.encode s) = true.
Proof.
  induction s as [|c s IH]; [done|]. simpl.
  by rewrite all_chars_app, encode_char_safe, IH.
Qed.

Lemma query_entries_shape limit source q :
  query_entries limit source = Normal q →
  q = (if JS.truthy (effective_limit limit)
       then [("limit", text (effective_limit limit))] else []) ++
      (if JS.truthy source then [("source", text source)] else []).
Proof.
  unfold query_entries, query_entry, text.
  destruct (JS.truthy (effective_limit limit)),
           (JS.to_string (effective_limit limit)),
           (JS.truthy source), (JS.to_string source); by intros [= <-].
Qed.

(** X10.  No argument of the kinds the model has (JSON values and
    [undefined], strings of code units below 256) can reshape the query of
    the recent enrollments.  When the arguments convert, the address is
    the base URL, [/enrollments/recent] and then nothing, [?limit=L],
    [?source=S] or [?limit=L&source=S], where [L] and [S] are the
    urlencoded string forms of the arguments and hold letters, digits and
    [* - . _ + %] only: no [&], [=], [?], [#], [/] or blank of an argument
    gets in.  When they do not convert, nothing is sent. *)
Theorem recent_query_is_safe limit source w :
  wf_world w →
  settles (fetchRecentEnrollments net limit source) w (fun _ w' =>
    if query_ok limit source then
      ∃ rq L S,
        sent w w' = [rq] ∧
        L = URLSearchParams.encode (text (effective_limit limit)) ∧
        S = URLSearchParams.encode (text source) ∧
        all_chars url_safe L = true ∧ all_chars url_safe S = true ∧
        url rq = API_BASE w +:+ "/enrollments/recent" +:+
                 match JS.truthy (effective_limit limit), JS.truthy source with
                 | true, true => "?limit=" +:+ L +:+ "&source=" +:+ S
                 | true, false => "?limit=" +:+ L
                 | false, true => "?source=" +:+ S
                 | false, false => EmptyString
                 end
    else sent w w' = []).
Proof.
  intros Hwf.
  destruct (operation_requests limit source JNull JNull w Hwf)
    as (_ & _ & H3 & _).
  eapply settles_mono; [|exact H3]. intros c w'. unfold query_ok.
  destruct (query_entries limit source) as [q|e] eqn:Hq;
    [|intros ->; apply sent_nothing].
  intros [Hsent _].
  eexists _, _, _. split; [exact Hsent|].
  split; [reflexivity|]. split; [reflexivity|].
  split; [apply encode_safe|]. split; [apply encode_safe|].
  cbn [request_of url]. rewrite (query_entries_shape _ _ _ Hq).
  by destruct (JS.truthy (effective_limit limit)), (JS.truthy source).
Qed.

End Requests.

(** ** Who can abort the signal of a call *)

Module OwnFacts.
Import Abort AbortFacts Timers TimerFacts ComposerFacts.

Lemma callback_target cb w : fst (callback_call cb w) = target cb.
Proof. by destruct cb. Qed.

Lemma lookup_marked (ss : list signal_state) c st r i st0 :
  ss !! c = Some st → <[c := marked r st]> ss !! i = Some st0 →
  (i = c ∧ st0 = marked r st) ∨ (i ≠ c ∧ ss !! i = Some st0).
Proof.
  intros Hc Hi. destruct (decide (i = c)) as [->|Hne].
  - rewrite list_lookup_insert_eq in Hi by (by eapply lookup_lt_Some).
    left. split; [done|]. by injection Hi.
  - rewrite list_lookup_insert_ne in Hi by done. by right.
Qed.

(** An abort of another controller leaves a live and quiet controller
    live and quiet. *)
Lemma signal_abort_other c fuel : ∀ c' r w,
  c' ≠ c → quiet c w → is_aborted w c = false →
  quiet c (signal_abort fuel c' r w) ∧
  is_aborted (signal_abort fuel c' r w) c = false.
Proof.
  induction fuel as [|fuel IH]; intros c' r w Hne Hq Hlive; [done|].
  rewrite signal_abort_S.
  destruct (signals w !! c') as [st|] eqn:Hc'; [|done].
  destruct (aborted st) eqn:Hst; [done|].
  assert (Hls : ∀ l, l ∈ listeners st → target (handler l) ≠ c).
  { intros l Hl Ht. by rewrite (Hq c' st l Hc' Hl Ht) in Hst. }
  set (w1 := set_signals (<[c' := marked r st]> (signals w)) w).
  assert (H1 : quiet c w1 ∧ is_aborted w1 c = false).
  { split.
    - intros i st0 l Hi Hl Ht. simpl in Hi.
      apply (lookup_marked _ _ _ _ _ _ Hc') in Hi as [[-> ->]|[_ Hi]]; [done|].
      by apply (Hq i st0 l).
    - unfold w1. rewrite is_aborted_marked by done. by rewrite decide_False. }
  clearbody w1. revert w1 H1.
  induction (listeners st) as [|l ls IHl]; intros acc [Hq1 Hl1]; [done|].
  simpl. apply IHl.
  - intros l' Hl'. apply Hls. by right.
  - rewrite callback_target. apply IH; [|done..].
    apply Hls. by left.
Qed.

Lemma run_callback_other c cb w :
  target cb ≠ c → quiet c w → is_aborted w c = false →
  quiet c (run_callback cb w) ∧ is_aborted (run_callback cb w) c = false.
Proof.
  intros Hne. unfold run_callback, abort. rewrite callback_target.
  by apply signal_abort_other.
Qed.

(** An aborted signal keeps its reason. *)
Lemma signal_abort_keeps_reason fuel c' r w c r0 :
  is_aborted w c = true ∧ signal_reason w c = r0 →
  is_aborted (signal_abort fuel c' r w) c = true ∧
  signal_reason (signal_abort fuel c' r w) c = r0.
Proof.
  apply (signal_abort_preserves
           (fun w => is_aborted w c = true ∧ signal_reason w c = r0)
           (fun _ => True)); [done| |done].
  intros w' c'' st r' Hc'' Hst _ [Hab Hr].
  assert (Hne : c ≠ c'').
  { intros ->. unfold is_aborted in Hab. rewrite Hc'' in Hab. congruence. }
  split.
  - rewrite is_aborted_marked by done. by rewrite decide_False.
  - unfold signal_reason in *. simpl. by rewrite list_lookup_insert_ne.
Qed.

(** Aborting a live controller gives it the reason passed. *)
Lemma abort_live c r w :
  (c < length (signals w))%nat → is_aborted w c = false →
  is_aborted (abort c r w) c = true ∧
  signal_reason (abort c r w) c = abort_reason r.
Proof.
  intros Hlt Hlive. unfold abort. rewrite signal_abort_S.
  destruct (lookup_lt_is_Some_2 _ _ Hlt) as [st Hc]. rewrite Hc.
  unfold is_aborted in Hlive. rewrite Hc in Hlive. rewrite Hlive.
  apply fold_left_preserves.
  - intros acc l H. by apply signal_abort_keeps_reason.
  - split.
    + rewrite is_aborted_marked by done. by rewrite decide_True.
    + unfold signal_reason. simpl.
      by rewrite list_lookup_insert_eq by (by eapply lookup_lt_Some).
Qed.

Lemma fire_now p w : now (fire p w) = Z.max (now w) (deadline (snd p)).
Proof.
  unfold fire. by destruct (run_callback_frame (on_fire (snd p))
    (set_now (Z.max (now w) (deadline (snd p)))
       (set_timers (remove (fst p) (timers w)) w))) as (-> & _).
Qed.

Lemma fire_other id c t p w :
  owned id c t w → p ∈ timers w → fst p ≠ id → owned id c t (fire p w).
Proof.
  intros [Hex Hlive Hq [Hin Huniq] Hfire Hsole] Hp Hne.
  assert (Ht : target (on_fire (snd p)) ≠ c) by (intros Ht; by apply Hne, Hsole).
  set (w1 := set_now (Z.max (now w) (deadline (snd p)))
               (set_timers (remove (fst p) (timers w)) w)).
  destruct (run_callback_other c (on_fire (snd p)) w1 Ht Hq Hlive) as [Hq' Hl'].
  split.
  - by rewrite (ev_len _ _ (fire_evolves p w)).
  - exact Hl'.
  - exact Hq'.
  - unfold pending_timer. rewrite fire_timers. split.
    + apply elem_of_remove. split; [done|]. simpl. congruence.
    + intros t' Ht'. apply elem_of_remove in Ht' as [Ht' _]. by apply Huniq.
  - exact Hfire.
  - intros q Hq0. rewrite fire_timers in Hq0.
    apply elem_of_remove in Hq0 as [Hq0 _]. by apply Hsole.
Qed.

Lemma fire_own id c t w :
  owned id c t w →
  is_aborted (fire (id, t) w) c = true ∧
  signal_reason (fire (id, t) w) c = ErrorObj "Error" "Timeout".
Proof.
  intros [Hex Hlive Hq _ Hfire _]. unfold fire. cbn [fst snd]. rewrite Hfire.
  set (w1 := set_now _ _).
  apply (abort_live c (ErrorObj "Error" "Timeout") w1); done.
Qed.

(** Up to a time before its deadline the timer of the call stays pending
    and nothing aborts the signal. *)
Lemma run_timers_in_time id c t T fuel : ∀ w,
  owned id c t w → T < deadline t →
  snd (run_timers fuel (Some T) c w) = false ∧
  owned id c t (fst (run_timers fuel (Some T) c w)) ∧
  now w <= now (fst (run_timers fuel (Some T) c w)) <= Z.max (now w) T.
Proof.
  induction fuel as [|fuel IH]; intros w Hown HT; simpl.
  - split; [done|]. split; [done|]. lia.
  - destruct (next_due (Some T) w) as [p|] eqn:Hp;
      [|split; [done|split; [done|cbn [fst]; lia]]].
    apply next_due_Some in Hp as [Hin Hdue]. simpl in Hdue. apply Z.leb_le in Hdue.
    assert (Hne : fst p ≠ id).
    { intros Hid. destruct p as [id' t']. simpl in *. subst id'.
      rewrite (proj2 (own_timer _ _ _ _ Hown) t' Hin) in Hdue. lia. }
    pose proof (fire_other id c t p w Hown Hin Hne) as Hown'.
    rewrite (own_live _ _ _ _ Hown').
    destruct (IH (fire p w) Hown' HT) as (Hs & Ho & Hn).
    split; [done|]. split; [done|]. rewrite fire_now in Hn. lia.
Qed.

Lemma due_earlier limit (t q : timer) :
  due limit t = true → deadline q <= deadline t → due limit q = true.
Proof.
  destruct limit as [T|]; [|done]. simpl. rewrite !Z.leb_le. lia.
Qed.

(** With the deadline within the limit the timer of the call fires, at its
    deadline, and aborts the signal with the timeout. *)
Lemma run_timers_late id c t limit fuel : ∀ w,
  owned id c t w → due limit t = true → (length (timers w) ≤ fuel)%nat →
  snd (run_timers fuel limit c w) = true ∧
  is_aborted (fst (run_timers fuel limit c w)) c = true ∧
  signal_reason (fst (run_timers fuel limit c w)) c = ErrorObj "Error" "Timeout" ∧
  now (fst (run_timers fuel limit c w)) = Z.max (now w) (deadline t).
Proof.
  induction fuel as [|fuel IH]; intros w Hown Hdue Hlen.
  - destruct (own_timer _ _ _ _ Hown) as [Hin _].
    destruct (timers w); [by apply elem_of_nil in Hin|simpl in Hlen; lia].
  - simpl. destruct (own_timer _ _ _ _ Hown) as [Hin Huniq].
    assert (Hnext : ∃ q, next_due limit w = Some q ∧ q ∈ timers w ∧
                         deadline (snd q) <= deadline t).
    { unfold next_due. destruct (earliest (timers w)) as [q|] eqn:E.
      - apply earliest_Some in E as [Hq Hall].
        rewrite Forall_forall in Hall. specialize (Hall _ Hin). simpl in Hall.
        rewrite (due_earlier limit t (snd q) Hdue Hall). by exists q.
      - apply earliest_None in E. rewrite E in Hin. by apply elem_of_nil in Hin. }
    destruct Hnext as (q & -> & Hq & Hle).
    destruct (decide (fst q = id)) as [Hid|Hne].
    + destruct q as [id' t']. simpl in Hid. subst id'.
      rewrite (Huniq t' Hq) in *. simpl in Hle.
      destruct (fire_own id c t w Hown) as [Hab Hr]. rewrite Hab. cbn [fst snd].
      split; [done|]. split; [done|]. split; [done|]. by rewrite fire_now.
    + pose proof (fire_other id c t q w Hown Hq Hne) as Hown'.
      rewrite (own_live _ _ _ _ Hown').
      destruct (IH (fire q w) Hown' Hdue) as (Hs & Hab & Hr & Hn).
      { rewrite fire_timers. destruct q as [id' t'].
        pose proof (remove_length_lt id' _ t' Hq). simpl. lia. }
      split; [done|]. split; [done|]. split; [done|].
      rewrite Hn, fire_now. lia.
Qed.

(** An operation that is done before the deadline completes. *)
Lemma await_in_time id c t d w :
  owned id c t w → now w + Z.max 0 d < deadline t →
  ∃ w', await c (Some d) w = Some (w', None) ∧ owned id c t w' ∧
        now w' = now w + Z.max 0 d ∧ evolves w w'.
Proof.
  intros Hown Hd. unfold await. rewrite (own_live _ _ _ _ Hown).
  cbn [fmap option_fmap option_map].
  destruct (run_timers_in_time id c t (now w + Z.max 0 d) (length (timers w)) w
              Hown Hd) as (Hs & Hown' & Hn).
  pose proof (run_timers_evolves (length (timers w))
                (Some (now w + Z.max 0 d)) c w) as Hev.
  rewrite Hs. eexists. split; [reflexivity|].
  destruct Hown' as [Hex Hlive Hq Ht Hf Hsole]. split; [by split|].
  split; [simpl; lia|].
  eapply evolves_trans; [exact Hev|apply evolves_set_now].
Qed.

(** One that is not is rejected at the deadline, with the timeout. *)
Lemma await_late id c t delay w :
  owned id c t w → now w <= deadline t →
  match delay with
  | Some d => deadline t <= now w + Z.max 0 d
  | None => True
  end →
  ∃ w', await c delay w = Some (w', Some (ErrorObj "Error" "Timeout")) ∧
        now w' = deadline t ∧ evolves w w'.
Proof.
  intros Hown Hnow Hd. unfold await. rewrite (own_live _ _ _ _ Hown).
  set (limit := (fun d => now w + Z.max 0 d) <$> delay).
  assert (Hdue : due limit t = true).
  { unfold limit. destruct delay as [d|]; [|done]. simpl. by apply Z.leb_le. }
  destruct (run_timers_late id c t limit (length (timers w)) w Hown Hdue (le_n _))
    as (Hs & Hab & Hr & Hn).
  pose proof (run_timers_evolves (length (timers w)) limit c w) as Hev.
  rewrite Hs, Hr. eexists. split; [reflexivity|]. split; [lia|exact Hev].
Qed.

End OwnFacts.

(** ** The transport against the clock *)

Section Clock.
Import Abort AbortFacts Timers TimerFacts ComposerFacts OwnFacts.

Variable net : request → net_behaviour.

Lemma closed_world_spec w :
  closed_world w ↔
  (∀ p, p ∈ timers w → (target (on_fire (snd p)) < length (signals w))%nat) ∧
  (∀ st l, st ∈ signals w → l ∈ listeners st →
           (target (handler l) < length (signals w))%nat).
Proof.
  unfold closed_world. rewrite andb_true_iff, !forallb_forall. split.
  - intros [Ht Hs]. split.
    + intros p Hp. apply Nat.ltb_lt, Ht. by apply list_elem_of_In.
    + intros st l Hst Hl. apply list_elem_of_In in Hst.
      specialize (Hs st Hst). rewrite forallb_forall in Hs.
      apply Nat.ltb_lt, Hs. by apply list_elem_of_In.
  - intros [Ht Hs]. split.
    + intros p Hp. apply Nat.ltb_lt, Ht. by apply list_elem_of_In.
    + intros st Hst. apply forallb_forall. intros l Hl.
      apply Nat.ltb_lt, (Hs st l); by apply list_elem_of_In.
Qed.

(** The timer [withTimeout(ms)] starts in world [w]. *)
Lemma started_owned ms w :
  wf_world w → closed_world w →
  owned (next_timer w) (length (signals w))
    {| deadline := now w + timer_delay ms;
       on_fire := OnTimeout (length (signals w)) |}
    (started ms w).
Proof.
  intros Hwf Hclosed. rewrite wf_world_spec in Hwf.
  destruct (proj1 (closed_world_spec w) Hclosed) as [Hct Hcs].
  split.
  - simpl. rewrite length_app. simpl. lia.
  - apply started_live.
  - intros i st l Hi Hl Ht. simpl in Hi.
    destruct (decide (i < length (signals w))%nat) as [Hlt|Hge].
    + rewrite lookup_app_l in Hi by done.
      apply list_elem_of_lookup_2 in Hi. specialize (Hcs st l Hi Hl). lia.
    + rewrite lookup_app_r in Hi by lia.
      destruct (i - length (signals w))%nat; simpl in Hi; [|done].
      injection Hi as <-. by apply elem_of_nil in Hl.
  - split.
    + simpl. apply elem_of_app. right. by apply list_elem_of_singleton.
    + simpl. intros t' Hin. apply elem_of_app in Hin as [Hin|Hin].
      * apply Hwf in Hin. simpl in Hin. lia.
      * apply list_elem_of_singleton in Hin. by injection Hin.
  - reflexivity.
  - simpl. intros p Hp Ht. apply elem_of_app in Hp as [Hp|Hp].
    + specialize (Hct p Hp). lia.
    + apply list_elem_of_singleton in Hp. by subst p.
Qed.

Lemma owned_emit id c t e w : owned id c t w → owned id c t (emit e w).
Proof. intros []. by split. Qed.

Lemma fetch_in_time id c t rq d w :
  owned id c t w → req_signal rq = c →
  net_delay (net rq) = Some d → now w + Z.max 0 d < deadline t →
  ∃ w', fetch net rq w
        = Some (match net rq with
                | NetRespond _ res => Normal res
                | NetFail _ e => Throw e
                | NetHang => Throw (ErrorObj "Error" "Timeout")
                end, w') ∧
        owned id c t w' ∧ now w' = now w + Z.max 0 d.
Proof.
  intros Hown Hsg Hd Hnow. unfold fetch. rewrite Hsg, Hd.
  destruct (await_in_time id c t d (emit (EvFetch rq) w)) as (w' & -> & Ho & Hn & _);
    [by apply owned_emit|done|].
  exists w'. split; [|done]. by destruct (net rq).
Qed.

Lemma fetch_late id c t rq w :
  owned id c t w → req_signal rq = c → now w <= deadline t →
  match net_delay (net rq) with
  | Some d => deadline t <= now w + Z.max 0 d
  | None => True
  end →
  ∃ w', fetch net rq w = Some (Throw (ErrorObj "Error" "Timeout"), w') ∧
        now w' = deadline t.
Proof.
  intros Hown Hsg Hnow Hd. unfold fetch. rewrite Hsg.
  destruct (await_late id c t (net_delay (net rq)) (emit (EvFetch rq) w))
    as (w' & -> & Hn & _); [by apply owned_emit|done|done|].
  by exists w'.
Qed.

Lemma read_body_in_time id c t res b w :
  owned id c t w → body_delay res = Some b →
  now w + Z.max 0 b < deadline t →
  ∃ w', read_body c res w
        = Some (match body_value res with
                | inr v => Normal v
                | inl e => Throw e
                end, w') ∧
        now w' = now w + Z.max 0 b.
Proof.
  intros Hown Hb Hnow. unfold read_body, body_value, res_json, res_text.
  destruct (Str.includes "application/json" (contentType_of res)); rewrite Hb.
  - destruct (await_in_time id c t b (emit EvJson w)) as (w' & -> & _ & Hn & _);
      [by apply owned_emit|done|].
    exists w'. split; [|done]. by destruct (json_result res).
  - destruct (await_in_time id c t b (emit EvText w)) as (w' & -> & _ & Hn & _);
      [by apply owned_emit|done|].
    exists w'. split; [|done]. by destruct (text_result res).
Qed.

Lemma read_body_late id c t res w :
  owned id c t w → now w <= deadline t →
  match body_delay res with
  | Some b => deadline t <= now w + Z.max 0 b
  | None => True
  end →
  ∃ w', read_body c res w = Some (Throw (ErrorObj "Error" "Timeout"), w') ∧
        now w' = deadline t.
Proof.
  intros Hown Hnow Hb. unfold read_body, res_json, res_text.
  destruct (Str.includes "application/json" (contentType_of res)).
  - destruct (await_late id c t (body_delay res) (emit EvJson w))
      as (w' & -> & Hn & _); [by apply owned_emit|done|done|]. by exists w'.
  - destruct (await_late id c t (body_delay res) (emit EvText w))
      as (w' & -> & Hn & _); [by apply owned_emit|done|done|]. by exists w'.
Qed.

(** A call, as its [fetch] and its body read go. *)
Lemma exchange_unfold meth path hdrs payload ms w :
  let t := {| h_signal := length (signals w); h_clear := next_timer w;
              h_controller := length (signals w) |} in
  exchange net meth path hdrs payload ms w
  = match fetch net (request_of meth path hdrs payload w) (started ms w) with
    | Some (Normal res, w2) =>
        match read_body (length (signals w)) res w2 with
        | Some (Normal v, w3) =>
            Some (if res_ok res then Normal (success v)
                  else caught (status_error meth path res), clear t w3)
        | Some (Throw e, w3) => Some (caught e, clear t w3)
        | None => None
        end
    | Some (Throw e, w2) => Some (caught e, clear t w2)
    | None => None
    end.
Proof.
  intros t. unfold exchange, Async.bind at 1, Async.call.
  rewrite withTimeout_alone. cbn [fst snd]. fold t.
  unfold Async.try_finally, Async.try_catch, exchange_try.
  unfold Async.bind at 1, Async.read. unfold Async.bind at 1.
  change {| url := API_BASE (started ms w) +:+ path; method := meth;
            headers := hdrs; body := payload; req_signal := h_signal t |}
    with (request_of meth path hdrs payload w).
  destruct (fetch net _ _) as [[[res|e] w2]|]; [|by rewrite on_catch_run|done].
  unfold Async.bind. cbn [h_signal t].
  destruct (read_body _ res w2) as [[[v|e] w3]|]; [|by rewrite on_catch_run|done].
  destruct (res_ok res); cbn [negb]; unfold Async.ret, Async.throw; [done|].
  by rewrite on_catch_run.
Qed.

Lemma caught_status meth path res :
  caught (status_error meth path res)
  = Normal (failure (JStr (meth +:+ " " +:+ path +:+ " -> " +:+
                           pretty (status res) +:+ " " +:+ statusText res))).
Proof. apply status_message_truthy. Qed.

Lemma exchange_timely meth path hdrs payload ms w :
  wf_world w → closed_world w →
  timely ms (net (request_of meth path hdrs payload w)) →
  ∃ w' a, answer_time (net (request_of meth path hdrs payload w)) = Some a ∧
          exchange net meth path hdrs payload ms w
          = Some (reply meth path (net (request_of meth path hdrs payload w)), w') ∧
          now w' = now w + a.
Proof.
  intros Hwf Hclosed Htimely. rewrite exchange_unfold. cbv zeta.
  pose proof (started_owned ms w Hwf Hclosed) as Hown.
  set (rq := request_of meth path hdrs payload w) in *.
  set (t := {| deadline := now w + timer_delay ms;
               on_fire := OnTimeout (length (signals w)) |}) in *.
  assert (Hnow : now (started ms w) = now w) by done.
  unfold timely in Htimely.
  destruct (net rq) as [d res|d e|] eqn:Hnet; simpl in Htimely; [| |done].
  - destruct (body_delay res) as [b|] eqn:Hb; simpl in Htimely; [|done].
    destruct (fetch_in_time (next_timer w) (length (signals w)) t rq d
                (started ms w) Hown eq_refl) as (w2 & Hf & Hown2 & Hn2).
    { by rewrite Hnet. }
    { rewrite Hnow. simpl. lia. }
    rewrite Hf, Hnet.
    destruct (read_body_in_time (next_timer w) (length (signals w)) t res b w2
                Hown2 Hb) as (w3 & Hr & Hn3).
    { rewrite Hn2, Hnow. simpl. lia. }
    rewrite Hr. simpl. rewrite Hb. simpl.
    destruct (body_value res) as [e|v].
    + eexists _, _. split; [reflexivity|]. split; [reflexivity|]. simpl. lia.
    + eexists _, _. split; [reflexivity|]. split.
      * destruct (res_ok res); [done|]. by rewrite caught_status.
      * simpl. lia.
  - destruct (fetch_in_time (next_timer w) (length (signals w)) t rq d
                (started ms w) Hown eq_refl) as (w2 & Hf & Hown2 & Hn2).
    { by rewrite Hnet. }
    { rewrite Hnow. simpl. lia. }
    rewrite Hf, Hnet. eexists _, _. split; [reflexivity|].
    split; [reflexivity|]. simpl. lia.
Qed.

Lemma exchange_late meth path hdrs payload ms w :
  wf_world w → closed_world w →
  late ms (net (request_of meth path hdrs payload w)) →
  ∃ w', exchange net meth path hdrs payload ms w = Some (Normal TIMED_OUT, w') ∧
        now w' = now w + timer_delay ms.
Proof.
  intros Hwf Hclosed Hlate. rewrite exchange_unfold. cbv zeta.
  pose proof (started_owned ms w Hwf Hclosed) as Hown.
  set (rq := request_of meth path hdrs payload w) in *.
  set (t := {| deadline := now w + timer_delay ms;
               on_fire := OnTimeout (length (signals w)) |}) in *.
  assert (Hnow : now (started ms w) = now w) by done.
  assert (Hdelay : 0 <= timer_delay ms) by (unfold timer_delay; lia).
  assert (Hfetch_late :
            match net_delay (net rq) with
            | Some d => deadline t <= now (started ms w) + Z.max 0 d
            | None => True
            end →
            ∃ w', match fetch net rq (started ms w) with
                  | Some (Normal res, w2) =>
                      match read_body (length (signals w)) res w2 with
                      | Some (Normal v, w3) =>
                          Some (if res_ok res then Normal (success v)
                                else caught (status_error meth path res),
                                clear {| h_signal := length (signals w);
                                         h_clear := next_timer w;
                                         h_controller := length (signals w) |} w3)
                      | Some (Throw e, w3) =>
                          Some (caught e,
                                clear {| h_signal := length (signals w);
                                         h_clear := next_timer w;
                                         h_controller := length (signals w) |} w3)
                      | None => None
                      end
                  | Some (Throw e, w2) =>
                      Some (caught e,
                            clear {| h_signal := length (signals w);
                                     h_clear := next_timer w;
                                     h_controller := length (signals w) |} w2)
                  | None => None
                  end = Some (Normal TIMED_OUT, w') ∧
                  now w' = now w + timer_delay ms).
  { intros Hd.
    destruct (fetch_late (next_timer w) (length (signals w)) t rq (started ms w)
                Hown eq_refl) as (w2 & -> & Hn2); [simpl; lia|exact Hd|].
    eexists. split; [reflexivity|]. simpl. exact Hn2. }
  unfold late in Hlate.
  destruct (net rq) as [d res|d e|] eqn:Hnet; simpl in Hlate.
  - destruct (Z_lt_le_dec (Z.max 0 d) (timer_delay ms)) as [Hin|Hout].
    + destruct (fetch_in_time (next_timer w) (length (signals w)) t rq d
                  (started ms w) Hown eq_refl) as (w2 & Hf & Hown2 & Hn2).
      { by rewrite Hnet. }
      { rewrite Hnow. simpl. lia. }
      rewrite Hf, Hnet.
      destruct (read_body_late (next_timer w) (length (signals w)) t res w2 Hown2)
        as (w3 & -> & Hn3).
      { rewrite Hn2, Hnow. simpl. lia. }
      { destruct (body_delay res) as [b|]; [|done]. simpl in Hlate.
        rewrite Hn2, Hnow. simpl. lia. }
      eexists. split; [reflexivity|]. simpl. exact Hn3.
    + apply Hfetch_late. simpl. lia.
  - apply Hfetch_late. simpl. lia.
  - by apply Hfetch_late.
Qed.

(** X11.  An answer in time is the answer returned.  In a world whose
    callbacks refer to controllers that exist, when the network delivers
    the response and its body (or fails) before the timeout of the call,
    nothing aborts the call: [httpGet] and [httpPost] return the decoded
    body of a 2xx response as data, the status message of any other
    response, the message of the network or parser error otherwise, at the
    time the network needed. *)
Theorem answer_in_time_is_returned path payload o w :
  wf_world w → closed_world w →
  let ms := default DEFAULT_TIMEOUT_MS (timeout o) in
  let get := request_of "GET" path
               (default ∅ (opt_headers o) ∪
                {[ "Accept" := JStr "application/json" ]}) None w in
  let post := request_of "POST" path
                (default ∅ (opt_headers o) ∪
                 {[ "Content-Type" := JStr "application/json";
                    "Accept" := JStr "application/json" ]})
                (JS.stringify (JS.or_else payload (JObj []))) w in
  (timely ms (net get) →
   ∃ w' a, answer_time (net get) = Some a ∧
           httpGet net path o w = Some (reply "GET" path (net get), w') ∧
           now w' = now w + a) ∧
  (timely ms (net post) →
   ∃ w' a, answer_time (net post) = Some a ∧
           httpPost net path payload o w = Some (reply "POST" path (net post), w') ∧
           now w' = now w + a).
Proof.
  intros Hwf Hclosed. cbv zeta. rewrite httpGet_exchange, httpPost_exchange.
  split; intros Ht; by apply exchange_timely.
Qed.

(** X12.  An answer that is late is a timeout.  In such a world, when the
    network has not delivered the response and its body by the time the
    timer of the call fires (it never answers, it answers too late, or the
    body comes too late), [httpGet] and [httpPost] return the failure
    [Timeout] exactly when the timeout has elapsed. *)
Theorem late_answer_is_a_timeout path payload o w :
  wf_world w → closed_world w →
  let ms := default DEFAULT_TIMEOUT_MS (timeout o) in
  let get := request_of "GET" path
               (default ∅ (opt_headers o) ∪
                {[ "Accept" := JStr "application/json" ]}) None w in
  let post := request_of "POST" path
                (default ∅ (opt_headers o) ∪
                 {[ "Content-Type" := JStr "application/json";
                    "Accept" := JStr "application/json" ]})
                (JS.stringify (JS.or_else payload (JObj []))) w in
  (late ms (net get) →
   ∃ w', httpGet net path o w = Some (Normal TIMED_OUT, w') ∧
         now w' = now w + Timers.timer_delay ms) ∧
  (late ms (net post) →
   ∃ w', httpPost net path payload o w = Some (Normal TIMED_OUT, w') ∧
         now w' = now w + Timers.timer_delay ms).
Proof.
  intros Hwf Hclosed. cbv zeta. rewrite httpGet_exchange, httpPost_exchange.
  split; intros Ht; by apply exchange_late.
Qed.

Lemma timely_or_late ms b : timely ms b ∨ late ms b.
Proof. unfold timely, late. destruct (answer_time b) as [a|]; [lia|by right]. Qed.

(** In a world in order, what a call returns is settled by the network and
    the clock: the reply to what the network did, or the timeout. *)
Lemma exchange_result meth path hdrs payload ms w :
  wf_world w → closed_world w →
  ∃ c w', exchange net meth path hdrs payload ms w = Some (c, w') ∧
          (c = reply meth path (net (request_of meth path hdrs payload w)) ∨
           c = Normal TIMED_OUT).
Proof.
  intros Hwf Hc.
  destruct (timely_or_late ms (net (request_of meth path hdrs payload w)))
    as [Ht|Hl].
  - destruct (exchange_timely meth path hdrs payload ms w Hwf Hc Ht)
      as (w' & a & _ & Hrun & _). eauto.
  - destruct (exchange_late meth path hdrs payload ms w Hwf Hc Hl)
      as (w' & Hrun & _). eauto.
Qed.

Lemma caught_catchable e : catchable e → ∃ error, caught e = Normal (failure error).
Proof. intros [error He]. exists error. by apply caught_Normal. Qed.

Lemma reply_returns meth path rq :
  platform_rejections net → ∃ o, reply meth path (net rq) = Normal o.
Proof.
  intros Hp. specialize (Hp rq). unfold reply, body_value.
  destruct (net rq) as [d res|d e|].
  - destruct Hp as [Hj Ht].
    destruct (Str.includes "application/json" (contentType_of res)).
    + destruct (json_result res) as [e|v]; [|eauto].
      destruct (caught_catchable e (Hj e eq_refl)); eauto.
    + destruct (text_result res) as [e|v]; [|eauto].
      destruct (caught_catchable e (Ht e eq_refl)); eauto.
  - destruct (caught_catchable e Hp); eauto.
  - eauto.
Qed.

Lemma exchange_returns meth path hdrs payload ms w :
  wf_world w → closed_world w → platform_rejections net →
  ∃ o w', exchange net meth path hdrs payload ms w = Some (Normal o, w').
Proof.
  intros Hwf Hc Hp.
  destruct (exchange_result meth path hdrs payload ms w Hwf Hc)
    as (c & w' & Hrun & [->| ->]); [|eauto].
  destruct (reply_returns meth path (request_of meth path hdrs payload w) Hp)
    as [o Ho].
  rewrite Ho in Hrun. eauto.
Qed.







(** X7.  No condition of the transport reaches the caller of an
    operation.  On a platform whose rejections have an error text (the
    [Error] instances of [fetch], of the body readers and of the timeout),
    in a world in order, [fetchCourses], [fetchFaqs], [createEnrollment]
    and [pingHealth] always return an outcome, whatever the network does;
    so does [fetchRecentEnrollments] when its arguments convert, and
    [askBackend] for a string that goes to [/chat]. *)
Theorem transport_conditions_never_escape limit source payload s w :
  wf_world w → closed_world w → platform_rejections net →
  (∃ o w', fetchCourses net w = Some (Normal o, w')) ∧
  (∃ o w', fetchFaqs net w = Some (Normal o, w')) ∧
  (∃ o w', createEnrollment net payload w = Some (Normal o, w')) ∧
  (∃ o w', pingHealth net w = Some (Normal o, w')) ∧
  (query_ok limit source = true →
   ∃ o w', fetchRecentEnrollments net limit source w = Some (Normal o, w')) ∧
  (Str.includes "course" (Str.toLowerCase s) = false →
   Str.includes "faq" (Str.toLowerCase s) = false →
   ∃ o w', askBackend net (JStr s) w = Some (Normal o, w')).
Proof.
  intros Hwf Hc Hp.
  assert (Hget : ∀ path o,
            ∃ out w', httpGet net path o w = Some (Normal out, w')).
  { intros path o. rewrite httpGet_exchange. by apply exchange_returns. }
  assert (Hpost : ∀ path p o,
            ∃ out w', httpPost net path p o w = Some (Normal out, w')).
  { intros path p o. rewrite httpPost_exchange. by apply exchange_returns. }
  assert (Hsub : ∀ (call : M outcome) msg,
            (∃ out w', call w = Some (Normal out, w')) →
            ∃ out w', (let* res := call in
                       Async.ret (if ok res then res else failure (JStr msg))) w
                      = Some (Normal out, w')).
  { intros call msg (out & w' & Hrun). unfold Async.bind. rewrite Hrun.
    unfold Async.ret. eauto. }
  split; [apply Hsub, Hget|]. split; [apply Hsub, Hget|].
  split; [apply Hsub, Hpost|]. split; [apply Hget|]. split.
  - intros Hq. rewrite recent_unfold.
    destruct (query_ok_entries limit source Hq) as [q ->]. apply Hsub, Hget.
  - intros Hcourse Hfaq. rewrite askBackend_unfold, string_utterance, Hcourse, Hfaq.
    destruct (Hpost "/chat" (JObj [("message", JStr s)]) no_options)
      as (out & w' & Hrun).
    unfold Async.bind. rewrite Hrun.
    destruct (negb (ok out)); unfold Async.ret; eauto.
Qed.

Lemma shrinks_refl w : shrinks w w.
Proof. intros i st Hi. by exists st. Qed.

Lemma shrinks_trans w1 w2 w3 : shrinks w1 w2 → shrinks w2 w3 → shrinks w1 w3.
Proof.
  intros H12 H23 i st3 H3. destruct (H23 i st3 H3) as (st2 & H2 & Hl2).
  destruct (H12 i st2 H2) as (st1 & H1 & Hl1). exists st1. split; [done|]. auto.
Qed.

Lemma run_callback_shrinks cb w : shrinks w (run_callback cb w).
Proof.
  apply (run_callback_preserves (shrinks w) (fun _ => True)); [done| |apply shrinks_refl].
  intros w' c st r Hc _ _ Hsh i st' Hi. simpl in Hi.
  apply (lookup_marked _ _ _ _ _ _ Hc) in Hi as [[-> ->]|[_ Hi]]; [|by apply Hsh].
  destruct (Hsh c st Hc) as (st0 & H0 & Hl). exists st0. split; [done|].
  intros l Hl'. apply Hl. simpl in Hl'.
  apply list_elem_of_In, filter_In in Hl' as [Hl' _]. by apply list_elem_of_In.
Qed.

Lemma fire_shrinks p w : shrinks w (fire p w).
Proof.
  intros i st' Hi. unfold fire in Hi.
  by apply (run_callback_shrinks (on_fire (snd p))) in Hi.
Qed.

Lemma run_timers_shrinks fuel : ∀ limit sg w,
  shrinks w (fst (run_timers fuel limit sg w)).
Proof.
  induction fuel as [|fuel IH]; intros limit sg w; simpl; [apply shrinks_refl|].
  destruct (next_due limit w) as [p|]; [|apply shrinks_refl].
  destruct (is_aborted (fire p w) sg); simpl; [apply fire_shrinks|].
  eapply shrinks_trans; [apply fire_shrinks|apply IH].
Qed.

(** Whatever a wait does to the world, it adds no timer and no listener. *)
Lemma await_effects sg delay w w' o :
  await sg delay w = Some (w', o) → evolves w w' ∧ shrinks w w'.
Proof.
  unfold await. destruct (is_aborted w sg).
  - intros [= <- _]. split; [apply evolves_refl|apply shrinks_refl].
  - pose proof (run_timers_evolves (length (timers w))
                  ((fun d => now w + Z.max 0 d) <$> delay) sg w) as Hev.
    pose proof (run_timers_shrinks (length (timers w))
                  ((fun d => now w + Z.max 0 d) <$> delay) sg w) as Hsh.
    destruct (run_timers _ _ _ _) as [w1 b]. simpl in *.
    destruct b; [by intros [= <- _]|].
    destruct delay; simpl; [|done]. intros [= <- _]. split; [|done].
    eapply evolves_trans; [exact Hev|apply evolves_set_now].
Qed.

Lemma closed_step w w' :
  evolves w w' → shrinks w w' → closed_world w → closed_world w'.
Proof.
  intros Hev Hsh Hc. destruct (proj1 (closed_world_spec w) Hc) as [Ht Hs].
  apply closed_world_spec. rewrite (ev_len _ _ Hev). split.
  - intros p Hp. by apply Ht, (ev_timers _ _ Hev).
  - intros st' l Hst' Hl. apply list_elem_of_lookup in Hst' as [i Hi].
    destruct (Hsh i st' Hi) as (st & Hst & Hls).
    apply (Hs st l); [by eapply list_elem_of_lookup_2|by apply Hls].
Qed.

Lemma wf_step w w' : evolves w w' → wf_world w → wf_world w'.
Proof.
  intros Hev Hwf. rewrite wf_world_spec in *. intros p Hp.
  rewrite (ev_next _ _ Hev). by apply Hwf, (ev_timers _ _ Hev).
Qed.

Lemma fetch_effects rq w c w' :
  fetch net rq w = Some (c, w') →
  evolves (emit (EvFetch rq) w) w' ∧ shrinks w w'.
Proof.
  unfold fetch.
  destruct (await _ _ _) as [[w1 o]|] eqn:E; [|done].
  apply await_effects in E.
  destruct o; [by intros [= _ <-]|]. destruct (net rq); by intros [= _ <-].
Qed.

Lemma read_body_effects sg res w c w' :
  read_body sg res w = Some (c, w') →
  evolves (emit (read_event res) w) w' ∧ shrinks w w'.
Proof.
  unfold read_body, read_event, res_json, res_text.
  destruct (Str.includes _ _).
  - destruct (await _ _ _) as [[w1 o]|] eqn:E; [|done].
    apply await_effects in E.
    destruct o; [by intros [= _ <-]|]. destruct (json_result res); by intros [= _ <-].
  - destruct (await _ _ _) as [[w1 o]|] eqn:E; [|done].
    apply await_effects in E.
    destruct o; [by intros [= _ <-]|]. destruct (text_result res); by intros [= _ <-].
Qed.

Lemma started_tidy ms w :
  wf_world w → closed_world w →
  wf_world (started ms w) ∧ closed_world (started ms w).
Proof.
  intros Hwf Hc. rewrite wf_world_spec in Hwf.
  destruct (proj1 (closed_world_spec w) Hc) as [Ht Hs]. split.
  - apply wf_world_spec. simpl. intros p Hp.
    apply elem_of_app in Hp as [Hp|Hp]; [apply Hwf in Hp; lia|].
    apply list_elem_of_singleton in Hp. subst p. simpl. lia.
  - apply closed_world_spec. simpl. rewrite length_app. simpl. split.
    + intros p Hp. apply elem_of_app in Hp as [Hp|Hp]; [apply Ht in Hp; lia|].
      apply list_elem_of_singleton in Hp. subst p. simpl. lia.
    + intros st l Hst Hl. apply elem_of_app in Hst as [Hst|Hst].
      * specialize (Hs st l Hst Hl). lia.
      * apply list_elem_of_singleton in Hst. subst st. by apply elem_of_nil in Hl.
Qed.

Lemma clear_tidy w0 id w :
  wf_world w → closed_world w →
  (∀ p, p ∈ timers w → p ∈ timers w0 ∨ fst p = id) →
  wf_world (clearTimeout id w) ∧ closed_world (clearTimeout id w) ∧
  ∀ p, p ∈ timers (clearTimeout id w) → p ∈ timers w0.
Proof.
  intros Hwf Hc Hsub. rewrite wf_world_spec in Hwf.
  destruct (proj1 (closed_world_spec w) Hc) as [Ht Hs].
  split; [|split].
  - apply wf_world_spec. simpl. intros p Hp.
    apply elem_of_remove in Hp as [Hp _]. by apply Hwf.
  - apply closed_world_spec. simpl. split; [|done].
    intros p Hp. apply elem_of_remove in Hp as [Hp _]. by apply Ht.
  - simpl. intros p Hp. apply elem_of_remove in Hp as [Hp Hne].
    by destruct (Hsub p Hp).
Qed.

(** A call leaves the world in order. *)
Lemma exchange_tidy meth path hdrs payload ms w :
  wf_world w → closed_world w →
  settles (exchange net meth path hdrs payload ms) w (fun _ w' => tidy w w').
Proof.
  intros Hwf Hc.
  destruct (settles_inv _ _ _ (exchange_call net meth path hdrs payload ms w Hwf))
    as (c & w' & Hrun & Hsent & _).
  unfold settles. rewrite Hrun. rewrite exchange_unfold in Hrun. cbv zeta in Hrun.
  enough (Hold : wf_world w' ∧ closed_world w' ∧
                 (∀ p, p ∈ timers w' → p ∈ timers w) ∧
                 length (signals w') = S (length (signals w))).
  { destruct Hold as (? & ? & ? & Hlen). unfold tidy. rewrite Hsent, Hlen.
    cbn [length]. repeat split; try done. lia. }
  clear Hsent.
  destruct (started_tidy ms w Hwf Hc) as [Hwf0 Hc0].
  assert (Hstep : ∀ e wa wb,
            wf_world wa ∧ closed_world wa ∧
            (∀ p, p ∈ timers wa → p ∈ timers w ∨ fst p = next_timer w) ∧
            length (signals wa) = S (length (signals w)) →
            evolves (emit e wa) wb ∧ shrinks wa wb →
            wf_world wb ∧ closed_world wb ∧
            (∀ p, p ∈ timers wb → p ∈ timers w ∨ fst p = next_timer w) ∧
            length (signals wb) = S (length (signals w))).
  { intros e wa wb (Ha1 & Ha2 & Ha3 & Ha4) [Hev Hsh].
    split; [by apply (wf_step (emit e wa) wb)|].
    split; [apply (closed_step (emit e wa) wb); done|].
    split; [intros p Hp; by apply Ha3, (ev_timers _ _ Hev)|].
    by rewrite (ev_len _ _ Hev). }
  assert (H0 : wf_world (started ms w) ∧ closed_world (started ms w) ∧
               (∀ p, p ∈ timers (started ms w) →
                     p ∈ timers w ∨ fst p = next_timer w) ∧
               length (signals (started ms w)) = S (length (signals w))).
  { split; [done|]. split; [done|]. split.
    - simpl. intros p Hp. apply elem_of_app in Hp as [Hp|Hp]; [by left|].
      apply list_elem_of_singleton in Hp. subst p. by right.
    - simpl. rewrite length_app. simpl. lia. }
  assert (Hend : ∀ w3,
            wf_world w3 ∧ closed_world w3 ∧
            (∀ p, p ∈ timers w3 → p ∈ timers w ∨ fst p = next_timer w) ∧
            length (signals w3) = S (length (signals w)) →
            ∀ w4, w4 = clear {| h_signal := length (signals w);
                                h_clear := next_timer w;
                                h_controller := length (signals w) |} w3 →
            wf_world w4 ∧ closed_world w4 ∧
            (∀ p, p ∈ timers w4 → p ∈ timers w) ∧
            length (signals w4) = S (length (signals w))).
  { intros w3 (H1 & H2 & H3 & H4) w4 ->.
    destruct (clear_tidy w (next_timer w) w3 H1 H2 H3) as (? & ? & ?).
    by repeat split. }
  destruct (fetch net _ (started ms w)) as [[[res|e] w2]|] eqn:Hf; [| |done].
  - assert (H2 : wf_world w2 ∧ closed_world w2 ∧
                 (∀ p, p ∈ timers w2 → p ∈ timers w ∨ fst p = next_timer w) ∧
                 length (signals w2) = S (length (signals w))).
    { eapply Hstep; [exact H0|]. by eapply fetch_effects. }
    destruct (read_body _ res w2) as [[[v|e] w3]|] eqn:Hr; [| |done].
    + injection Hrun as _ <-. eapply Hend; [|reflexivity].
      eapply Hstep; [exact H2|]. by eapply read_body_effects.
    + injection Hrun as _ <-. eapply Hend; [|reflexivity].
      eapply Hstep; [exact H2|]. by eapply read_body_effects.
  - injection Hrun as _ <-. eapply Hend; [|reflexivity].
    eapply Hstep; [exact H0|]. by eapply fetch_effects.
Qed.

Lemma tidy_refl w : wf_world w → closed_world w → tidy w w.
Proof.
  intros Hwf Hc. unfold tidy. rewrite sent_nothing. cbn [length].
  rewrite Nat.add_0_r. by repeat split.
Qed.

(** X13.  The bridge keeps the world in order.  Started in a world whose
    timer ids are in order and whose callbacks refer to controllers that
    exist, each operation leaves such a world again; it leaves no pending
    timer that was not pending before, and one more controller for each
    request it sent (one, or none when the conversion of an argument
    threw).  The two setters change nothing of that. *)
Theorem operations_leave_the_world_tidy limit source payload utterance address
    key w :
  wf_world w → closed_world w →
  settles (fetchCourses net) w (fun _ w' => tidy w w') ∧
  settles (fetchFaqs net) w (fun _ w' => tidy w w') ∧
  settles (fetchRecentEnrollments net limit source) w (fun _ w' => tidy w w') ∧
  settles (createEnrollment net payload) w (fun _ w' => tidy w w') ∧
  settles (pingHealth net) w (fun _ w' => tidy w w') ∧
  settles (fetchCoursesText net) w (fun _ w' => tidy w w') ∧
  settles (fetchFaqsText net) w (fun _ w' => tidy w w') ∧
  settles (askBackend net utterance) w (fun _ w' => tidy w w') ∧
  wf_world (snd (setApiBase address w)) ∧
  closed_world (snd (setApiBase address w)) ∧
  wf_world (setAdminKey key w) ∧ closed_world (setAdminKey key w).
Proof.
  intros Hwf Hc.
  assert (Hset : wf_world (snd (setApiBase address w)) ∧
                 closed_world (snd (setApiBase address w))).
  { unfold setApiBase. by destruct (JS.to_string _). }
  destruct Hset as [Hset1 Hset2].
  assert (Hget : ∀ path o, settles (httpGet net path o) w (fun _ w' => tidy w w'))
    by (intros; rewrite httpGet_exchange; by apply exchange_tidy).
  assert (Hpost : ∀ path p o,
            settles (httpPost net path p o) w (fun _ w' => tidy w w'))
    by (intros; rewrite httpPost_exchange; by apply exchange_tidy).
  assert (Hsub : ∀ (call : M outcome) msg,
            settles call w (fun _ w' => tidy w w') →
            settles (let* res := call in
                     Async.ret (if ok res then res else failure (JStr msg))) w
              (fun _ w' => tidy w w')).
  { intros call msg H. apply settles_bind. eapply settles_mono; [|exact H].
    by intros [res|e] w'. }
  assert (Hcourses : settles (fetchCourses net) w (fun _ w' => tidy w w'))
    by apply Hsub, Hget.
  assert (Hfaqs : settles (fetchFaqs net) w (fun _ w' => tidy w w'))
    by apply Hsub, Hget.
  assert (HcoursesText : settles (fetchCoursesText net) w (fun _ w' => tidy w w')).
  { unfold fetchCoursesText. apply settles_bind.
    eapply settles_mono; [|exact Hcourses]. intros [r|e] w' H; [|done].
    destruct (negb (ok r)); [done|]. unfold settles, Async.of_completion.
    by destruct (coursesToText (data_of r)). }
  assert (HfaqsText : settles (fetchFaqsText net) w (fun _ w' => tidy w w')).
  { unfold fetchFaqsText. apply settles_bind.
    eapply settles_mono; [|exact Hfaqs]. intros [r|e] w' H; [|done].
    destruct (negb (ok r)); [done|]. unfold settles, Async.of_completion.
    by destruct (faqsToText (data_of r)). }
  repeat apply conj; try done.
  - unfold settles. rewrite recent_unfold.
    destruct (query_entries limit source) as [q|e]; [|by apply tidy_refl].
    apply Hsub, Hget.
  - apply Hsub, Hpost.
  - apply Hget.
  - unfold settles. rewrite askBackend_unfold.
    destruct (JS.to_string _) as [text|e]; [|by apply tidy_refl].
    destruct (Str.includes "course" _); [|destruct (Str.includes "faq" _)].
    + apply settles_bind. eapply settles_mono; [|exact HcoursesText].
      by intros [t|e] w'.
    + apply settles_bind. eapply settles_mono; [|exact HfaqsText].
      by intros [t|e] w'.
    + apply settles_bind. eapply settles_mono; [|apply Hpost].
      intros [res|e] w' H; [|done]. by destruct (negb (ok res)).
Qed.

Lemma httpGet_plain path :
  httpGet net path no_options
  = exchange net "GET" path {[ "Accept" := JStr "application/json" ]} None 12000.
Proof.
  rewrite httpGet_exchange. cbn [no_options opt_headers timeout default].
  by rewrite (left_id_L ∅ (∪)).
Qed.

Lemma plain_read_in_time path msg (sorry : string)
    (fmt : value → completion string) d res v w :
  wf_world w → closed_world w →
  let rq := request_of "GET" path {[ "Accept" := JStr "application/json" ]}
              None w in
  timely 12000 (net rq) → net rq = NetRespond d res →
  res_ok res = true → body_value res = inr v →
  ∃ w', (let* r := (let* res := httpGet net path no_options in
                    Async.ret (if ok res then res else failure (JStr msg))) in
         if negb (ok r) then Async.ret sorry
         else Async.of_completion (fmt (data_of r))) w
        = Some (fmt v, w').
Proof.
  intros Hwf Hc rq Ht Hnet Hok Hv.
  destruct (exchange_timely "GET" path _ None 12000 w Hwf Hc Ht)
    as (w' & a & _ & Hrun & _).
  fold rq in Hrun. rewrite Hnet in Hrun. simpl in Hrun. rewrite Hv, Hok in Hrun.
  exists w'. unfold Async.bind. rewrite httpGet_plain, Hrun. reflexivity.
Qed.

Lemma plain_read_late path msg (sorry : string)
    (fmt : value → completion string) w :
  wf_world w → closed_world w →
  late 12000 (net (request_of "GET" path
                     {[ "Accept" := JStr "application/json" ]} None w)) →
  ∃ w', (let* r := (let* res := httpGet net path no_options in
                    Async.ret (if ok res then res else failure (JStr msg))) in
         if negb (ok r) then Async.ret sorry
         else Async.of_completion (fmt (data_of r))) w
        = Some (Normal sorry, w') ∧ now w' = now w + 12000.
Proof.
  intros Hwf Hc Hl.
  destruct (exchange_late "GET" path _ None 12000 w Hwf Hc Hl) as (w' & Hrun & Hn).
  exists w'. split; [|exact Hn].
  unfold Async.bind. rewrite httpGet_plain, Hrun. reflexivity.
Qed.

(** X14.  The text operations, end to end, on an answer in time: when the
    read of the courses (of the FAQs) brings a 2xx response with body [v]
    before the twelve seconds are over, [fetchCoursesText]
    ([fetchFaqsText]) is the formatter applied to [v], its throw
    included. *)
Theorem text_of_an_answer_in_time d res v w :
  wf_world w → closed_world w →
  res_ok res = true → body_value res = inr v →
  (let rq := request_of "GET" "/courses/summary/all"
               {[ "Accept" := JStr "application/json" ]} None w in
   timely 12000 (net rq) → net rq = NetRespond d res →
   ∃ w', fetchCoursesText net w = Some (coursesToText v, w')) ∧
  (let rq := request_of "GET" "/faqs"
               {[ "Accept" := JStr "application/json" ]} None w in
   timely 12000 (net rq) → net rq = NetRespond d res →
   ∃ w', fetchFaqsText net w = Some (faqsToText v, w')).
Proof.
  intros Hwf Hc Hok Hv. split; intros rq Ht Hnet.
  - by apply (plain_read_in_time "/courses/summary/all" _ _ coursesToText d res v w).
  - by apply (plain_read_in_time "/faqs" _ _ faqsToText d res v w).
Qed.

(** X15.  A backend that is down gets the apology, after twelve seconds:
    when the answer is late, [fetchCoursesText] and [fetchFaqsText] return
    their fixed sentence at the moment the timeout elapses, and
    [askBackend], for an utterance with [course] in it, returns that
    sentence as the data of an outcome that is [ok]. *)
Theorem silent_backend_gets_the_apology s w :
  wf_world w → closed_world w →
  (late 12000 (net (request_of "GET" "/courses/summary/all"
                      {[ "Accept" := JStr "application/json" ]} None w)) →
   (∃ w', fetchCoursesText net w
          = Some (Normal "Sorry, my live system is unreachable. Please try again later.",
                  w') ∧ now w' = now w + 12000) ∧
   (Str.includes "course" (Str.toLowerCase s) = true →
    ∃ w', askBackend net (JStr s) w
          = Some (Normal (success (JStr "Sorry, my live system is unreachable. Please try again later.")),
                  w') ∧ now w' = now w + 12000)) ∧
  (late 12000 (net (request_of "GET" "/faqs"
                      {[ "Accept" := JStr "application/json" ]} None w)) →
   ∃ w', fetchFaqsText net w
         = Some (Normal "Sorry, FAQs are not available right now.", w') ∧
         now w' = now w + 12000).
Proof.
  intros Hwf Hc. split.
  - intros Hl.
    destruct (plain_read_late "/courses/summary/all"
                "Live system is unreachable. Please try again later."
                "Sorry, my live system is unreachable. Please try again later."
                coursesToText w Hwf Hc Hl) as (w' & Hrun & Hn).
    split; [by exists w'|].
    intros Hs. exists w'. split; [|exact Hn].
    rewrite askBackend_unfold, string_utterance, Hs.
    unfold Async.bind at 1. unfold fetchCoursesText, fetchCourses. by rewrite Hrun.
  - intros Hl.
    by apply (plain_read_late "/faqs" "FAQs are not available right now."
                "Sorry, FAQs are not available right now." faqsToText w).
Qed.

End Clock.

(** ** The timeout composer *)

Section ComposerProperties.
Import Abort AbortFacts Timers TimerFacts ComposerFacts OwnFacts.

Lemma timer_delay_small ms : 0 <= ms < 2 ^ 31 → timer_delay ms = ms.
Proof.
  intros H. unfold timer_delay, to_int32.
  rewrite Z.mod_small by lia. lia.
Qed.

(** X16.  The timeout of [withTimeout(ms)], without an external signal,
    fires at its deadline and not before: a wait on the signal returned
    ends when the delay has passed, with the signal aborted for the reason
    [Error("Timeout")], and up to any earlier time the signal is not
    aborted. *)
Theorem timeout_fires_at_its_deadline ms w :
  wf_world w → closed_world w →
  let t := fst (withTimeout ms None w) in
  let w1 := snd (withTimeout ms None w) in
  (∃ w', await (h_signal t) None w1
         = Some (w', Some (ErrorObj "Error" "Timeout")) ∧
         now w' = now w + timer_delay ms) ∧
  (∀ T, T < now w + timer_delay ms →
        is_aborted (fst (run_timers (length (timers w1)) (Some T) (h_signal t) w1))
          (h_signal t) = false) ∧
  (0 <= ms < 2 ^ 31 → timer_delay ms = ms).
Proof.
  intros Hwf Hc. rewrite withTimeout_alone. cbn [fst snd h_signal].
  pose proof (started_owned ms w Hwf Hc) as Hown.
  set (t := {| deadline := now w + timer_delay ms;
               on_fire := OnTimeout (length (signals w)) |}) in *.
  assert (Hdelay : 0 <= timer_delay ms) by (unfold timer_delay; lia).
  split; [|split].
  - destruct (await_late (next_timer w) (length (signals w)) t None (started ms w)
                Hown) as (w' & Hrun & Hn & _); [simpl; lia|done|].
    by exists w'.
  - intros T HT.
    destruct (run_timers_in_time (next_timer w) (length (signals w)) t T
                (length (timers (started ms w))) (started ms w) Hown HT)
      as (_ & Hown' & _).
    apply (own_live _ _ _ _ Hown').
  - apply timer_delay_small.
Qed.

(** No timer and no listener is aimed at [c]: nothing aborts it. *)
Lemma run_timers_untargeted c fuel : ∀ limit w,
  quiet c w → is_aborted w c = false →
  (∀ p, p ∈ timers w → target (on_fire (snd p)) ≠ c) →
  snd (run_timers fuel limit c w) = false ∧
  is_aborted (fst (run_timers fuel limit c w)) c = false.
Proof.
  induction fuel as [|fuel IH]; intros limit w Hq Hlive Ht; [done|].
  simpl. destruct (next_due limit w) as [p|] eqn:Hp; [|done].
  apply next_due_Some in Hp as [Hin _].
  set (w1 := set_now (Z.max (now w) (deadline (snd p)))
               (set_timers (remove (fst p) (timers w)) w)).
  destruct (run_callback_other c (on_fire (snd p)) w1 (Ht p Hin) Hq Hlive)
    as [Hq' Hl'].
  change (run_callback (on_fire (snd p)) w1) with (fire p w) in *.
  rewrite Hl'. apply IH; [done|done|].
  intros q Hq0. rewrite fire_timers in Hq0.
  apply elem_of_remove in Hq0 as [Hq0 _]. by apply Ht.
Qed.

(** X17.  A released timeout never fires.  After [clear()] the timer is
    gone: however long the timers run, the signal [withTimeout(ms)]
    returned is not aborted, and a wait on it never ends. *)
Theorem cleared_timeout_never_fires ms w :
  wf_world w → closed_world w →
  let t := fst (withTimeout ms None w) in
  let w2 := clear t (snd (withTimeout ms None w)) in
  (∀ limit,
     is_aborted (fst (run_timers (length (timers w2)) limit (h_signal t) w2))
       (h_signal t) = false) ∧
  await (h_signal t) None w2 = None.
Proof.
  intros Hwf Hc. rewrite withTimeout_alone. cbn [fst snd h_signal].
  pose proof (started_owned ms w Hwf Hc) as Hown.
  set (w2 := clear _ _).
  assert (Hq : quiet (length (signals w)) w2) by apply (own_quiet _ _ _ _ Hown).
  assert (Hl : is_aborted w2 (length (signals w)) = false)
    by apply (own_live _ _ _ _ Hown).
  assert (Ht : ∀ p, p ∈ timers w2 →
                    target (on_fire (snd p)) ≠ length (signals w)).
  { intros p Hp Htarget. unfold w2, clear, clearTimeout in Hp. simpl in Hp.
    apply elem_of_remove in Hp as [Hp Hne]. simpl in Hne.
    apply Hne, (own_sole _ _ _ _ Hown p); [|done]. exact Hp. }
  clearbody w2. split.
  - intros limit. by apply run_timers_untargeted.
  - destruct (run_timers_untargeted (length (signals w))
                (length (timers w2)) None w2 Hq Hl Ht) as [Hs _].
    unfold await. rewrite Hl. cbn [fmap option_fmap option_map].
    by rewrite Hs.
Qed.

Lemma fold_abort_other c fuel (ls : list listener) : ∀ acc,
  (∀ l, l ∈ ls → target (handler l) ≠ c) →
  quiet c acc → is_aborted acc c = false →
  quiet c (fold_left
             (fun acc l =>
                signal_abort fuel (fst (callback_call (handler l) acc))
                  (snd (callback_call (handler l) acc)) acc) ls acc) ∧
  is_aborted (fold_left
                (fun acc l =>
                   signal_abort fuel (fst (callback_call (handler l) acc))
                     (snd (callback_call (handler l) acc)) acc) ls acc) c = false.
Proof.
  induction ls as [|l ls IH]; intros acc Hls Hq Hl; [done|]. simpl.
  destruct (signal_abort_other c fuel (fst (callback_call (handler l) acc))
              (snd (callback_call (handler l) acc)) acc) as [Hq' Hl']; [|done|done|].
  { rewrite callback_target. apply Hls. by left. }
  apply IH; [|done|done]. intros l' Hl0. apply Hls. by right.
Qed.

Lemma fold_abort_keeps fuel (ls : list listener) c r0 : ∀ acc,
  is_aborted acc c = true ∧ signal_reason acc c = r0 →
  is_aborted (fold_left
                (fun acc l =>
                   signal_abort fuel (fst (callback_call (handler l) acc))
                     (snd (callback_call (handler l) acc)) acc) ls acc) c = true ∧
  signal_reason (fold_left
                   (fun acc l =>
                      signal_abort fuel (fst (callback_call (handler l) acc))
                        (snd (callback_call (handler l) acc)) acc) ls acc) c = r0.
Proof.
  intros acc H. apply fold_left_preserves; [|done].
  intros a l Ha. by apply signal_abort_keeps_reason.
Qed.

Lemma fold_abort_length fuel (ls : list listener) : ∀ acc,
  length (signals (fold_left
                     (fun acc l =>
                        signal_abort fuel (fst (callback_call (handler l) acc))
                          (snd (callback_call (handler l) acc)) acc) ls acc))
  = length (signals acc).
Proof.
  induction ls as [|l ls IH]; intros acc; [done|]. simpl. rewrite IH.
  apply signal_abort_length.
Qed.

(** X18.  An external signal that aborts after the composition aborts the
    signal returned, with its own reason, or with [Error("Aborted")] when
    its reason is falsy; the controller of the timer is left alone. *)
Theorem later_abort_carries_its_reason ms s r w :
  closed_world w → (s < length (signals w))%nat → is_aborted w s = false →
  let t := fst (withTimeout ms (Some s) w) in
  let w1 := snd (withTimeout ms (Some s) w) in
  let w2 := abort s r w1 in
  is_aborted w2 (h_signal t) = true ∧
  signal_reason w2 (h_signal t)
  = (if JS.truthy_exn (abort_reason r) then abort_reason r
     else ErrorObj "Error" "Aborted") ∧
  is_aborted w2 (h_controller t) = false ∧
  is_aborted w2 s = true.
Proof.
  intros Hc Hlt Hlive. cbv zeta.
  destruct (proj1 (closed_world_spec w) Hc) as [_ Hcs].
  unfold withTimeout, new_AbortController, setTimeout, addEventListener.
  cbn [fst snd h_signal h_controller signals set_signals set_timers
       set_next_timer emit].
  set (ctrl := length (signals w)).
  set (ss := (signals w ++ [fresh_signal]) ++ [fresh_signal]).
  assert (Hcomb : length (signals w ++ [fresh_signal]) = S ctrl).
  { rewrite length_app. simpl. unfold ctrl. lia. }
  rewrite Hcomb.
  destruct (lookup_lt_is_Some_2 _ _ Hlt) as [st Hs].
  assert (Hss : ss !! s = Some st).
  { unfold ss. rewrite <- app_assoc. by rewrite lookup_app_l. }
  assert (Hst : aborted st = false).
  { unfold is_aborted in Hlive. by rewrite Hs in Hlive. }
  rewrite Hss.
  set (l := {| once := true; handler := OnAbort (S ctrl) s |}).
  set (st1 := {| aborted := aborted st; reason := reason st;
                 listeners := listeners st ++ [l] |}).
  set (w1 := set_signals (<[s := st1]> ss) _).
  assert (Hsig1 : signals w1 = <[s := st1]> ss) by done.
  assert (Hlen_ss : length ss = S (S ctrl)).
  { unfold ss. rewrite !length_app. simpl. unfold ctrl. lia. }
  assert (Hs1 : signals w1 !! s = Some st1).
  { rewrite Hsig1. apply list_lookup_insert_eq. lia. }
  (* every listener of the world, but the new one, is aimed below [ctrl] *)
  assert (Hold : ∀ i sti l0, ss !! i = Some sti → l0 ∈ listeners sti →
                             (target (handler l0) < ctrl)%nat).
  { intros i sti l0 Hi Hl0. unfold ss in Hi. rewrite <- app_assoc in Hi.
    destruct (decide (i < length (signals w))%nat) as [Hi'|Hi'].
    - rewrite lookup_app_l in Hi by done.
      apply (Hcs sti l0); [by eapply list_elem_of_lookup_2|done].
    - rewrite lookup_app_r in Hi by lia.
      destruct (i - length (signals w))%nat as [|[|n]]; simpl in Hi; try done;
        injection Hi as <-; by apply elem_of_nil in Hl0. }
  assert (Hpos : (0 < live w1)%nat).
  { apply (live_positive w1 s); [rewrite Hsig1, length_insert; lia|].
    unfold is_aborted. by rewrite Hs1. }
  unfold abort. destruct (live w1) as [|k] eqn:Hk; [lia|].
  rewrite signal_abort_S, Hs1. cbn [aborted st1]. rewrite Hst.
  set (wm := set_signals (<[s := marked r st1]> (signals w1)) w1).
  assert (Hwm : ∀ i sti, signals wm !! i = Some sti →
                  (i = s ∧ sti = marked r st1) ∨ (i ≠ s ∧ ss !! i = Some sti)).
  { intros i sti Hi. unfold wm in Hi. cbn [signals set_signals] in Hi.
    apply (lookup_marked _ _ _ _ _ _ Hs1) in Hi as [[-> ->]|[Hne Hi]]; [by left|].
    right. split; [done|]. rewrite Hsig1 in Hi.
    by rewrite list_lookup_insert_ne in Hi. }
  assert (Hquiet : ∀ c, (ctrl ≤ c)%nat → quiet c wm).
  { intros c Hc0 i sti l0 Hi Hl0 Ht.
    destruct (Hwm i sti Hi) as [[-> ->]|[Hne Hi']]; [done|].
    specialize (Hold i sti l0 Hi' Hl0). lia. }
  assert (Hlive_m : ∀ c, c ≠ s → (c < S (S ctrl))%nat →
                         ss !! c = Some fresh_signal →
                         is_aborted wm c = false).
  { intros c Hne _ Hfresh. unfold wm.
    rewrite (is_aborted_marked w1 s st1 r c Hs1), decide_False by done.
    unfold is_aborted. rewrite Hsig1.
    rewrite list_lookup_insert_ne by done. by rewrite Hfresh. }
  assert (Hctrl : ss !! ctrl = Some fresh_signal).
  { unfold ss. rewrite <- app_assoc. rewrite lookup_app_r by (unfold ctrl; lia).
    unfold ctrl. by rewrite Nat.sub_diag. }
  assert (Hcombined : ss !! S ctrl = Some fresh_signal).
  { unfold ss. rewrite lookup_app_r by (rewrite Hcomb; lia).
    by rewrite Hcomb, Nat.sub_diag. }
  assert (Hs_m : is_aborted wm s = true ∧ signal_reason wm s = abort_reason r).
  { assert (Hm : signals wm !! s = Some (marked r st1)).
    { unfold wm. cbn [signals set_signals]. apply list_lookup_insert_eq.
      by eapply lookup_lt_Some. }
    unfold is_aborted, signal_reason. by rewrite Hm. }
  assert (Hlen_m : length (signals wm) = S (S ctrl)).
  { unfold wm. cbn [signals set_signals].
    by rewrite length_insert, Hsig1, length_insert. }
  cbn [listeners st1]. rewrite fold_left_app.
  set (step := fun acc l0 => signal_abort (S k) _ _ acc).
  set (acc := fold_left step (listeners st) wm).
  assert (Hls : ∀ c, (ctrl ≤ c)%nat → ∀ l0, l0 ∈ listeners st →
                     target (handler l0) ≠ c).
  { intros c Hc0 l0 Hl0. specialize (Hold s st l0 Hss Hl0). lia. }
  destruct (fold_abort_other (S ctrl) (S k) (listeners st) wm)
    as [Hq_comb Hl_comb];
    [by apply Hls; lia|by apply Hquiet; lia|apply Hlive_m; [lia|lia|done]|].
  destruct (fold_abort_other ctrl (S k) (listeners st) wm)
    as [Hq_ctrl Hl_ctrl];
    [by apply Hls|by apply Hquiet|apply Hlive_m; [lia|lia|done]|].
  destruct (fold_abort_keeps (S k) (listeners st) s (abort_reason r) wm Hs_m)
    as [Hab_s Hr_s].
  pose proof (fold_abort_length (S k) (listeners st) wm) as Hlen_acc.
  fold step in Hq_comb, Hl_comb, Hq_ctrl, Hl_ctrl, Hab_s, Hr_s, Hlen_acc.
  fold acc in Hq_comb, Hl_comb, Hq_ctrl, Hl_ctrl, Hab_s, Hr_s, Hlen_acc.
  cbn [fold_left]. unfold step. cbn [handler l callback_call fst snd].
  rewrite Hr_s.
  set (r2 := if JS.truthy_exn (abort_reason r) then abort_reason r
             else ErrorObj "Error" "Aborted").
  assert (Hr2 : abort_reason r2 = r2).
  { apply abort_reason_truthy. unfold r2.
    by destruct (JS.truthy_exn (abort_reason r)) eqn:E. }
  assert (Hfinal : is_aborted (signal_abort (S k) (S ctrl) r2 acc) (S ctrl) = true ∧
                   signal_reason (signal_abort (S k) (S ctrl) r2 acc) (S ctrl) = r2).
  { rewrite signal_abort_S.
    destruct (lookup_lt_is_Some_2 (signals acc) (S ctrl)) as [stc Hstc];
      [rewrite Hlen_acc, Hlen_m; lia|].
    rewrite Hstc. unfold is_aborted in Hl_comb. rewrite Hstc in Hl_comb.
    rewrite Hl_comb. apply fold_abort_keeps. split.
    - rewrite is_aborted_marked by done. by rewrite decide_True.
    - unfold signal_reason. simpl.
      rewrite list_lookup_insert_eq by (by eapply lookup_lt_Some). simpl.
      exact Hr2. }
  destruct Hfinal as [Hf1 Hf2].
  split; [exact Hf1|]. split; [exact Hf2|]. split.
  - by apply (signal_abort_other ctrl (S k) (S ctrl) r2 acc); [lia|..].
  - by apply signal_abort_mono.
Qed.

End ComposerProperties.

(** * The statements at sample inputs *)


Lemma release_runs_once_on_every_path_witness :
  wf_world initial_world ∧
  settles (httpGet unreachable "/health" no_options) initial_world
    (fun _ w' => released initial_world w') ∧
  settles (httpPost unreachable "/health" (JObj []) no_options) initial_world
    (fun _ w' => released initial_world w').
Proof.
  split; [reflexivity|].
  apply (release_runs_once_on_every_path unreachable "/health" (JObj [])
           no_options initial_world).
  reflexivity.
Defined.

Lemma failure_status_after_body_read_witness :
  fst <$> httpGet (answers not_found) "/faqs" no_options initial_world
  = Some (Normal (failure (JStr "GET /faqs -> 404 Not Found"))) ∧
  fst <$> httpGet (answers bad_gateway) "/faqs" no_options initial_world
  = Some (Normal (failure (JStr "Unexpected end of JSON input"))).
Proof.
  split.
  - pose proof (failure_status_after_body_read (answers not_found) "/faqs" JNull
                  no_options initial_world) as H.
    cbv zeta in H. destruct H as [Hget _].
    edestruct (Hget not_found) as [_ Hread]; [reflexivity|].
    edestruct Hread as [_ [Hout _]]; [reflexivity|].
    rewrite (Hout _ eq_refl eq_refl). reflexivity.
  - pose proof (failure_status_after_body_read (answers bad_gateway) "/faqs"
                  JNull no_options initial_world) as H.
    cbv zeta in H. destruct H as [Hget _].
    edestruct (Hget bad_gateway) as [_ Hread]; [reflexivity|].
    edestruct Hread as [_ [_ [Hfail _]]]; [reflexivity|].
    rewrite (Hfail _ _ eq_refl eq_refl). reflexivity.
Defined.


Lemma askBackend_first_match_witness :
  wf_world initial_world ∧
  askBackend (answers (json_response 200 "OK" two_courses))
    (JStr "Which COURSES do you run? Is there a FAQ?") initial_world
  = (let* t := fetchCoursesText (answers (json_response 200 "OK" two_courses)) in
     Async.ret (success (JStr t))) initial_world ∧
  settles (askBackend (answers (json_response 200 "OK" two_courses))
             (JStr "Which COURSES do you run? Is there a FAQ?")) initial_world
    (fun _ w' =>
       sent initial_world w'
       = [request_of "GET" "/courses/summary/all"
            {[ "Accept" := JStr "application/json" ]} None initial_world]).
Proof.
  split; [reflexivity|].
  exact (askBackend_first_match
           (answers (json_response 200 "OK" two_courses))
           "Which COURSES do you run? Is there a FAQ?"
           initial_world eq_refl).
Defined.


Lemma recent_enrollments_request_witness :
  wf_world (setAdminKey (JStr "secret") initial_world) ∧
  settles (fetchRecentEnrollments unreachable JUndefined (JStr "web"))
    (setAdminKey (JStr "secret") initial_world)
    (fun _ w' =>
       ∃ rq, sent (setAdminKey (JStr "secret") initial_world) w' = [rq] ∧
             method rq = "GET" ∧
             url rq = "https://bcm-demo.onrender.com/enrollments/recent?limit=10&source=web" ∧
             headers rq !! "X-Admin-Key" = Some (JStr "secret")) ∧
  settles (fetchRecentEnrollments unreachable stubborn JUndefined) initial_world
    (fun c w' => c = Throw JS.NOT_PRIMITIVE ∧ sent initial_world w' = []).
Proof.
  split; [reflexivity|]. split.
  - eapply settles_mono;
      [|exact (proj1 (recent_enrollments_request unreachable JUndefined
                        (JStr "web") (setAdminKey (JStr "secret") initial_world)
                        eq_refl))].
    intros c w' H.
    change (query_entries JUndefined (JStr "web"))
      with (Normal [("limit", "10"); ("source", "web")]
            : completion (list (string * string))) in H.
    exact (proj1 H).
  - eapply settles_mono;
      [|exact (proj1 (recent_enrollments_request unreachable stubborn
                        JUndefined initial_world eq_refl))].
    intros c w' H.
    change (query_entries stubborn JUndefined)
      with (Throw JS.NOT_PRIMITIVE : completion (list (string * string))) in H.
    destruct H as (Hc & _ & Hs & _). by split.
Defined.

Lemma setApiBase_sets_truthy_only_witness :
  getApiBase (snd (setApiBase (JStr "http://localhost:8000") initial_world))
  = "http://localhost:8000" ∧
  getApiBase (snd (setApiBase (JNum (10 ^ 21)) initial_world)) = "1e+21" ∧
  setApiBase (JNum 0) initial_world = (Normal tt, initial_world).
Proof.
  split; [|split].
  - destruct (setApiBase_sets_truthy_only (JStr "http://localhost:8000")
                initial_world) as (_ & Hset & _).
    exact (proj2 (Hset "http://localhost:8000" eq_refl eq_refl)).
  - destruct (setApiBase_sets_truthy_only (JNum (10 ^ 21)) initial_world)
      as (_ & Hset & _).
    exact (proj2 (Hset "1e+21" eq_refl eq_refl)).
  - destruct (setApiBase_sets_truthy_only (JNum 0) initial_world)
      as (Hkeep & _).
    exact (Hkeep eq_refl).
Defined.

Lemma keywords_match_in_any_case_anywhere_witness :
  askBackend silent (JStr "Is the DisCOURSE club open?") initial_world
  = (let* t := fetchCoursesText silent in Async.ret (success (JStr t)))
      initial_world.
Proof.
  apply (keywords_match_in_any_case_anywhere silent
           "Is the DisCOURSE club open?" initial_world).
  by exists "Is the Dis", "COURSE", " club open?".
Defined.

Lemma transport_request_anatomy_witness :
  wf_world initial_world ∧
  settles (httpGet unreachable "/health" no_options) initial_world (fun _ w' =>
    ∃ rq, sent initial_world w' = [rq] ∧ method rq = "GET" ∧
          url rq = API_BASE initial_world +:+ "/health" ∧ body rq = None ∧
          ∀ k, headers rq !! k
               = merged_header (default ∅ (opt_headers no_options))
                   {[ "Accept" := JStr "application/json" ]} k).
Proof.
  split; [reflexivity|].
  exact (proj1 (transport_request_anatomy unreachable "/health" JNull
                  no_options initial_world eq_refl)).
Defined.

Lemma failures_carry_the_fixed_message_witness :
  wf_world initial_world ∧
  settles (fetchCourses unreachable) initial_world (fun c _ =>
    fails_with "Live system is unreachable. Please try again later." c).
Proof.
  split; [reflexivity|].
  exact (proj1 (failures_carry_the_fixed_message unreachable JUndefined
                  JUndefined JNull (JStr "hello") initial_world eq_refl)).
Defined.

Lemma transport_conditions_never_escape_witness :
  wf_world initial_world ∧ closed_world initial_world ∧
  platform_rejections unreachable ∧
  (∃ o w', fetchCourses unreachable initial_world = Some (Normal o, w')) ∧
  (∃ o w', fetchRecentEnrollments unreachable (JNum 5) JUndefined initial_world
           = Some (Normal o, w')) ∧
  (∃ o w', askBackend unreachable (JStr "hello") initial_world
           = Some (Normal o, w')).
Proof.
  assert (Hp : platform_rejections unreachable)
    by (intros rq; eexists; reflexivity).
  split; [reflexivity|]. split; [reflexivity|]. split; [exact Hp|].
  destruct (transport_conditions_never_escape unreachable (JNum 5) JUndefined
              JNull "hello" initial_world eq_refl eq_refl Hp)
    as (H1 & _ & _ & _ & H5 & H6).
  split; [exact H1|]. split; [exact (H5 eq_refl)|]. exact (H6 eq_refl eq_refl).
Defined.

Lemma base_url_set_is_the_one_used_witness :
  wf_world initial_world ∧
  settles (fetchCourses unreachable)
    (snd (setApiBase (JStr "http://localhost:8000") initial_world)) (fun _ w' =>
      one_request_to "http://localhost:8000"
        (snd (setApiBase (JStr "http://localhost:8000") initial_world)) w' ∧
      getApiBase w' = "http://localhost:8000") ∧
  settles (pingHealth unreachable) (snd (setApiBase stubborn initial_world))
    (fun _ w' =>
      one_request_to "https://bcm-demo.onrender.com"
        (snd (setApiBase stubborn initial_world)) w' ∧
      getApiBase w' = "https://bcm-demo.onrender.com").
Proof.
  split; [reflexivity|]. split.
  - exact (proj1 (base_url_set_is_the_one_used unreachable
                    (JStr "http://localhost:8000") JUndefined JUndefined JNull
                    (JStr "hello") initial_world eq_refl)).
  - destruct (base_url_set_is_the_one_used unreachable stubborn JUndefined
                JUndefined JNull (JStr "hello") initial_world eq_refl)
      as (_ & _ & _ & _ & H5 & _).
    exact H5.
Defined.

Lemma admin_key_goes_to_recent_enrollments_only_witness :
  wf_world initial_world ∧
  settles (fetchRecentEnrollments unreachable JUndefined JUndefined)
    (setAdminKey (JStr "secret") initial_world) (fun _ w' =>
      ∃ rq, sent (setAdminKey (JStr "secret") initial_world) w' = [rq] ∧
            headers rq !! "X-Admin-Key" = Some (JStr "secret")).
Proof.
  split; [reflexivity|].
  exact (proj1 (admin_key_goes_to_recent_enrollments_only unreachable
                  (JStr "secret") JUndefined JUndefined JNull (JStr "hello")
                  initial_world eq_refl)).
Defined.

Lemma recent_query_is_safe_witness :
  wf_world initial_world ∧
  settles (fetchRecentEnrollments unreachable (JStr "5&admin=1") (JStr "a b"))
    initial_world (fun _ w' =>
      ∃ rq, sent initial_world w' = [rq] ∧
            url rq = "https://bcm-demo.onrender.com/enrollments/recent?limit=5%26admin%3D1&source=a+b").
Proof.
  split; [reflexivity|].
  eapply settles_mono;
    [|exact (recent_query_is_safe unreachable (JStr "5&admin=1") (JStr "a b")
               initial_world eq_refl)].
  intros c w' H.
  change (query_ok (JStr "5&admin=1") (JStr "a b")) with true in H.
  destruct H as (rq & L & S & Hsent & -> & -> & _ & _ & Hurl).
  exists rq. split; [exact Hsent|]. exact Hurl.
Defined.

Lemma answer_in_time_is_returned_witness :
  wf_world initial_world ∧ closed_world initial_world ∧
  ∃ w' a,
    answer_time (NetRespond 20 (json_response 200 "OK" two_courses)) = Some a ∧
    httpGet (answers (json_response 200 "OK" two_courses))
      "/courses/summary/all" no_options initial_world
    = Some (Normal (success two_courses), w') ∧
    now w' = now initial_world + a.
Proof.
  split; [reflexivity|]. split; [reflexivity|].
  destruct (answer_in_time_is_returned
              (answers (json_response 200 "OK" two_courses))
              "/courses/summary/all" JNull no_options initial_world
              eq_refl eq_refl) as [Hget _].
  apply Hget. reflexivity.
Defined.

Lemma late_answer_is_a_timeout_witness :
  wf_world initial_world ∧ closed_world initial_world ∧
  ∃ w', httpGet silent "/health" no_options initial_world
        = Some (Normal TIMED_OUT, w') ∧
        now w' = now initial_world + Timers.timer_delay 12000.
Proof.
  split; [reflexivity|]. split; [reflexivity|].
  destruct (late_answer_is_a_timeout silent "/health" JNull no_options
              initial_world eq_refl eq_refl) as [Hget _].
  apply Hget. exact I.
Defined.

Lemma operations_leave_the_world_tidy_witness :
  wf_world initial_world ∧ closed_world initial_world ∧
  settles (fetchCourses silent) initial_world
    (fun _ w' => tidy initial_world w').
Proof.
  split; [reflexivity|]. split; [reflexivity|].
  exact (proj1 (operations_leave_the_world_tidy silent JUndefined JUndefined
                  JNull (JStr "hello") (JStr "http://localhost:8000")
                  (JStr "secret") initial_world eq_refl eq_refl)).
Defined.

Lemma text_of_an_answer_in_time_witness :
  wf_world initial_world ∧ closed_world initial_world ∧
  ∃ w', fetchCoursesText (answers (json_response 200 "OK" two_courses))
          initial_world
        = Some (coursesToText two_courses, w').
Proof.
  split; [reflexivity|]. split; [reflexivity|].
  destruct (text_of_an_answer_in_time
              (answers (json_response 200 "OK" two_courses)) 20
              (json_response 200 "OK" two_courses) two_courses initial_world
              eq_refl eq_refl eq_refl eq_refl) as [Hcourses _].
  apply Hcourses; reflexivity.
Defined.

Lemma silent_backend_gets_the_apology_witness :
  wf_world initial_world ∧ closed_world initial_world ∧
  ∃ w', fetchFaqsText silent initial_world
        = Some (Normal "Sorry, FAQs are not available right now.", w') ∧
        now w' = now initial_world + 12000.
Proof.
  split; [reflexivity|]. split; [reflexivity|].
  destruct (silent_backend_gets_the_apology silent "hello" initial_world
              eq_refl eq_refl) as [_ Hfaqs].
  apply Hfaqs. exact I.
Defined.

Lemma timeout_fires_at_its_deadline_witness :
  wf_world initial_world ∧ closed_world initial_world ∧
  ∃ w', Timers.await (h_signal (fst (withTimeout 12000 None initial_world)))
          None (snd (withTimeout 12000 None initial_world))
        = Some (w', Some (ErrorObj "Error" "Timeout")) ∧
        now w' = now initial_world + Timers.timer_delay 12000.
Proof.
  split; [reflexivity|]. split; [reflexivity|].
  exact (proj1 (timeout_fires_at_its_deadline 12000 initial_world
                  eq_refl eq_refl)).
Defined.

Lemma cleared_timeout_never_fires_witness :
  wf_world initial_world ∧ closed_world initial_world ∧
  Timers.await (h_signal (fst (withTimeout 12000 None initial_world))) None
    (clear (fst (withTimeout 12000 None initial_world))
       (snd (withTimeout 12000 None initial_world)))
  = None.
Proof.
  split; [reflexivity|]. split; [reflexivity|].
  exact (proj2 (cleared_timeout_never_fires 12000 initial_world
                  eq_refl eq_refl)).
Defined.

Lemma later_abort_carries_its_reason_witness :
  closed_world listening_world ∧
  (0 < length (signals listening_world))%nat ∧
  is_aborted listening_world 0 = false ∧
  signal_reason
    (Abort.abort 0 (Thrown (JStr "left the page"))
       (snd (withTimeout 12000 (Some 0%nat) listening_world)))
    (h_signal (fst (withTimeout 12000 (Some 0%nat) listening_world)))
  = Thrown (JStr "left the page").
Proof.
  assert (Hlt : (0 < length (signals listening_world))%nat)
    by (apply Nat.lt_0_succ).
  split; [reflexivity|]. split; [exact Hlt|]. split; [reflexivity|].
  exact (proj1 (proj2 (later_abort_carries_its_reason 12000 0
                         (Thrown (JStr "left the page")) listening_world
                         eq_refl Hlt eq_refl))).
Defined.

Lemma faqsToText_on_every_input_witness :
  faqsToText (JArr [JObj [("question", JStr "Q1"); ("answer", JStr "A1")];
                    JObj [("question", JNum 2)]])
  = Normal ("Q1: A1" +:+ Str.nl +:+ "2: undefined") ∧
  (∃ e, faqsToText (JArr [JObj [("question", JStr "Q1"); ("answer", stubborn)]])
        = Throw e ∧ is_TypeError e) ∧
  faqsToText (JObj [("question", JStr "Q1")]) = Normal NO_FAQS.
Proof.
  split; [|split].
  - exact (faqsToText_on_every_input
             (JArr [JObj [("question", JStr "Q1"); ("answer", JStr "A1")];
                    JObj [("question", JNum 2)]])).
  - exact (faqsToText_on_every_input
             (JArr [JObj [("question", JStr "Q1"); ("answer", stubborn)]])).
  - exact (faqsToText_on_every_input (JObj [("question", JStr "Q1")])).
Defined.

Lemma enrollmentsToText_on_every_input_witness :
  enrollmentsToText
    (JArr [JObj [("full_name", JStr "Ann"); ("program_code", JStr EmptyString);
                 ("created_at", JStr "2024-05-01")]])
  = Normal "Ann enrolled in a course on 2024-05-01" ∧
  (∃ e, enrollmentsToText (JArr [JNull]) = Throw e ∧ is_TypeError e) ∧
  enrollmentsToText (JArr []) = Normal NO_ENROLLMENTS.
Proof.
  split; [|split].
  - exact (enrollmentsToText_on_every_input
             (JArr [JObj [("full_name", JStr "Ann");
                          ("program_code", JStr EmptyString);
                          ("created_at", JStr "2024-05-01")]])).
  - exact (enrollmentsToText_on_every_input (JArr [JNull])).
  - exact (enrollmentsToText_on_every_input (JArr [])).
Defined.

Lemma coursesToText_on_every_input_witness :
  coursesToText two_courses = Normal ("A" +:+ Str.nl +:+ "B") ∧
  (∃ e, coursesToText (JObj [("courses", JArr [JObj [("summary", stubborn)]])])
        = Throw e ∧ is_TypeError e) ∧
  coursesToText (JObj [("courses", JStr "none")]) = Normal NO_COURSES.
Proof.
  split; [|split].
  - exact (coursesToText_on_every_input two_courses).
  - exact (coursesToText_on_every_input
             (JObj [("courses", JArr [JObj [("summary", stubborn)]])])).
  - exact (coursesToText_on_every_input (JObj [("courses", JStr "none")])).
Defined.
